(** * ExaMPM: the problem manager of a material point method solver

    A shallow embedding of [ProblemManager.cc] and [Sphere.cc].  A C++
    [double] is read as an exact rational number, an [int] as an integer,
    a [std::vector] as a list indexed by an integer, a [std::array<T,3>]
    as a record of three components.  A run of a kernel is a value of the
    monad [M]: the list of the events it performed (divisions and files
    written) and either its result or the error that stopped it. *)

From Stdlib Require Import QArith Qcanon Qround ZArith List String Bool Lia.
From Stdlib Require Import DecimalString.
From Stdlib Require DecimalZ.
Import ListNotations.

Open Scope Qc_scope.

(** ** Numbers *)

(** A [double], with its arithmetic read exactly. *)
Abbreviation real := Qc.

(** [x > y] on doubles. *)
Definition gt_real (x y : real) : bool :=
  match x ?= y with Gt => true | _ => false end.

(** [x <= y] on doubles. *)
Definition le_real (x y : real) : bool :=
  match x ?= y with Gt => false | _ => true end.

(** ** [std::array<T,3>] *)

(** The three values of a loop variable [d] running over the spatial
    dimension.  The arrays of the source are [std::array<double,3>]. *)
Inductive dim : Type := d0 | d1 | d2.

(** Modelled from the spec: [Mesh::spatialDimension()] ([Mesh.hh] is not
    part of the sources) returns 3, so a loop [for d < space_dim] visits
    [d0], [d1], [d2] in this order. *)
Definition dims : list dim := [d0; d1; d2].

Record array3 (A : Type) : Type := mk3 { c0 : A; c1 : A; c2 : A }.
Arguments mk3 {A} _ _ _.
Arguments c0 {A} _.
Arguments c1 {A} _.
Arguments c2 {A} _.

(** [a[d]] *)
Definition get3 {A} (a : array3 A) (d : dim) : A :=
  match d with d0 => c0 a | d1 => c1 a | d2 => c2 a end.

(** [a[d] = x] *)
Definition set3 {A} (a : array3 A) (d : dim) (x : A) : array3 A :=
  match d with
  | d0 => mk3 x (c1 a) (c2 a)
  | d1 => mk3 (c0 a) x (c2 a)
  | d2 => mk3 (c0 a) (c1 a) x
  end.

(** [std::fill( a.begin(), a.end(), x )] *)
Definition fill3 {A} (x : A) : array3 A := mk3 x x x.

Abbreviation vec3 := (array3 Qc).
Abbreviation mat3 := (array3 (array3 Qc)).

Definition zero3 : vec3 := fill3 0.
Definition zero33 : mat3 := fill3 zero3.

(** [a[i][j]] and [a[i][j] = x] *)
Definition get33 (a : mat3) (i j : dim) : real := get3 (get3 a i) j.
Definition set33 (a : mat3) (i j : dim) (x : real) : mat3 :=
  set3 a i (set3 (get3 a i) j x).

(** ** The particle *)

(** Modelled from the spec: the record [Particle] ([Particle.hh] is not part
    of the sources), with the fields the kernels read and write. *)
Record Particle : Type := mkParticle {
  r : vec3;
  v : vec3;
  m : real;
  volume : real;
  F : mat3;
  grad_v : mat3;
  stress : mat3;
  strain : mat3;
  matid : Z;
  node_ids : list Z;
  basis_values : list real;
  basis_gradients : list vec3
}.

Definition with_r (p : Particle) (x : vec3) : Particle :=
  mkParticle x (v p) (m p) (volume p) (F p) (grad_v p) (stress p) (strain p)
             (matid p) (node_ids p) (basis_values p) (basis_gradients p).

Definition with_v (p : Particle) (x : vec3) : Particle :=
  mkParticle (r p) x (m p) (volume p) (F p) (grad_v p) (stress p) (strain p)
             (matid p) (node_ids p) (basis_values p) (basis_gradients p).

Definition with_volume (p : Particle) (x : real) : Particle :=
  mkParticle (r p) (v p) (m p) x (F p) (grad_v p) (stress p) (strain p)
             (matid p) (node_ids p) (basis_values p) (basis_gradients p).

Definition with_F (p : Particle) (x : mat3) : Particle :=
  mkParticle (r p) (v p) (m p) (volume p) x (grad_v p) (stress p) (strain p)
             (matid p) (node_ids p) (basis_values p) (basis_gradients p).

Definition with_grad_v (p : Particle) (x : mat3) : Particle :=
  mkParticle (r p) (v p) (m p) (volume p) (F p) x (stress p) (strain p)
             (matid p) (node_ids p) (basis_values p) (basis_gradients p).

Definition with_basis (p : Particle) (ids : list Z) (vals : list real)
    (grads : list vec3) : Particle :=
  mkParticle (r p) (v p) (m p) (volume p) (F p) (grad_v p) (stress p)
             (strain p) (matid p) ids vals grads.

(** A default-constructed particle, as in [std::vector<Particle>( ppcell )]. *)
Definition default_particle : Particle :=
  mkParticle zero3 zero3 0 0 zero33 zero33 zero33 zero33 0%Z [] [] [].

(** ** Events, errors and the monad of a run *)

(** A file written by [writeTimeStepToFile]: its name and, for every
    particle in storage order, the position and the squared velocity
    magnitude (the file holds the square root of the latter, which is not
    a rational number; the decimal formatting of the numbers is left out). *)
Record Snapshot : Type := mkSnapshot {
  file_name : string;
  file_header : string;
  file_rows : list (vec3 * real)
}.

Inductive Event : Type :=
| EvDivide (divisor : real)
| EvWrite (file : Snapshot).

Inductive Error : Type :=
| UndefinedBehaviour  (* an access out of range, a null pointer, [% 0] *)
| AssertionFailure    (* a failed [assert] *)
| LengthError         (* a [std::vector] of negative size *)
| DivisionByZero.     (* a quotient that exact arithmetic does not define *)

Inductive Res (A : Type) : Type :=
| Ok (a : A)
| Fail (e : Error).
Arguments Ok {A} _.
Arguments Fail {A} _.

Definition M (A : Type) : Type := (list Event * Res A)%type.

Definition ret {A} (a : A) : M A := ([], Ok a).

Definition fail {A} (e : Error) : M A := ([], Fail e).

Definition emit (e : Event) : M unit := ([e], Ok tt).

Definition bind {A B} (c : M A) (k : A -> M B) : M B :=
  match c with
  | (t, Ok a) => let (t', b) := k a in (t ++ t', b)
  | (t, Fail e) => (t, Fail e)
  end.

Notation "x <- c ;; k" := (bind c (fun x => k))
  (at level 61, c at next level, right associativity).
Notation "c ;;; k" := (bind c (fun _ => k))
  (at level 61, right associativity).

Definition events {A} (c : M A) : list Event := fst c.
Definition result {A} (c : M A) : Res A := snd c.

(** A loop [for ( x : xs ) s = body( x, s )] over a state [s]. *)
Fixpoint for_each {X S} (xs : list X) (body : X -> S -> M S) (s : S) : M S :=
  match xs with
  | [] => ret s
  | x :: xs' => s' <- body x s ;; for_each xs' body s'
  end.

(** A loop [for ( auto& p : ps ) body( p )] that updates the elements of a
    vector in place. *)
Fixpoint for_each_mut {A} (body : A -> M A) (ps : list A) : M (list A) :=
  match ps with
  | [] => ret []
  | p :: ps' => p' <- body p ;; ps'' <- for_each_mut body ps' ;; ret (p' :: ps'')
  end.

(** The values [0, 1, ..., n-1] of a loop [for ( int i = 0; i < n; ++i )]. *)
Definition range (n : Z) : list Z := map Z.of_nat (seq 0 (Z.to_nat n)).

(** ** [std::vector] *)

Fixpoint list_set {A} (l : list A) (k : nat) (x : A) : list A :=
  match l, k with
  | [], _ => []
  | _ :: l', O => x :: l'
  | y :: l', S k' => y :: list_set l' k' x
  end.

(** [l[i]]: undefined behaviour outside [0 <= i < l.size()]. *)
Definition vec_at {A} (l : list A) (i : Z) : M A :=
  if (0 <=? i)%Z then
    match nth_error l (Z.to_nat i) with
    | Some a => ret a
    | None => fail UndefinedBehaviour
    end
  else fail UndefinedBehaviour.

(** [l[i] = f( l[i] )] *)
Definition vec_modify {A} (l : list A) (i : Z) (f : A -> A) : M (list A) :=
  a <- vec_at l i ;; ret (list_set l (Z.to_nat i) (f a)).

(** [std::vector<T> l( n, x )]: a negative [int] converted to the unsigned
    size exceeds [max_size()] and the constructor throws. *)
Definition vec_make {A} (n : Z) (x : A) : M (list A) :=
  if (n <? 0)%Z then fail LengthError else ret (repeat x (Z.to_nat n)).

(** [a / b], recorded as an event; without a value when [b] is zero. *)
Definition divide (a b : real) : M real :=
  emit (EvDivide b) ;;;
  if Qc_eq_bool b 0 then fail DivisionByZero else ret (a / b).

(** ** TensorTools *)

Module TensorTools.

(** Modelled from the spec: [TensorTools::determinant] ([TensorTools.hh] is
    not part of the sources), the determinant of a 3x3 matrix. *)
Definition determinant (a : mat3) : real :=
  get33 a d0 d0 * (get33 a d1 d1 * get33 a d2 d2 - get33 a d1 d2 * get33 a d2 d1)
  - get33 a d0 d1 * (get33 a d1 d0 * get33 a d2 d2 - get33 a d1 d2 * get33 a d2 d0)
  + get33 a d0 d2 * (get33 a d1 d0 * get33 a d2 d1 - get33 a d1 d1 * get33 a d2 d0).

End TensorTools.

(** ** Sphere.cc *)

Module Sphere.

Record Sphere : Type := mkSphere {
  d_center : vec3;
  d_radius : real
}.

(** [Sphere::particleInGeometry] *)
Definition particleInGeometry (s : Sphere) (p : Particle) : bool :=
  let ref_p := mk3 (get3 (r p) d0 - get3 (d_center s) d0)
                   (get3 (r p) d1 - get3 (d_center s) d1)
                   (get3 (r p) d2 - get3 (d_center s) d2) in
  le_real (get3 ref_p d0 * get3 ref_p d0 + get3 ref_p d1 * get3 ref_p d1
           + get3 ref_p d2 * get3 ref_p d2)
          (d_radius s * d_radius s).

End Sphere.

(** ** The collaborators of the problem manager *)

(** Modelled from the spec: the interface of [Mesh] ([Mesh.hh] is not part
    of the sources).  Each output parameter of a method is the result of
    the function here; [initializeParticles] writes into the buffer of
    candidates it is given, which [initialize] uses again for the next
    cell, so it takes the buffer and returns it. *)
Record Mesh : Type := mkMesh {
  totalNumCells : Z;
  totalNumNodes : Z;
  nodesPerCell : Z;
  particlesPerCell : Z -> Z;
  initializeParticles : Z -> Z -> list Particle -> list Particle;
  locateParticle : Particle -> array3 Z;
  cellNodeIds : array3 Z -> list Z;
  mapPhysicalToReferenceFrame : Particle -> array3 Z -> vec3;
  shapeFunctionValue : vec3 -> list real;
  shapeFunctionGradient : vec3 -> list vec3
}.

(** Modelled from the spec: the interface of [Geometry] ([Geometry.hh] is
    not part of the sources). *)
Record Geometry : Type := mkGeometry {
  particleInGeometry : Particle -> bool;
  initializeParticle : Particle -> Particle
}.

(** Modelled from the spec: the interface of [StressModel] ([StressModel.hh]
    is not part of the sources): [calculateStress] is handed the particle by
    reference. *)
Record StressModel : Type := mkStressModel {
  calculateStress : Particle -> Particle
}.

(** Modelled from the spec: the interface of [BoundaryCondition]
    ([BoundaryCondition.hh] is not part of the sources).  Both methods take
    the mesh, the face index, the nodal mass (read only) and the nodal
    vector field they may modify. *)
Record BoundaryCondition : Type := mkBoundaryCondition {
  evaluateMomentumCondition :
    Mesh -> Z -> list real -> list vec3 -> list vec3;
  evaluateImpulseCondition :
    Mesh -> Z -> list real -> list vec3 -> list vec3
}.

(** ** The problem manager *)

(** The members of [ProblemManager].  [d_bc b] is the entry [b] of the
    array of six shared pointers, a null pointer being [None]. *)
Record ProblemManager : Type := mkProblemManager {
  d_mesh : Mesh;
  d_has_gravity : bool;
  d_bc : Z -> option BoundaryCondition;
  d_materials : list StressModel;
  d_particles : list Particle
}.

Definition with_particles (pm : ProblemManager) (ps : list Particle)
    : ProblemManager :=
  mkProblemManager (d_mesh pm) (d_has_gravity pm) (d_bc pm) (d_materials pm) ps.

(** The constructor: the mesh is built from the four mesh parameters by
    [make_mesh], the array of boundary conditions holds null pointers. *)
Definition ProblemManager_new (make_mesh : Z -> Z -> Z -> real -> Mesh)
    (mesh_num_cells_x mesh_num_cells_y mesh_num_cells_z : Z)
    (mesh_cell_width : real) (has_gravity : bool) : ProblemManager :=
  mkProblemManager
    (make_mesh mesh_num_cells_x mesh_num_cells_y mesh_num_cells_z
               mesh_cell_width)
    has_gravity (fun _ => None) [] [].


Definition setMaterialModels (pm : ProblemManager)
    (materials : list StressModel) : ProblemManager :=
  mkProblemManager (d_mesh pm) (d_has_gravity pm) (d_bc pm) materials
                   (d_particles pm).

(** [d_bc[b]->method( ... )]: a null pointer is undefined behaviour. *)
Definition bc_at (pm : ProblemManager) (b : Z) : M BoundaryCondition :=
  match d_bc pm b with
  | Some bc => ret bc
  | None => fail UndefinedBehaviour
  end.

(** *** [ProblemManager::initialize] *)

(** The loop over the geometries for the candidate [candidates[p]]: on the
    first geometry that holds it the candidate is initialized in the
    buffer, appended to the particles, and the loop is left. *)
Fixpoint check_geometries (geometry : list Geometry) (p : Z)
    (st : list Particle * list Particle) : M (list Particle * list Particle) :=
  match geometry with
  | [] => ret st
  | g :: geometry' =>
      let (candidates, particles) := st in
      c <- vec_at candidates p ;;
      if particleInGeometry g c then
        candidates' <- vec_modify candidates p (initializeParticle g) ;;
        c' <- vec_at candidates' p ;;
        ret (candidates', particles ++ [c'])
      else check_geometries geometry' p st
  end.

(** The body of the loop over the cells. *)
Definition initialize_cell (mesh : Mesh) (geometry : list Geometry)
    (order ppcell : Z) (c : Z) (st : list Particle * list Particle)
    : M (list Particle * list Particle) :=
  let (candidates, particles) := st in
  let candidates := initializeParticles mesh c order candidates in
  for_each (range ppcell) (check_geometries geometry) (candidates, particles).

Definition initialize (pm : ProblemManager) (geometry : list Geometry)
    (order : Z) : M ProblemManager :=
  let ppcell := particlesPerCell (d_mesh pm) order in
  candidates <- vec_make ppcell default_particle ;;
  let num_cells := totalNumCells (d_mesh pm) in
  st <- for_each (range num_cells)
          (initialize_cell (d_mesh pm) geometry order ppcell)
          (candidates, d_particles pm) ;;
  ret (with_particles pm (snd st)).

(** *** [ProblemManager::locateParticles] *)

Definition locateParticles (pm : ProblemManager) : M ProblemManager :=
  let mesh := d_mesh pm in
  ps <- for_each_mut
          (fun p =>
             let cell_id := locateParticle mesh p in
             let ids := cellNodeIds mesh cell_id in
             let ref_coords := mapPhysicalToReferenceFrame mesh p cell_id in
             ret (with_basis p ids (shapeFunctionValue mesh ref_coords)
                             (shapeFunctionGradient mesh ref_coords)))
          (d_particles pm) ;;
  ret (with_particles pm ps).

(** *** [ProblemManager::calculateNodalMass] *)

Definition calculateNodalMass (pm : ProblemManager) (node_m : list real)
    : M (list real) :=
  let nodes_per_cell := nodesPerCell (d_mesh pm) in
  let node_m := map (fun _ => 0) node_m in
  for_each (d_particles pm)
    (fun p node_m =>
       for_each (range nodes_per_cell)
         (fun n node_m =>
            node_id <- vec_at (node_ids p) n ;;
            b <- vec_at (basis_values p) n ;;
            vec_modify node_m node_id (fun x => x + b * m p))
         node_m)
    node_m.

(** *** [ProblemManager::calculateNodalMomentum] *)

(** The scatter of [m * v * basis], shared by the momentum and the velocity
    kernels, which spell out the same loop nest. *)
Definition scatter_momentum (pm : ProblemManager) (node_p : list vec3)
    : M (list vec3) :=
  let nodes_per_cell := nodesPerCell (d_mesh pm) in
  for_each (d_particles pm)
    (fun p node_p =>
       for_each (range nodes_per_cell)
         (fun n node_p =>
            node_id <- vec_at (node_ids p) n ;;
            for_each dims
              (fun d node_p =>
                 b <- vec_at (basis_values p) n ;;
                 vec_modify node_p node_id
                   (fun mom => set3 mom d (get3 mom d + m p * get3 (v p) d * b)))
              node_p)
         node_p)
    node_p.

(** The part of [calculateNodalMomentum] before its loop over the
    boundary conditions. *)
Definition accumulateNodalMomentum (pm : ProblemManager) (node_p : list vec3)
    : M (list vec3) :=
  let node_p := map (fun _ => fill3 0) node_p in
  scatter_momentum pm node_p.

(** The loop [for b < 6] over the boundary conditions, on a momentum-like
    field. *)
Definition momentumBoundaryConditions (pm : ProblemManager)
    (node_m : list real) (field : list vec3) : M (list vec3) :=
  for_each (range 6)
    (fun b field =>
       bc <- bc_at pm b ;;
       ret (evaluateMomentumCondition bc (d_mesh pm) b node_m field))
    field.

Definition calculateNodalMomentum (pm : ProblemManager) (node_m : list real)
    (node_p : list vec3) : M (list vec3) :=
  node_p <- accumulateNodalMomentum pm node_p ;;
  momentumBoundaryConditions pm node_m node_p.

(** *** [ProblemManager::calculateNodalVelocity] *)

(** The loop that divides the scattered momentum by the nodal mass. *)
Definition divideByNodalMass (pm : ProblemManager) (node_m : list real)
    (node_v : list vec3) : M (list vec3) :=
  let num_nodes := totalNumNodes (d_mesh pm) in
  for_each (range num_nodes)
    (fun n node_v =>
       mass <- vec_at node_m n ;;
       if gt_real mass 0 then
         for_each dims
           (fun d node_v =>
              vel <- vec_at node_v n ;;
              mass <- vec_at node_m n ;;
              q <- divide (get3 vel d) mass ;;
              ret (list_set node_v (Z.to_nat n) (set3 vel d q)))
           node_v
       else
         for_each dims
           (fun d node_v => vec_modify node_v n (fun vel => set3 vel d 0))
           node_v)
    node_v.

(** The part of [calculateNodalVelocity] before its loop over the boundary
    conditions.  The parameters [node_p] and [node_imp] are not read. *)
Definition nodalVelocityBeforeBC (pm : ProblemManager)
    (node_p node_imp : list vec3) (node_m : list real) (node_v : list vec3)
    : M (list vec3) :=
  let node_v := map (fun _ => fill3 0) node_v in
  node_v <- scatter_momentum pm node_v ;;
  divideByNodalMass pm node_m node_v.

Definition calculateNodalVelocity (pm : ProblemManager)
    (node_p node_imp : list vec3) (node_m : list real) (node_v : list vec3)
    : M (list vec3) :=
  node_v <- nodalVelocityBeforeBC pm node_p node_imp node_m node_v ;;
  momentumBoundaryConditions pm node_m node_v.

(** *** [ProblemManager::updateParticleGradients] *)

(** A loop [for d < space_dim] whose body neither fails nor divides. *)
Definition loop3 {S} (body : dim -> S -> S) (s : S) : S :=
  fold_left (fun s d => body d s) dims s.

(** The body of the loop over the particles.  The locals [delta_F] and
    [work] are filled with zeros before they are read. *)
Definition updateParticleGradients_body (nodes_per_cell : Z)
    (node_v : list vec3) (delta_t : real) (p : Particle) : M Particle :=
  (* Reset the deformation gradient increment and velocity gradient. *)
  let gv := loop3 (fun d gv => set3 gv d (fill3 0)) (grad_v p) in
  let delta_F := loop3 (fun d a => set3 a d (fill3 0)) zero33 in
  let work := loop3 (fun d a => set3 a d (fill3 0)) zero33 in
  (* Compute the velocity gradient at the particle. *)
  gv <- for_each (range nodes_per_cell)
          (fun n gv =>
             node_id <- vec_at (node_ids p) n ;;
             for_each dims
               (fun i gv =>
                  for_each dims
                    (fun j gv =>
                       g <- vec_at (basis_gradients p) n ;;
                       vel <- vec_at node_v node_id ;;
                       ret (set33 gv i j
                              (get33 gv i j + get3 g i * get3 vel j)))
                    gv)
               gv)
          gv ;;
  (* Scale the velocity gradient. *)
  let work :=
    loop3 (fun i => loop3 (fun j w => set33 w i j (get33 gv i j * delta_t)))
          work in
  (* Compute the deformation gradient increment. *)
  let delta_F :=
    loop3 (fun i => loop3 (fun j => loop3 (fun k dF =>
             set33 dF i j (get33 dF i j + get33 work i k * get33 (F p) k j))))
          delta_F in
  (* Update the deformation gradient. *)
  let F' :=
    loop3 (fun i => loop3 (fun j f =>
             set33 f i j (get33 f i j + get33 delta_F i j)))
          (F p) in
  (* Add the scaled velocity gradient to the identity. *)
  let work := loop3 (fun i w => set33 w i i (get33 w i i + 1)) work in
  (* Update the particle volume. *)
  ret (with_volume (with_F (with_grad_v p gv) F')
                   (volume p * TensorTools.determinant work)).

Definition updateParticleGradients (pm : ProblemManager)
    (node_v : list vec3) (delta_t : real) : M ProblemManager :=
  let nodes_per_cell := nodesPerCell (d_mesh pm) in
  ps <- for_each_mut
          (updateParticleGradients_body nodes_per_cell node_v delta_t)
          (d_particles pm) ;;
  ret (with_particles pm ps).

(** *** [ProblemManager::updateParticleStressStrain] *)

Definition updateParticleStressStrain (pm : ProblemManager)
    : M ProblemManager :=
  ps <- for_each_mut
          (fun p =>
             material <- vec_at (d_materials pm) (matid p) ;;
             ret (calculateStress material p))
          (d_particles pm) ;;
  ret (with_particles pm ps).

(** *** [ProblemManager::calculateInternalNodalForces] *)

(** [assert( c )], in a build that keeps assertions. *)
Definition assert (c : bool) : M unit :=
  if c then ret tt else fail AssertionFailure.

Definition calculateInternalNodalForces (pm : ProblemManager)
    (node_f_int : list vec3) : M (list vec3) :=
  let nodes_per_cell := nodesPerCell (d_mesh pm) in
  let node_f_int := map (fun _ => fill3 0) node_f_int in
  for_each (d_particles pm)
    (fun p node_f_int =>
       assert ((0 <=? matid p)%Z
               && (matid p <? Z.of_nat (List.length (d_materials pm)))%Z) ;;;
       for_each (range nodes_per_cell)
         (fun n node_f_int =>
            node_id <- vec_at (node_ids p) n ;;
            for_each dims
              (fun i node_f_int =>
                 for_each dims
                   (fun j node_f_int =>
                      g <- vec_at (basis_gradients p) n ;;
                      vec_modify node_f_int node_id
                        (fun f => set3 f i
                           (get3 f i
                            - volume p * get3 g j * get33 (stress p) j i)))
                   node_f_int)
              node_f_int)
         node_f_int)
    node_f_int.

(** *** [ProblemManager::calculateNodalImpulse] *)

(** The literal [9.81]. *)
Definition gravity : real := Q2Qc (981 # 100).

Definition impulseBoundaryConditions (pm : ProblemManager)
    (node_m : list real) (node_imp : list vec3) : M (list vec3) :=
  for_each (range 6)
    (fun b node_imp =>
       bc <- bc_at pm b ;;
       ret (evaluateImpulseCondition bc (d_mesh pm) b node_m node_imp))
    node_imp.

Definition calculateNodalImpulse (pm : ProblemManager)
    (node_f_int : list vec3) (node_m : list real) (delta_t : real)
    (node_imp : list vec3) : M (list vec3) :=
  let num_nodes := totalNumNodes (d_mesh pm) in
  (* Calculate impulse. *)
  node_imp <- for_each (range num_nodes)
                (fun n node_imp =>
                   for_each dims
                     (fun d node_imp =>
                        f <- vec_at node_f_int n ;;
                        vec_modify node_imp n
                          (fun imp => set3 imp d (delta_t * get3 f d)))
                     node_imp)
                node_imp ;;
  (* Add gravity if needed. *)
  node_imp <- (if d_has_gravity pm then
                 for_each (range num_nodes)
                   (fun n node_imp =>
                      mass <- vec_at node_m n ;;
                      vec_modify node_imp n
                        (fun imp =>
                           set3 imp d2 (get3 imp d2 - delta_t * mass * gravity)))
                   node_imp
               else ret node_imp) ;;
  (* Boundary conditions. *)
  impulseBoundaryConditions pm node_m node_imp.

(** *** [ProblemManager::updateParticlePositionAndVelocity] *)

(** The body of the loop over the adjacent nodes of a particle. *)
Definition updateFromNode (node_imp node_p : list vec3) (node_m : list real)
    (delta_t : real) (n : Z) (p : Particle) : M Particle :=
  node_id <- vec_at (node_ids p) n ;;
  mass <- vec_at node_m node_id ;;
  (* Only add a contribution from an adjacent node if it has mass. *)
  if gt_real mass 0 then
    for_each dims
      (fun d p =>
         mom <- vec_at node_p node_id ;;
         imp <- vec_at node_imp node_id ;;
         b <- vec_at (basis_values p) n ;;
         mass <- vec_at node_m node_id ;;
         (* Increment the position. *)
         dr <- divide (delta_t * (get3 mom d + get3 imp d) * b) mass ;;
         let p := with_r p (set3 (r p) d (get3 (r p) d + dr)) in
         (* Increment the velocity. (FLIP Update) *)
         dv <- divide (get3 imp d * b) mass ;;
         ret (with_v p (set3 (v p) d (get3 (v p) d + dv))))
      p
  else ret p.

Definition updateParticlePositionAndVelocity (pm : ProblemManager)
    (node_imp node_p : list vec3) (node_m : list real) (delta_t : real)
    : M ProblemManager :=
  let nodes_per_cell := nodesPerCell (d_mesh pm) in
  ps <- for_each_mut
          (fun p =>
             for_each (range nodes_per_cell)
               (updateFromNode node_imp node_p node_m delta_t) p)
          (d_particles pm) ;;
  ret (with_particles pm ps).

(** *** [ProblemManager::writeTimeStepToFile] *)

(** [std::to_string( i )] on an [int]. *)
Definition to_string (i : Z) : string := NilZero.string_of_int (Z.to_int i).

Definition csv_header : string := "x, y, z, velocity magnitude".

Definition csv_row (p : Particle) : vec3 * real :=
  (r p, get3 (v p) d0 * get3 (v p) d0 + get3 (v p) d1 * get3 (v p) d1
        + get3 (v p) d2 * get3 (v p) d2).

Definition writeTimeStepToFile (pm : ProblemManager) (output_file : string)
    (step : Z) : M unit :=
  let filename := (output_file ++ ".csv." ++ to_string step)%string in
  emit (EvWrite (mkSnapshot filename csv_header (map csv_row (d_particles pm)))).

(** *** [ProblemManager::solve] *)

(** The mesh fields allocated by [solve]. *)
Record NodalFields : Type := mkNodalFields {
  nf_m : list real;
  nf_v : list vec3;
  nf_p : list vec3;
  nf_imp : list vec3;
  nf_f_int : list vec3
}.

(** The nine kernels of one time step, in the order of the source. *)
Definition timestep (time_step_size : real)
    (st : ProblemManager * NodalFields) : M (ProblemManager * NodalFields) :=
  let (pm, nf) := st in
  (* 1) Locate particles and evaluate basis functions. *)
  pm <- locateParticles pm ;;
  (* 2) Calculate the nodal masses. *)
  node_m <- calculateNodalMass pm (nf_m nf) ;;
  (* 3) Calculate nodal momentum. *)
  node_p <- calculateNodalMomentum pm node_m (nf_p nf) ;;
  (* 4) Calculate internal forces. *)
  node_f_int <- calculateInternalNodalForces pm (nf_f_int nf) ;;
  (* 5) Calculate node impulse. *)
  node_imp <- calculateNodalImpulse pm node_f_int node_m time_step_size
                                    (nf_imp nf) ;;
  (* 6) Update the particle position and velocity. *)
  pm <- updateParticlePositionAndVelocity pm node_imp node_p node_m
                                          time_step_size ;;
  (* 7) Calculate nodal velocity. *)
  node_v <- calculateNodalVelocity pm node_p node_imp node_m (nf_v nf) ;;
  (* 8) Update the particle gradients. *)
  pm <- updateParticleGradients pm node_v time_step_size ;;
  (* 9) Update the particle stress and strain. *)
  pm <- updateParticleStressStrain pm ;;
  ret (pm, mkNodalFields node_m node_v node_p node_imp node_f_int).

(** [a % b] on [int]: undefined for a zero divisor. *)
Definition rem_int (a b : Z) : M Z :=
  if (b =? 0)%Z then fail UndefinedBehaviour else ret (Z.rem a b).

(** The locals of [solve] that live across the steps: the particles (in the
    problem manager), the mesh fields and [write_step].  The local [time]
    is only printed and the text printed to [std::cout] is not modelled,
    but for the [%] that guards it. *)
Definition SolveState : Type := (ProblemManager * NodalFields * Z)%type.

(** The body of the loop over the time steps. *)
Definition solve_step (time_step_size : real) (output_file : string)
    (write_frequency : Z) (step : Z) (st : SolveState) : M SolveState :=
  let '(pm, nf, write_step) := st in
  (* Print time step info. *)
  _ <- rem_int (step + 1) write_frequency ;;
  st' <- timestep time_step_size (pm, nf) ;;
  let (pm, nf) := (st' : ProblemManager * NodalFields) in
  (* Write the time step to file. *)
  k <- rem_int (step + 1) write_frequency ;;
  if (k =? 0)%Z then
    let write_step := (write_step + 1)%Z in
    writeTimeStepToFile pm output_file write_step ;;;
    ret (pm, nf, write_step)
  else ret (pm, nf, write_step).

Definition solve (pm : ProblemManager) (num_time_steps : Z)
    (time_step_size : real) (output_file : string) (write_frequency : Z)
    : M ProblemManager :=
  (* Allocate mesh fields. *)
  let num_nodes := totalNumNodes (d_mesh pm) in
  node_m <- vec_make num_nodes 0 ;;
  node_v <- vec_make num_nodes (fill3 0) ;;
  node_p <- vec_make num_nodes (fill3 0) ;;
  node_imp <- vec_make num_nodes (fill3 0) ;;
  node_f_int <- vec_make num_nodes (fill3 0) ;;
  (* Write the initial state. *)
  let write_step := 0%Z in
  writeTimeStepToFile pm output_file write_step ;;;
  (* Time step *)
  st <- for_each (range num_time_steps)
          (solve_step time_step_size output_file write_frequency)
          (pm, mkNodalFields node_m node_v node_p node_imp node_f_int,
           write_step) ;;
  let '(pm, _, write_step) := (st : SolveState) in
  (* Write the end state. *)
  writeTimeStepToFile pm output_file (write_step + 1) ;;;
  ret pm.

(** ** Quantities the properties are stated with *)

(** The sum of a list of reals, in storage order. *)
Definition sum_real (l : list real) : real := fold_right Qcplus 0 l.


(** A particle as [locateParticles] leaves it on a mesh with
    [nodes_per_cell] nodes per cell and [num_nodes] nodes: one node id, one
    basis value and one basis gradient per node of the cell, every node id
    a valid index of a nodal array. *)
Definition located (nodes_per_cell : Z) (num_nodes : nat) (p : Particle)
    : Prop :=
  List.length (node_ids p) = Z.to_nat nodes_per_cell
  /\ List.length (basis_values p) = Z.to_nat nodes_per_cell
  /\ List.length (basis_gradients p) = Z.to_nat nodes_per_cell
  /\ Forall (fun id => (0 <= id < Z.of_nat num_nodes)%Z) (node_ids p).

(** The sum over the nodes of the component [d] of a nodal vector field. *)
Definition sum_component (d : dim) (l : list vec3) : real :=
  sum_real (map (fun a => get3 a d) l).

(** ** A small configuration, for evaluating the kernels

    A bar of two cells of width 1 along [x]: three nodes at [x = 0, 1, 2],
    two nodes per cell, linear shape functions.  It implements the mesh
    interface the way the spec describes it. *)

Definition identity33 : mat3 := mk3 (mk3 1 0 0) (mk3 0 1 0) (mk3 0 0 1).

Fixpoint mapi_from {A B} (f : nat -> A -> B) (k : nat) (l : list A) : list B :=
  match l with
  | [] => []
  | a :: l' => f k a :: mapi_from f (S k) l'
  end.

Definition bar_cell_of (x : real) : Z :=
  Z.max 0 (Z.min 1 (Qfloor (this x))).

Definition bar_mesh : Mesh :=
  mkMesh
    2 3 2
    (fun order => order)
    (fun c order candidates =>
       mapi_from
         (fun k p =>
            with_volume
              (with_r p (mk3 (Q2Qc (inject_Z c)
                              + Q2Qc ((2 * Z.of_nat k + 1) # Z.to_pos (2 * order)))
                             0 0))
              (Q2Qc (1 # Z.to_pos order)))
         0 candidates)
    (fun p => mk3 (bar_cell_of (c0 (r p))) 0%Z 0%Z)
    (fun cell => [c0 cell; (c0 cell + 1)%Z])
    (fun p cell => mk3 (c0 (r p) - Q2Qc (inject_Z (c0 cell))) 0 0)
    (fun ref => [1 - c0 ref; c0 ref])
    (fun ref => [mk3 (- (1)) 0 0; mk3 1 0 0]).

(** A boundary condition that leaves every field as it is. *)
Definition free_bc : BoundaryCondition :=
  mkBoundaryCondition (fun _ _ _ field => field) (fun _ _ _ field => field).

(** A material without stress. *)
Definition no_stress : StressModel :=
  mkStressModel
    (fun p =>
       mkParticle (r p) (v p) (m p) (volume p) (F p) (grad_v p) zero33
                  (strain p) (matid p) (node_ids p) (basis_values p)
                  (basis_gradients p)).

(** A geometry made of a sphere, which stamps a material id, a velocity and
    a density. *)
Definition sphere_geometry (s : Sphere.Sphere) (id : Z) (density : real)
    (velocity : vec3) : Geometry :=
  mkGeometry
    (Sphere.particleInGeometry s)
    (fun p =>
       mkParticle (r p) velocity (density * volume p) (volume p) identity33
                  (grad_v p) (stress p) (strain p) id (node_ids p)
                  (basis_values p) (basis_gradients p)).

(** A particle of mass 1 and volume 1 at rest at [x] on the bar. *)
Definition particle_at (x : real) : Particle :=
  mkParticle (mk3 x 0 0) zero3 1 1 identity33 zero33 zero33 zero33 0%Z [] [] [].

Definition half : real := Q2Qc (1 # 2).

(** The bar with free boundaries, one material without stress and two
    particles, one in each cell. *)
Definition bar_problem (has_gravity : bool) : ProblemManager :=
  mkProblemManager bar_mesh has_gravity (fun _ => Some free_bc) [no_stress]
    [particle_at half; particle_at (1 + half)].

(** The same problem once [locateParticles] has run. *)
Definition bar_located (has_gravity : bool) : ProblemManager :=
  match result (locateParticles (bar_problem has_gravity)) with
  | Ok pm => pm
  | Fail _ => bar_problem has_gravity
  end.

(** One particle at rest on the bar, under gravity. *)
Definition free_fall : ProblemManager :=
  mkProblemManager bar_mesh true (fun _ => Some free_bc) [no_stress]
    [particle_at half].

(** The two particles of the bar, moving along [x] at the velocity 1. *)
Definition rigid_translation : ProblemManager :=
  mkProblemManager bar_mesh false (fun _ => Some free_bc) [no_stress]
    [with_v (particle_at half) (mk3 1 0 0);
     with_v (particle_at (1 + half)) (mk3 1 0 0)].

(** ** Runs of [solve]: files, divisions, time steps *)

(** The files written during a run, in the order they are written. *)
Definition files_written {A} (c : M A) : list Snapshot :=
  flat_map (fun e => match e with EvWrite f => [f] | EvDivide _ => [] end)
           (events c).

(** The divisors of the divisions performed during a run. *)
Definition divisors {A} (c : M A) : list real :=
  flat_map (fun e => match e with EvDivide b => [b] | EvWrite _ => [] end)
           (events c).

(** An event that is a division. *)
Definition is_division (e : Event) : Prop :=
  match e with EvDivide _ => True | EvWrite _ => False end.

(** The file that [writeTimeStepToFile] writes for the snapshot index
    [step]. *)
Definition snapshot (pm : ProblemManager) (output_file : string) (step : Z)
    : Snapshot :=
  mkSnapshot (output_file ++ ".csv." ++ to_string step)%string csv_header
             (map csv_row (d_particles pm)).

(** The mesh fields as [solve] allocates them. *)
Definition initial_fields (pm : ProblemManager) : NodalFields :=
  let n := Z.to_nat (totalNumNodes (d_mesh pm)) in
  mkNodalFields (repeat 0 n) (repeat (fill3 0) n) (repeat (fill3 0) n)
                (repeat (fill3 0) n) (repeat (fill3 0) n).




(** ** The particles [initialize] admits, by the spec *)

(** The first geometry of the list that contains the candidate. *)
Definition first_geometry (geometry : list Geometry) (c : Particle)
    : option Geometry :=
  find (fun g => particleInGeometry g c) geometry.

(** The particle a candidate becomes, by the spec: the candidate initialized
    by the first geometry that contains it, if there is one. *)
Definition admitted (geometry : list Geometry) (c : Particle)
    : option Particle :=
  match first_geometry geometry c with
  | Some g => Some (initializeParticle g c)
  | None => None
  end.

(** The particles admitted from a list of candidates, in the order of the
    candidates. *)
Definition admitted_particles (geometry : list Geometry)
    (candidates : list Particle) : list Particle :=
  flat_map (fun c => match admitted geometry c with
                     | Some q => [q]
                     | None => []
                     end)
           candidates.

(** The buffer of candidates after a cell: an admitted candidate stays
    initialized in the buffer. *)
Definition buffer_after (geometry : list Geometry) (candidates : list Particle)
    : list Particle :=
  map (fun c => match admitted geometry c with Some q => q | None => c end)
      candidates.

(** The buffer of candidates handed to the mesh for the cell [c]. *)
Fixpoint buffer_before_cell (mesh : Mesh) (geometry : list Geometry)
    (order : Z) (c : nat) : list Particle :=
  match c with
  | O => repeat default_particle (Z.to_nat (particlesPerCell mesh order))
  | S c' =>
      buffer_after geometry
        (initializeParticles mesh (Z.of_nat c') order
           (buffer_before_cell mesh geometry order c'))
  end.

(** The candidates of the cell [c], as the mesh seeds them. *)
Definition candidates_of_cell (mesh : Mesh) (geometry : list Geometry)
    (order : Z) (c : nat) : list Particle :=
  initializeParticles mesh (Z.of_nat c) order
    (buffer_before_cell mesh geometry order c).

(** ** The velocity gradient and the deformation, by the spec *)

(** The matrix with the entry [f i j] in row [i] and column [j]. *)
Definition mat_tab (f : dim -> dim -> real) : mat3 :=
  mk3 (mk3 (f d0 d0) (f d0 d1) (f d0 d2))
      (mk3 (f d1 d0) (f d1 d1) (f d1 d2))
      (mk3 (f d2 d0) (f d2 d1) (f d2 d2)).

Definition dim_eqb (i j : dim) : bool :=
  match i, j with
  | d0, d0 | d1, d1 | d2, d2 => true
  | _, _ => false
  end.

(** The velocity gradient of the spec:
    [grad_v[i][j] = sum over k of basis_gradients[k][i] * node_v[node_ids[k]][j]]. *)
Definition velocity_gradient (p : Particle) (node_v : list vec3) : mat3 :=
  mat_tab
    (fun i j =>
       sum_real
         (map (fun idg : Z * vec3 =>
                 get3 (snd idg) i
                 * get3 (nth (Z.to_nat (fst idg)) node_v zero3) j)
              (combine (node_ids p) (basis_gradients p)))).

(** [I + delta_t * grad_v] *)
Definition identity_plus (delta_t : real) (gv : mat3) : mat3 :=
  mat_tab (fun i j => (if dim_eqb i j then 1 else 0) + delta_t * get33 gv i j).

(** [F + (delta_t * grad_v) . F] *)
Definition deformed (delta_t : real) (gv f : mat3) : mat3 :=
  mat_tab
    (fun i j =>
       get33 f i j
       + (delta_t * get33 gv i d0 * get33 f d0 j
          + delta_t * get33 gv i d1 * get33 f d1 j
          + delta_t * get33 gv i d2 * get33 f d2 j)).

(** ** Nodes without mass *)

(** An event that is not a division by a divisor that is not strictly
    positive. *)
Definition positive_division (e : Event) : Prop :=
  match e with EvDivide b => 0 < b | EvWrite _ => True end.

(** Two nodal fields that hold the same values at every node whose mass is
    strictly positive. *)
Definition agree_on_massive {A} (node_m : list real) (f f' : list A) : Prop :=
  forall k mass,
    nth_error node_m k = Some mass -> 0 < mass ->
    nth_error f' k = nth_error f k.

(** What one pass of the loop over [d] of step 6 does to the component [d]
    of the position and of the velocity, for a node of momentum [mom],
    impulse [imp] and mass [mass] and the basis value [b]. *)
Definition flip_update (dt : real) (mom imp : vec3) (b mass : real) (d : dim)
    (p : Particle) : Particle :=
  let p' := with_r p (set3 (r p) d
                        (get3 (r p) d
                         + dt * (get3 mom d + get3 imp d) * b / mass)) in
  with_v p' (set3 (v p') d (get3 (v p') d + get3 imp d * b / mass)).

(** The velocity step 7 gives the node [k] that holds the scattered
    momentum [mom]: the momentum divided by the mass of the node when this
    mass is strictly positive, zero otherwise. *)
Definition nodal_velocity (node_m : list real) (k : nat) (mom : vec3) : vec3 :=
  let mass := nth k node_m 0 in
  if gt_real mass 0 then mk3 (c0 mom / mass) (c1 mom / mass) (c2 mom / mass)
  else zero3.

(** ** A problem at rest *)

(** The nodal vector field that is zero at each of [n] nodes. *)
Definition zero_field (n : nat) : list vec3 := repeat zero3 n.

(** What [locateParticles] does to one particle. *)
Definition locate (mesh : Mesh) (p : Particle) : Particle :=
  let cell_id := locateParticle mesh p in
  let ref_coords := mapPhysicalToReferenceFrame mesh p cell_id in
  with_basis p (cellNodeIds mesh cell_id) (shapeFunctionValue mesh ref_coords)
             (shapeFunctionGradient mesh ref_coords).



(** The contract of a stress model: [calculateStress] writes the stress and
    the strain of the particle and nothing else. *)
Definition writes_stress_only (material : StressModel) : Prop :=
  forall p, exists s e,
    calculateStress material p
    = mkParticle (r p) (v p) (m p) (volume p) (F p) (grad_v p) s e (matid p)
                 (node_ids p) (basis_values p) (basis_gradients p).

(** The material index of the particle is an index of the table. *)
Definition valid_matid (pm : ProblemManager) (p : Particle) : Prop :=
  (0 <= matid p < Z.of_nat (List.length (d_materials pm)))%Z.


(** The mesh fields have one entry per node of the mesh. *)
Definition fields_sized (pm : ProblemManager) (nf : NodalFields) : Prop :=
  let n := Z.to_nat (totalNumNodes (d_mesh pm)) in
  List.length (nf_m nf) = n /\ List.length (nf_v nf) = n
  /\ List.length (nf_p nf) = n /\ List.length (nf_imp nf) = n
  /\ List.length (nf_f_int nf) = n.

(** Two problem managers that differ by their particles only. *)
Definition same_setup (pm pm' : ProblemManager) : Prop :=
  d_mesh pm' = d_mesh pm /\ d_has_gravity pm' = d_has_gravity pm
  /\ d_bc pm' = d_bc pm /\ d_materials pm' = d_materials pm.

(** ** The momentum scattered again in step 7 *)

(** The kernels 1 to 6 of a time step: the particles and the mesh fields as
    they are when step 7 starts ([node_v] is still the one of the previous
    step). *)
Definition steps_1_to_6 (time_step_size : real)
    (st : ProblemManager * NodalFields) : M (ProblemManager * NodalFields) :=
  let (pm, nf) := st in
  pm <- locateParticles pm ;;
  node_m <- calculateNodalMass pm (nf_m nf) ;;
  node_p <- calculateNodalMomentum pm node_m (nf_p nf) ;;
  node_f_int <- calculateInternalNodalForces pm (nf_f_int nf) ;;
  node_imp <- calculateNodalImpulse pm node_f_int node_m time_step_size
                                    (nf_imp nf) ;;
  pm <- updateParticlePositionAndVelocity pm node_imp node_p node_m
                                          time_step_size ;;
  ret (pm, mkNodalFields node_m (nf_v nf) node_p node_imp node_f_int).

(** The kernels 7 to 9 of a time step. *)
Definition steps_7_to_9 (time_step_size : real)
    (st : ProblemManager * NodalFields) : M (ProblemManager * NodalFields) :=
  let (pm, nf) := st in
  node_v <- calculateNodalVelocity pm (nf_p nf) (nf_imp nf) (nf_m nf)
                                   (nf_v nf) ;;
  pm <- updateParticleGradients pm node_v time_step_size ;;
  pm <- updateParticleStressStrain pm ;;
  ret (pm, mkNodalFields (nf_m nf) node_v (nf_p nf) (nf_imp nf) (nf_f_int nf)).




(** ** Invalid configurations *)




(** ** Internal forces and impulses *)

(** What one adjacent node with the basis gradient [g] receives from the
    particle [p] in [calculateInternalNodalForces], with the sign changed:
    [volume * sum over j of g[j] * stress[j][i]]. *)
Definition node_force (p : Particle) (g : vec3) (i : dim) : real :=
  volume p * get3 g d0 * get33 (stress p) d0 i
  + volume p * get3 g d1 * get33 (stress p) d1 i
  + volume p * get3 g d2 * get33 (stress p) d2 i.

(** The same, summed over the adjacent nodes of the particle. *)
Definition particle_net_force (p : Particle) (i : dim) : real :=
  volume p
  * (sum_component d0 (basis_gradients p) * get33 (stress p) d0 i
     + sum_component d1 (basis_gradients p) * get33 (stress p) d1 i
     + sum_component d2 (basis_gradients p) * get33 (stress p) d2 i).

(** The impulse of the node [n] that holds the internal force [f], as
    [calculateNodalImpulse] has it when it reaches the boundary conditions. *)
Definition impulse_before_bc (has_gravity : bool) (delta_t : real)
    (node_m : list real) (n : nat) (f : vec3) : vec3 :=
  mk3 (delta_t * c0 f) (delta_t * c1 f)
      (if has_gravity then delta_t * c2 f - delta_t * nth n node_m 0 * gravity
       else delta_t * c2 f).

(** The bar of [bar_located] without its material. *)
Definition bar_without_material : ProblemManager :=
  setMaterialModels (bar_located false) [].

(** ** The stress update *)

(** What [updateParticleStressStrain] does to one particle whose material id
    is an index of the table [materials]. *)
Definition stressed (materials : list StressModel) (p : Particle) : Particle :=
  match nth_error materials (Z.to_nat (matid p)) with
  | Some material => calculateStress material p
  | None => p
  end.

(** ** What a run keeps *)

(** Two states of a particle with the same mass and the same material. *)
Definition same_identity (p p' : Particle) : Prop :=
  m p' = m p /\ matid p' = matid p.

(** A snapshot with the header of the format and one row per particle of
    [pm]. *)
Definition well_formed_snapshot (pm : ProblemManager) (f : Snapshot) : Prop :=
  file_header f = csv_header
  /\ List.length (file_rows f) = List.length (d_particles pm).

(** What the kernels keep of a problem manager: its mesh, its gravity flag,
    its boundary conditions and its materials; the number of its particles;
    and, with materials that write the stress and the strain only, the mass
    and the material of each particle. *)
Definition run_keeps (pm pm' : ProblemManager) : Prop :=
  same_setup pm pm'
  /\ List.length (d_particles pm') = List.length (d_particles pm)
  /\ (Forall writes_stress_only (d_materials pm) ->
      Forall2 same_identity (d_particles pm) (d_particles pm')).

(** An event that is not the writing of a file without the header or
    without one row per particle of [pm]. *)
Definition writes_well_formed (pm : ProblemManager) (e : Event) : Prop :=
  match e with
  | EvWrite f => well_formed_snapshot pm f
  | EvDivide _ => True
  end.

(** ** The names of the snapshots *)


(** ** The number of particles [initialize] creates *)

(** The contract of [Mesh::initializeParticles]: the buffer of candidates
    keeps the size [initialize] gave it. *)
Definition keeps_buffer_size (mesh : Mesh) (order : Z) : Prop :=
  forall c buffer,
    List.length buffer = Z.to_nat (particlesPerCell mesh order) ->
    List.length (initializeParticles mesh c order buffer)
    = Z.to_nat (particlesPerCell mesh order).

(** ** The momentum of the particles through step 6 *)

(** The sum over the nodes of [w n * s[n]], for the nodes numbered from
    [o]. *)
Definition weighted_sum (w : nat -> real) (o : nat) (s : list real) : real :=
  sum_real (mapi_from (fun n a => w n * a) o s).

(** The sum over the adjacent nodes of a particle of
    [basis_values[k] * w (node_ids[k])]. *)
Definition gathered (w : nat -> real) (p : Particle) : real :=
  sum_real (map (fun idb : Z * real => snd idb * w (Z.to_nat (fst idb)))
                (combine (node_ids p) (basis_values p))).

(** The component [d] of a nodal field, summed over the nodes with a
    strictly positive mass. *)
Definition massive_sum (node_m : list real) (d : dim) (field : list vec3)
    : real :=
  sum_real
    (mapi_from (fun n a => if gt_real (nth n node_m 0) 0 then get3 a d else 0)
               0 field).

(** The weight of a node in the velocity increment of step 6. *)
Definition velocity_weight (node_m : list real) (node_imp : list vec3)
    (d : dim) (n : nat) : real :=
  if gt_real (nth n node_m 0) 0
  then get3 (nth n node_imp zero3) d / nth n node_m 0
  else 0.

(** The weight of a node in the position increment of step 6. *)
Definition position_weight (node_m : list real) (node_p node_imp : list vec3)
    (delta_t : real) (d : dim) (n : nat) : real :=
  if gt_real (nth n node_m 0) 0
  then delta_t * (get3 (nth n node_p zero3) d + get3 (nth n node_imp zero3) d)
       / nth n node_m 0
  else 0.

(** The sum over the nodes of [w n * field[n][d]]. *)
Definition weighted_component (w : nat -> real) (d : dim) (field : list vec3)
    : real :=
  sum_real (mapi_from (fun n a => w n * get3 a d) 0 field).

(** The weight that selects the node [n]. *)
Definition node_weight (n : nat) (k : nat) : real :=
  if Nat.eqb k n then 1 else 0.

(** The two particles of [rigid_translation] once [locateParticles] has
    run. *)
Definition rigid_located : ProblemManager :=
  match result (locateParticles rigid_translation) with
  | Ok pm => pm
  | Fail _ => rigid_translation
  end.

(** ** Divisions during a run *)



(** ** Free fall *)

(** The six boundary conditions are set and leave the impulse as it is. *)
Definition free_impulse_boundaries (pm : ProblemManager) : Prop :=
  forall b, (0 <= b < 6)%Z ->
    exists bc,
      d_bc pm b = Some bc
      /\ forall node_m field,
           evaluateImpulseCondition bc (d_mesh pm) b node_m field = field.

(** The mesh of the bar, without a cell. *)
Definition no_cell_mesh : Mesh :=
  mkMesh 0 0 (nodesPerCell bar_mesh) (particlesPerCell bar_mesh)
         (initializeParticles bar_mesh) (locateParticle bar_mesh)
         (cellNodeIds bar_mesh) (mapPhysicalToReferenceFrame bar_mesh)
         (shapeFunctionValue bar_mesh) (shapeFunctionGradient bar_mesh).

(** * Properties *)

(** ** The monad and its loops *)

Lemma result_bind {A B} (c : M A) (k : A -> M B) :
  result (bind c k)
  = match result c with Ok a => result (k a) | Fail e => Fail e end.
Proof.
  unfold result, bind. destruct c as [t [a|e]]; simpl; auto.
  destruct (k a); auto.
Qed.

Lemma events_bind {A B} (c : M A) (k : A -> M B) :
  events (bind c k)
  = events c ++ match result c with Ok a => events (k a) | Fail _ => [] end.
Proof.
  unfold events, result, bind. destruct c as [t [a|e]]; simpl.
  - destruct (k a); auto.
  - now rewrite app_nil_r.
Qed.

Lemma result_bind_ok {A B} (c : M A) (k : A -> M B) a :
  result c = Ok a -> result (bind c k) = result (k a).
Proof. intros H. now rewrite result_bind, H. Qed.

Lemma result_ret {A} (a : A) : result (ret a) = Ok a.
Proof. reflexivity. Qed.

(** The invariant rule of a loop, for runs that reach the end. *)
Lemma for_each_inv {X S} (I : nat -> S -> Prop) (xs : list X)
    (body : X -> S -> M S) (s : S) :
  I O s ->
  (forall k x s, nth_error xs k = Some x -> I k s ->
     exists s', result (body x s) = Ok s' /\ I (Datatypes.S k) s') ->
  exists s', result (for_each xs body s) = Ok s' /\ I (List.length xs) s'.
Proof.
  revert I s. induction xs as [|x xs IH]; intros I s H0 Hstep.
  - exists s. split; auto.
  - destruct (Hstep O x s eq_refl H0) as [s1 [Hb H1]].
    destruct (IH (fun k => I (Datatypes.S k)) s1 H1) as [s' [Hr HI]].
    + intros k y t Hk Ht. apply (Hstep (Datatypes.S k) y t Hk Ht).
    + exists s'. split; auto. simpl.
      now rewrite (result_bind_ok _ _ _ Hb).
Qed.

Lemma for_each_mut_Forall2 {A} (R : A -> A -> Prop) (body : A -> M A)
    (ps : list A) :
  (forall p, In p ps -> exists p', result (body p) = Ok p' /\ R p p') ->
  exists ps', result (for_each_mut body ps) = Ok ps' /\ Forall2 R ps ps'.
Proof.
  induction ps as [|p ps IH]; intros H.
  - exists []. split; auto.
  - destruct (H p (or_introl eq_refl)) as [p' [Hb HR]].
    destruct IH as [ps' [Hr HF]].
    + intros q Hq. apply H. now right.
    + exists (p' :: ps'). split; [|now constructor].
      simpl. rewrite (result_bind_ok _ _ _ Hb), (result_bind_ok _ _ _ Hr).
      reflexivity.
Qed.

(** Every event of a loop is an event of one of its iterations. *)
Lemma for_each_events {X S} (P : Event -> Prop) (xs : list X)
    (body : X -> S -> M S) (s : S) :
  (forall x s, In x xs -> Forall P (events (body x s))) ->
  Forall P (events (for_each xs body s)).
Proof.
  revert s. induction xs as [|x xs IH]; intros s H; simpl.
  - constructor.
  - rewrite events_bind. apply Forall_app. split.
    + apply H. now left.
    + destruct (result (body x s)); [|constructor].
      apply IH. intros y t Hy. apply H. now right.
Qed.

Lemma for_each_mut_events {A} (P : Event -> Prop) (body : A -> M A)
    (ps : list A) :
  (forall p, In p ps -> Forall P (events (body p))) ->
  Forall P (events (for_each_mut body ps)).
Proof.
  induction ps as [|p ps IH]; intros H; simpl.
  - constructor.
  - rewrite events_bind. apply Forall_app. split.
    + apply H. now left.
    + destruct (result (body p)); [|constructor].
      rewrite events_bind. apply Forall_app. split.
      * apply IH. intros q Hq. apply H. now right.
      * destruct (result (for_each_mut body ps)); constructor.
Qed.

(** ** Vectors and ranges *)

Lemma nth_error_range (n : Z) (k : nat) (x : Z) :
  nth_error (range n) k = Some x -> x = Z.of_nat k /\ (k < Z.to_nat n)%nat.
Proof.
  unfold range. intros H.
  rewrite nth_error_map, nth_error_seq in H.
  destruct (Nat.ltb_spec k (Z.to_nat n)) as [Hk|Hk]; [|discriminate].
  simpl in H. injection H as <-. auto.
Qed.

Lemma length_range (n : Z) : List.length (range n) = Z.to_nat n.
Proof. unfold range. now rewrite length_map, length_seq. Qed.

Lemma In_range (n x : Z) : In x (range n) <-> (0 <= x < n)%Z.
Proof.
  unfold range. rewrite in_map_iff. split.
  - intros [k [<- Hk]]. apply in_seq in Hk. lia.
  - intros H. exists (Z.to_nat x). split; [lia|]. apply in_seq. lia.
Qed.

Lemma vec_at_nth {A} (l : list A) (k : nat) (a : A) :
  nth_error l k = Some a -> vec_at l (Z.of_nat k) = ret a.
Proof.
  intros H. unfold vec_at.
  destruct (Z.leb_spec 0 (Z.of_nat k)); [|lia].
  now rewrite Nat2Z.id, H.
Qed.

Lemma vec_at_in_range {A} (l : list A) (i : Z) :
  (0 <= i < Z.of_nat (List.length l))%Z ->
  exists a, nth_error l (Z.to_nat i) = Some a /\ vec_at l i = ret a.
Proof.
  intros H. destruct (nth_error l (Z.to_nat i)) as [a|] eqn:E.
  - exists a. split; auto. unfold vec_at. rewrite E.
    destruct (Z.leb_spec 0 i); [auto|lia].
  - apply nth_error_None in E. lia.
Qed.

Lemma length_list_set {A} (l : list A) (k : nat) (x : A) :
  List.length (list_set l k x) = List.length l.
Proof.
  revert k. induction l as [|y l IH]; intros [|k]; simpl; auto.
Qed.

Lemma nth_error_list_set_eq {A} (l : list A) (k : nat) (x : A) :
  (k < List.length l)%nat -> nth_error (list_set l k x) k = Some x.
Proof.
  revert k. induction l as [|y l IH]; intros [|k] H; simpl in *; try lia; auto.
  apply IH. lia.
Qed.

Lemma nth_error_list_set_neq {A} (l : list A) (k j : nat) (x : A) :
  j <> k -> nth_error (list_set l k x) j = nth_error l j.
Proof.
  revert k j. induction l as [|y l IH]; intros [|k] [|j] H; simpl; auto;
    try congruence.
Qed.


Lemma gt_real_spec (x y : real) : gt_real x y = true <-> y < x.
Proof.
  unfold gt_real. change (y < x) with ((fun a b : Qc => (b < a)%Q) x y).
  rewrite Qcgt_alt.
  destruct (x ?= y); split; intros H; auto; discriminate.
Qed.

(** ** Sphere *)



(** ** Conservation of mass in the scatter (step 2) *)

Lemma sum_real_list_set (l : list real) (k : nat) (a x : real) :
  nth_error l k = Some a -> sum_real (list_set l k x) = sum_real l - a + x.
Proof.
  revert k. induction l as [|y l IH]; intros [|k] H; simpl in *; try discriminate.
  - injection H as ->. ring.
  - rewrite (IH _ H). ring.
Qed.

Lemma sum_real_firstn_S (l : list real) (k : nat) (b : real) :
  nth_error l k = Some b ->
  sum_real (firstn (S k) l) = sum_real (firstn k l) + b.
Proof.
  revert k. induction l as [|y l IH]; intros [|k] H; simpl in *; try discriminate.
  - injection H as ->. ring.
  - rewrite (IH _ H). ring.
Qed.

Lemma sum_real_zeros {A} (l : list A) : sum_real (map (fun _ => 0) l) = 0.
Proof. induction l; simpl; auto. rewrite IHl. ring. Qed.

Lemma vec_modify_in_range {A} (l : list A) (i : Z) (f : A -> A) :
  (0 <= i < Z.of_nat (List.length l))%Z ->
  exists a, nth_error l (Z.to_nat i) = Some a
            /\ vec_modify l i f = ret (list_set l (Z.to_nat i) (f a)).
Proof.
  intros H. destruct (vec_at_in_range l i H) as [a [Hn Ha]].
  exists a. split; auto. unfold vec_modify. now rewrite Ha.
Qed.

Lemma located_lookup (npc : Z) (num : nat) (p : Particle) (k : nat) :
  located npc num p -> (k < Z.to_nat npc)%nat ->
  exists id b g,
    nth_error (node_ids p) k = Some id
    /\ nth_error (basis_values p) k = Some b
    /\ nth_error (basis_gradients p) k = Some g
    /\ (0 <= id < Z.of_nat num)%Z.
Proof.
  intros (H1 & H2 & H3 & H4) Hk.
  destruct (nth_error (node_ids p) k) as [id|] eqn:E1;
    [|apply nth_error_None in E1; lia].
  destruct (nth_error (basis_values p) k) as [b|] eqn:E2;
    [|apply nth_error_None in E2; lia].
  destruct (nth_error (basis_gradients p) k) as [g|] eqn:E3;
    [|apply nth_error_None in E3; lia].
  exists id, b, g. repeat split; auto;
    apply nth_error_In in E1; rewrite Forall_forall in H4;
    apply (H4 _ E1).
Qed.

Lemma calculateNodalMass_particle (npc : Z) (p : Particle) (node_m : list real) :
  located npc (List.length node_m) p ->
  exists node_m',
    result (for_each (range npc)
         (fun n node_m =>
            node_id <- vec_at (node_ids p) n ;;
            b <- vec_at (basis_values p) n ;;
            vec_modify node_m node_id (fun x => x + b * m p))
         node_m) = Ok node_m'
    /\ List.length node_m' = List.length node_m
    /\ sum_real node_m' = sum_real node_m + m p * sum_real (basis_values p).
Proof.
  intros Hloc.
  pose (I := fun (k : nat) (s : list real) =>
     List.length s = List.length node_m
     /\ sum_real s = sum_real node_m + m p * sum_real (firstn k (basis_values p))).
  destruct (for_each_inv I (range npc)
      (fun n node_m =>
            node_id <- vec_at (node_ids p) n ;;
            b <- vec_at (basis_values p) n ;;
            vec_modify node_m node_id (fun x => x + b * m p)) node_m)
    as [s' [Hr [HL HS]]].
  - split; auto. simpl. ring.
  - intros k x s Hx [HL HS]. apply nth_error_range in Hx. destruct Hx as [-> Hk].
    destruct (located_lookup _ _ _ k Hloc Hk) as (id & b & g & E1 & E2 & E3 & Hid).
    destruct (vec_modify_in_range s id (fun x => x + b * m p)) as [a [Ha Hm]].
    { now rewrite HL. }
    exists (list_set s (Z.to_nat id) (a + b * m p)). split.
    + rewrite (vec_at_nth _ _ _ E1). simpl.
      rewrite (vec_at_nth _ _ _ E2). simpl. rewrite Hm. reflexivity.
    + split.
      * now rewrite length_list_set.
      * rewrite (sum_real_list_set _ _ _ _ Ha), HS, (sum_real_firstn_S _ _ _ E2). ring.
  - exists s'. split; auto. split; auto. rewrite HS.
    rewrite length_range. destruct Hloc as (_ & H2 & _). rewrite <- H2, firstn_all. reflexivity.
Qed.

Lemma sum_map_firstn_S {A} (f : A -> real) (l : list A) (k : nat) (a : A) :
  nth_error l k = Some a ->
  sum_real (map f (firstn (S k) l)) = sum_real (map f (firstn k l)) + f a.
Proof.
  intros H. rewrite <- !firstn_map.
  apply sum_real_firstn_S. now apply map_nth_error.
Qed.

(** C1: right after [calculateNodalMass], the nodal masses sum to the sum of
    the particle masses, when the basis values of every particle sum to 1
    (and the particles are located: their node ids index the nodal array). *)
Theorem mass_conservation (pm : ProblemManager) (node_m : list real) :
  Forall (located (nodesPerCell (d_mesh pm)) (List.length node_m))
         (d_particles pm) ->
  Forall (fun p => sum_real (basis_values p) = 1) (d_particles pm) ->
  exists node_m',
    result (calculateNodalMass pm node_m) = Ok node_m'
    /\ sum_real node_m' = sum_real (map m (d_particles pm)).
Proof.
  intros Hloc Hpu. unfold calculateNodalMass.
  set (body := fun (p : Particle) (node_m0 : list real) => for_each _ _ node_m0).
  pose (I := fun (k : nat) (s : list real) =>
     List.length s = List.length node_m
     /\ sum_real s = sum_real (map m (firstn k (d_particles pm)))).
  destruct (for_each_inv I (d_particles pm) body (map (fun _ => 0) node_m))
    as [s' [Hr [HL HS]]].
  - split. { now rewrite length_map. } simpl. apply sum_real_zeros.
  - intros k p s Hp [HL HS].
    assert (Hin := nth_error_In _ _ Hp).
    rewrite Forall_forall in Hloc, Hpu.
    destruct (calculateNodalMass_particle (nodesPerCell (d_mesh pm)) p s)
      as [s' [Hr [HL' HS']]].
    { rewrite HL. now apply Hloc. }
    exists s'. split; [exact Hr|]. split; [congruence|].
    rewrite HS', HS, (Hpu _ Hin), (sum_map_firstn_S m _ _ _ Hp). ring.
  - exists s'. split; [exact Hr|]. now rewrite HS, firstn_all.
Qed.

(** ** Conservation of momentum in the scatter (step 3) *)

Lemma bind_ret_l {A B} (a : A) (k : A -> M B) : bind (ret a) k = k a.
Proof. unfold bind, ret. now destruct (k a). Qed.


Lemma list_set_list_set {A} (l : list A) (k : nat) (x y : A) :
  list_set (list_set l k x) k y = list_set l k y.
Proof.
  revert k. induction l as [|z l IH]; intros [|k]; simpl; auto.
  now rewrite IH.
Qed.

Lemma map_list_set {A B} (f : A -> B) (l : list A) (k : nat) (x : A) :
  map f (list_set l k x) = list_set (map f l) k (f x).
Proof.
  revert k. induction l as [|z l IH]; intros [|k]; simpl; auto.
  now rewrite IH.
Qed.

Lemma vec_at_set {A} (l : list A) (i : Z) (x : A) :
  (0 <= i < Z.of_nat (List.length l))%Z ->
  vec_at (list_set l (Z.to_nat i) x) i = ret x.
Proof.
  intros H. unfold vec_at. destruct (Z.leb_spec 0 i); [|lia].
  rewrite nth_error_list_set_eq by lia. reflexivity.
Qed.

Lemma vec_modify_set {A} (l : list A) (i : Z) (x : A) (f : A -> A) :
  (0 <= i < Z.of_nat (List.length l))%Z ->
  vec_modify (list_set l (Z.to_nat i) x) i f
  = ret (list_set l (Z.to_nat i) (f x)).
Proof.
  intros H. unfold vec_modify. rewrite vec_at_set by exact H.
  now rewrite bind_ret_l, list_set_list_set.
Qed.

Lemma sum_component_list_set (d : dim) (l : list vec3) (k : nat) (a x : vec3) :
  nth_error l k = Some a ->
  sum_component d (list_set l k x) = sum_component d l - get3 a d + get3 x d.
Proof.
  intros H. unfold sum_component. rewrite map_list_set.
  apply sum_real_list_set. now apply (map_nth_error (fun a => get3 a d)).
Qed.

(** The three iterations of the loop over [d] in the scatter of momentum. *)
Lemma scatter_momentum_dims (p : Particle) (n id : Z) (b : real)
    (node_p : list vec3) (a : vec3) :
  vec_at (basis_values p) n = ret b ->
  (0 <= id < Z.of_nat (List.length node_p))%Z ->
  nth_error node_p (Z.to_nat id) = Some a ->
  for_each dims
    (fun d node_p =>
       b <- vec_at (basis_values p) n ;;
       vec_modify node_p id
         (fun mom => set3 mom d (get3 mom d + m p * get3 (v p) d * b)))
    node_p
  = ret (list_set node_p (Z.to_nat id)
           (mk3 (c0 a + m p * c0 (v p) * b) (c1 a + m p * c1 (v p) * b)
                (c2 a + m p * c2 (v p) * b))).
Proof.
  intros Hb Hid Ha. unfold dims. cbn [for_each].
  rewrite Hb, bind_ret_l.
  destruct (vec_modify_in_range node_p id
    (fun mom => set3 mom d0 (get3 mom d0 + m p * get3 (v p) d0 * b)) Hid)
    as [a' [Ha' ->]].
  assert (a' = a) as -> by congruence.
  rewrite !bind_ret_l.
  rewrite vec_modify_set by exact Hid. rewrite !bind_ret_l.
  rewrite vec_modify_set by exact Hid.
  reflexivity.
Qed.

(** One iteration of the loop over the adjacent nodes in the scatter of
    momentum: the node [node_ids[k]] receives [m * v * basis_values[k]]. *)
Lemma scatter_momentum_node (npc : Z) (p : Particle) (k : nat)
    (node_p : list vec3) :
  located npc (List.length node_p) p -> (k < Z.to_nat npc)%nat ->
  exists id b a,
    nth_error (node_ids p) k = Some id
    /\ nth_error (basis_values p) k = Some b
    /\ nth_error node_p (Z.to_nat id) = Some a
    /\ (node_id <- vec_at (node_ids p) (Z.of_nat k) ;;
        for_each dims
          (fun d node_p =>
             b <- vec_at (basis_values p) (Z.of_nat k) ;;
             vec_modify node_p node_id
               (fun mom => set3 mom d (get3 mom d + m p * get3 (v p) d * b)))
          node_p)
       = ret (list_set node_p (Z.to_nat id)
                (mk3 (c0 a + m p * c0 (v p) * b) (c1 a + m p * c1 (v p) * b)
                     (c2 a + m p * c2 (v p) * b))).
Proof.
  intros Hloc Hk.
  destruct (located_lookup _ _ _ k Hloc Hk) as (id & b & g & E1 & E2 & E3 & Hid).
  destruct (vec_at_in_range node_p id Hid) as [a [Ha _]].
  exists id, b, a. repeat split; auto.
  rewrite (vec_at_nth _ _ _ E1), bind_ret_l.
  apply scatter_momentum_dims; auto. now apply vec_at_nth.
Qed.



Lemma sum_component_zeros {A} (d : dim) (l : list A) :
  sum_component d (map (fun _ => fill3 0) l) = 0.
Proof.
  unfold sum_component. rewrite map_map.
  destruct d; simpl; apply sum_real_zeros.
Qed.


(** *** The conservation properties on the bar *)

Lemma bar_located_located (g : bool) :
  Forall (located (nodesPerCell (d_mesh (bar_located g))) 3)
         (d_particles (bar_located g)).
Proof.
  repeat constructor; cbv; intros; discriminate.
Qed.

Lemma bar_located_unity (g : bool) :
  Forall (fun p => sum_real (basis_values p) = 1) (d_particles (bar_located g)).
Proof.
  repeat constructor; apply Qc_is_canon; reflexivity.
Qed.

Lemma mass_conservation_witness :
  exists node_m',
    result (calculateNodalMass (bar_located true) [0; 0; 0]) = Ok node_m'
    /\ sum_real node_m' = sum_real (map m (d_particles (bar_located true))).
Proof.
  apply (mass_conservation (bar_located true) [0; 0; 0]).
  - apply bar_located_located.
  - apply bar_located_unity.
Defined.


(** ** The snapshots [solve] writes *)

Lemma events_bind_Forall {A B} (P : Event -> Prop) (c : M A) (k : A -> M B) :
  Forall P (events c) -> (forall a, Forall P (events (k a))) ->
  Forall P (events (bind c k)).
Proof.
  intros Hc Hk. rewrite events_bind. apply Forall_app. split; auto.
  destruct (result c); auto.
Qed.

Lemma events_vec_at {A} (P : Event -> Prop) (l : list A) (i : Z) :
  Forall P (events (vec_at l i)).
Proof.
  unfold vec_at. destruct (0 <=? i)%Z; [|constructor].
  destruct (nth_error l (Z.to_nat i)); constructor.
Qed.

Lemma events_vec_modify {A} (P : Event -> Prop) (l : list A) (i : Z)
    (f : A -> A) :
  Forall P (events (vec_modify l i f)).
Proof.
  unfold vec_modify. apply events_bind_Forall.
  - apply events_vec_at.
  - intros a. constructor.
Qed.

Lemma events_divide (a b : real) :
  Forall is_division (events (divide a b)).
Proof.
  unfold divide. apply events_bind_Forall.
  - repeat constructor.
  - intros _. destruct (Qc_eq_bool b 0); constructor.
Qed.

Lemma events_bc_at (P : Event -> Prop) (pm : ProblemManager) (b : Z) :
  Forall P (events (bc_at pm b)).
Proof. unfold bc_at. destruct (d_bc pm b); constructor. Qed.

Lemma events_assert (P : Event -> Prop) (c : bool) :
  Forall P (events (assert c)).
Proof. destruct c; constructor. Qed.

Lemma events_ret {A} (P : Event -> Prop) (a : A) : Forall P (events (ret a)).
Proof. constructor. Qed.

Lemma events_fail {A} (P : Event -> Prop) (e : Error) :
  Forall P (events (@fail A e)).
Proof. constructor. Qed.

(** Decomposes a goal [Forall P (events c)] along the structure of [c]. *)
Ltac events_tac :=
  repeat first
    [ apply events_ret
    | apply events_fail
    | apply events_vec_at
    | apply events_vec_modify
    | apply events_divide
    | apply events_bc_at
    | apply events_assert
    | apply events_bind_Forall; [|intros]
    | apply for_each_events; intros
    | apply for_each_mut_events; intros
    | match goal with
      | |- Forall _ (events (if ?c then _ else _)) => destruct c
      | |- Forall _ (events (let (_, _) := ?x in _)) => destruct x
      | |- Forall _ (events (match ?x with _ => _ end)) => destruct x
      end ].

Lemma events_timestep (dt : real) (st : ProblemManager * NodalFields) :
  Forall is_division (events (timestep dt st)).
Proof.
  unfold timestep. destruct st as [pm nf].
  unfold locateParticles, calculateNodalMass, calculateNodalMomentum,
    accumulateNodalMomentum, scatter_momentum, momentumBoundaryConditions,
    calculateInternalNodalForces, calculateNodalImpulse,
    impulseBoundaryConditions, updateParticlePositionAndVelocity,
    updateFromNode, calculateNodalVelocity, nodalVelocityBeforeBC,
    scatter_momentum, divideByNodalMass, momentumBoundaryConditions,
    updateParticleGradients, updateParticleGradients_body,
    updateParticleStressStrain.
  events_tac.
Qed.
Lemma files_written_bind {A B} (c : M A) (k : A -> M B) :
  files_written (bind c k)
  = files_written c
    ++ match result c with Ok a => files_written (k a) | Fail _ => [] end.
Proof.
  unfold files_written. rewrite events_bind, flat_map_app.
  destruct (result c); reflexivity.
Qed.

Lemma files_written_divisions {A} (c : M A) :
  Forall is_division (events c) -> files_written c = [].
Proof.
  unfold files_written. induction (events c) as [|e l IH]; intros H; auto.
  inversion H; subst. destruct e; simpl in *; [auto|contradiction].
Qed.

Lemma files_written_timestep (dt : real) (st : ProblemManager * NodalFields) :
  files_written (timestep dt st) = [].
Proof. apply files_written_divisions, events_timestep. Qed.

Lemma result_bind_inv {A B} (c : M A) (k : A -> M B) (b : B) :
  result (bind c k) = Ok b ->
  exists a, result c = Ok a /\ result (k a) = Ok b.
Proof.
  rewrite result_bind. destruct (result c) as [a|e]; [|discriminate].
  intros H. now exists a.
Qed.

(** [bind (ret a) k] is [k a], at the outermost place it occurs. *)
Ltac bind_ret :=
  match goal with
  | |- context [bind (ret ?a) ?k] => rewrite (bind_ret_l a k)
  end.
Ltac bind_ret_in H :=
  match type of H with
  | context [bind (ret ?a) ?k] => rewrite (bind_ret_l a k) in H
  end.

(** One iteration of the loop of [solve] that reaches its end. *)
Lemma solve_step_inv (dt : real) (out : string) (W step : Z)
    (pm : ProblemManager) (nf : NodalFields) (ws : Z) (st' : SolveState) :
  result (solve_step dt out W step (pm, nf, ws)) = Ok st' ->
  W <> 0%Z
  /\ exists pm' nf',
       result (timestep dt (pm, nf)) = Ok (pm', nf')
       /\ if (Z.rem (step + 1) W =? 0)%Z then
            st' = (pm', nf', (ws + 1)%Z)
            /\ files_written (solve_step dt out W step (pm, nf, ws))
               = [snapshot pm' out (ws + 1)]
          else
            st' = (pm', nf', ws)
            /\ files_written (solve_step dt out W step (pm, nf, ws)) = [].
Proof.
  unfold solve_step, rem_int.
  destruct (Z.eqb_spec W 0) as [->|HW]; intros H.
  { rewrite result_bind in H. discriminate. }
  split; [exact HW|].
  bind_ret_in H.
  apply result_bind_inv in H. destruct H as [[pm' nf'] [Ht H]].
  exists pm', nf'. split; [exact Ht|]. bind_ret.
  rewrite files_written_bind, files_written_timestep, Ht, app_nil_l.
  cbv beta iota in H |- *. bind_ret_in H. bind_ret.
  destruct (Z.rem (step + 1) W =? 0)%Z.
  - split.
    + unfold writeTimeStepToFile, emit in H. cbn in H. congruence.
    + reflexivity.
  - split; [|reflexivity]. cbn in H. congruence.
Qed.












(** ** [initialize]: first matching geometry *)

Lemma vec_modify_nth {A} (l : list A) (k : nat) (a : A) (f : A -> A) :
  nth_error l k = Some a ->
  vec_modify l (Z.of_nat k) f = ret (list_set l k (f a)).
Proof.
  intros H. unfold vec_modify. rewrite (vec_at_nth _ _ _ H), bind_ret_l.
  now rewrite Nat2Z.id.
Qed.

(** The loop over the geometries, against the spec. *)
Lemma check_geometries_admitted (geometry : list Geometry) (k : nat)
    (candidates particles : list Particle) (c : Particle) :
  nth_error candidates k = Some c ->
  check_geometries geometry (Z.of_nat k) (candidates, particles)
  = ret (match admitted geometry c with
         | Some q => (list_set candidates k q, particles ++ [q])
         | None => (candidates, particles)
         end).
Proof.
  intros Hc. unfold admitted, first_geometry.
  induction geometry as [|g gs IH]; [reflexivity|].
  cbn [check_geometries find].
  rewrite (vec_at_nth _ _ _ Hc), bind_ret_l.
  destruct (particleInGeometry g c); [|exact IH].
  rewrite (vec_modify_nth _ _ _ _ Hc), bind_ret_l.
  rewrite <- (Nat2Z.id k) at 1.
  rewrite vec_at_set, bind_ret_l.
  - reflexivity.
  - assert (k < List.length candidates)%nat
      by (apply nth_error_Some; congruence).
    lia.
Qed.

Lemma list_set_app_r {A} (l1 l2 : list A) (x y : A) :
  list_set (l1 ++ x :: l2) (List.length l1) y = l1 ++ y :: l2.
Proof. induction l1 as [|a l1 IH]; simpl; auto. now rewrite IH. Qed.

(** The loop over the candidates of a cell. *)
Lemma initialize_cell_candidates (geometry : list Geometry)
    (candidates particles : list Particle) :
  result (for_each (range (Z.of_nat (List.length candidates)))
            (check_geometries geometry) (candidates, particles))
  = Ok (buffer_after geometry candidates,
        particles ++ admitted_particles geometry candidates).
Proof.
  pose (I := fun (k : nat) (st : list Particle * list Particle) =>
     st = (buffer_after geometry (firstn k candidates) ++ skipn k candidates,
           particles ++ admitted_particles geometry (firstn k candidates))).
  destruct (for_each_inv I (range (Z.of_nat (List.length candidates)))
              (check_geometries geometry) (candidates, particles))
    as [st' [Hr HI]].
  - unfold I. simpl. now rewrite app_nil_r.
  - intros k x st Hx ->. apply nth_error_range in Hx. destruct Hx as [-> Hk].
    rewrite Nat2Z.id in Hk.
    destruct (nth_error candidates k) as [c|] eqn:Hc;
      [|apply nth_error_None in Hc; lia].
    assert (Hsplit := firstn_skipn_middle _ _ Hc).
    assert (Hlen : List.length (buffer_after geometry (firstn k candidates)) = k).
    { unfold buffer_after. rewrite length_map, length_firstn. lia. }
    assert (Hsk : skipn k candidates = c :: skipn (S k) candidates).
    { rewrite <- Hsplit at 1. rewrite skipn_app, skipn_all2, length_firstn
        by (rewrite length_firstn; lia).
      replace (k - Nat.min k (List.length candidates))%nat with O by lia.
      reflexivity. }
    assert (Hfs : firstn (S k) candidates = firstn k candidates ++ [c]).
    { rewrite <- Hsplit at 1. rewrite firstn_app, length_firstn.
      replace (S k - Nat.min k (List.length candidates))%nat with 1%nat by lia.
      rewrite firstn_firstn. replace (Nat.min (S k) k) with k by lia.
      reflexivity. }
    eexists. split.
    + rewrite (check_geometries_admitted geometry k _ _ c); [reflexivity|].
      rewrite Hsk, nth_error_app2 by lia. rewrite Hlen, Nat.sub_diag.
      reflexivity.
    + unfold I. rewrite Hfs, Hsk.
      assert (Hb : buffer_after geometry (firstn k candidates ++ [c])
                   = buffer_after geometry (firstn k candidates)
                     ++ [match admitted geometry c with
                         | Some q => q | None => c end]).
      { unfold buffer_after. now rewrite map_app. }
      assert (Ha : admitted_particles geometry (firstn k candidates ++ [c])
                   = admitted_particles geometry (firstn k candidates)
                     ++ match admitted geometry c with
                        | Some q => [q] | None => [] end).
      { unfold admitted_particles. rewrite flat_map_app. cbn [flat_map].
        now rewrite app_nil_r. }
      assert (Hset : forall q,
                list_set (buffer_after geometry (firstn k candidates)
                          ++ c :: skipn (S k) candidates) k q
                = buffer_after geometry (firstn k candidates)
                  ++ q :: skipn (S k) candidates).
      { intros q.
        generalize (list_set_app_r
                      (buffer_after geometry (firstn k candidates))
                      (skipn (S k) candidates) c q).
        now rewrite Hlen. }
      rewrite Hb, Ha.
      destruct (admitted geometry c) as [q|].
      * rewrite Hset, <- !app_assoc. reflexivity.
      * rewrite <- !app_assoc, app_nil_r. reflexivity.
  - rewrite length_range, Nat2Z.id in HI. unfold I in HI.
    rewrite firstn_all, skipn_all, app_nil_r in HI. now rewrite Hr, HI.
Qed.
Lemma length_buffer_after (geometry : list Geometry) (l : list Particle) :
  List.length (buffer_after geometry l) = List.length l.
Proof. unfold buffer_after. apply length_map. Qed.

Lemma admitted_first (geometry : list Geometry) (c q : Particle) :
  admitted geometry c = Some q ->
  exists pre g post,
    geometry = pre ++ g :: post
    /\ Forall (fun g' => particleInGeometry g' c = false) pre
    /\ particleInGeometry g c = true
    /\ q = initializeParticle g c.
Proof.
  unfold admitted, first_geometry.
  induction geometry as [|g gs IH]; cbn [find]; [discriminate|].
  destruct (particleInGeometry g c) eqn:E.
  - intros H. injection H as <-. exists [], g, gs. repeat split; auto.
  - intros H. destruct (IH H) as (pre & g' & post & -> & Hpre & Hg & Hq).
    exists (g :: pre), g', post. repeat split; auto.
Qed.

Lemma admitted_none (geometry : list Geometry) (c : Particle) :
  admitted geometry c = None
  <-> Forall (fun g => particleInGeometry g c = false) geometry.
Proof.
  unfold admitted, first_geometry.
  induction geometry as [|g gs IH]; cbn [find].
  - split; auto.
  - destruct (particleInGeometry g c) eqn:E.
    + split; [discriminate|]. intros H. inversion H; congruence.
    + rewrite IH. split; intros H.
      * now constructor.
      * now inversion H.
Qed.

(** C6: [initialize] appends, cell after cell in the order of the cell
    index and, within a cell, in the order of the candidate index, the
    candidates that some geometry contains, each initialized by the first
    geometry of the list that contains it; a candidate that no geometry
    contains is left out.  With two geometries that both contain a candidate
    the particle is the one the earlier geometry stamps. *)
Theorem initialize_first_match (pm : ProblemManager)
    (geometry : list Geometry) (order : Z) :
  let mesh := d_mesh pm in
  (0 <= particlesPerCell mesh order)%Z ->
  (forall c buffer,
     List.length buffer = Z.to_nat (particlesPerCell mesh order) ->
     List.length (initializeParticles mesh c order buffer)
     = Z.to_nat (particlesPerCell mesh order)) ->
  (exists pm',
     result (initialize pm geometry order) = Ok pm'
     /\ d_particles pm'
        = d_particles pm
          ++ flat_map
               (fun c => admitted_particles geometry
                           (candidates_of_cell mesh geometry order c))
               (seq 0 (Z.to_nat (totalNumCells mesh)))
     /\ d_mesh pm' = d_mesh pm /\ d_has_gravity pm' = d_has_gravity pm
     /\ d_bc pm' = d_bc pm /\ d_materials pm' = d_materials pm)
  /\ (forall c : Particle,
        (admitted geometry c = None
         <-> Forall (fun g => particleInGeometry g c = false) geometry)
        /\ (forall q, admitted geometry c = Some q ->
              exists pre g post,
                geometry = pre ++ g :: post
                /\ Forall (fun g' => particleInGeometry g' c = false) pre
                /\ particleInGeometry g c = true
                /\ q = initializeParticle g c))
  /\ (forall g1 g2 rest c,
        geometry = g1 :: g2 :: rest ->
        particleInGeometry g1 c = true -> particleInGeometry g2 c = true ->
        admitted geometry c = Some (initializeParticle g1 c)).
Proof.
  intros mesh Hpp Hmesh. split; [|split].
  - unfold initialize. fold mesh.
    unfold vec_make. destruct (Z.ltb_spec (particlesPerCell mesh order) 0);
      [lia|]. bind_ret.
    pose (I := fun (c : nat) (st : list Particle * list Particle) =>
       st = (buffer_before_cell mesh geometry order c,
             d_particles pm
             ++ flat_map
                  (fun c => admitted_particles geometry
                              (candidates_of_cell mesh geometry order c))
                  (seq 0 c))).
    assert (Hlen : forall c,
              List.length (buffer_before_cell mesh geometry order c)
              = Z.to_nat (particlesPerCell mesh order)).
    { induction c as [|c IH]; cbn [buffer_before_cell].
      - apply repeat_length.
      - rewrite length_buffer_after. now apply Hmesh. }
    destruct (for_each_inv I (range (totalNumCells mesh))
                (initialize_cell mesh geometry order
                   (particlesPerCell mesh order))
                (repeat default_particle
                        (Z.to_nat (particlesPerCell mesh order)),
                 d_particles pm)) as [st' [Hr HI]].
    + unfold I. cbn [buffer_before_cell seq flat_map].
      now rewrite app_nil_r.
    + intros k x st Hx ->. apply nth_error_range in Hx. destruct Hx as [-> Hk].
      eexists. split.
      * unfold initialize_cell.
        fold (candidates_of_cell mesh geometry order k).
        assert (E : particlesPerCell mesh order
                    = Z.of_nat (List.length
                                  (candidates_of_cell mesh geometry order k))).
        { unfold candidates_of_cell. rewrite Hmesh by apply Hlen. lia. }
        rewrite E at 1. apply initialize_cell_candidates.
      * unfold I. cbn [buffer_before_cell].
        fold (candidates_of_cell mesh geometry order k).
        rewrite seq_S, flat_map_app. cbn [flat_map Nat.add].
        now rewrite app_nil_r, app_assoc.
    + rewrite length_range in HI. unfold I in HI. subst st'.
      eexists. split.
      * rewrite (result_bind_ok _ _ _ Hr). reflexivity.
      * cbn. auto.
  - intros c. split; [apply admitted_none|apply admitted_first].
  - intros g1 g2 rest c -> H1 _. unfold admitted, first_geometry.
    cbn [find]. now rewrite H1.
Qed.
Lemma length_mapi_from {A B} (f : nat -> A -> B) (k : nat) (l : list A) :
  List.length (mapi_from f k l) = List.length l.
Proof.
  revert k. induction l as [|a l IH]; intros k; simpl; auto.
Qed.

Lemma initialize_first_match_witness :
  exists pm',
    result (initialize (with_particles (bar_problem false) [])
              [sphere_geometry (Sphere.mkSphere (mk3 1 0 0) half) 7 1 zero3;
               sphere_geometry (Sphere.mkSphere (mk3 1 0 0) 1) 9 1 zero3]
              2) = Ok pm'
    /\ map matid (d_particles pm') = [9; 7; 7; 9]%Z.
Proof.
  destruct (proj1 (initialize_first_match
                     (with_particles (bar_problem false) [])
                     [sphere_geometry (Sphere.mkSphere (mk3 1 0 0) half) 7 1 zero3;
                      sphere_geometry (Sphere.mkSphere (mk3 1 0 0) 1) 9 1 zero3]
                     2 ltac:(simpl; lia)
                     ltac:(intros c buffer H; simpl;
                           now rewrite length_mapi_from)))
    as [pm' (Hr & Hp & _)].
  exists pm'. split; [exact Hr|]. rewrite Hp. vm_compute. reflexivity.
Defined.

(** ** [updateParticleGradients]: volume and determinant *)

Lemma mat_tab_ext (f g : dim -> dim -> real) :
  (forall i j, f i j = g i j) -> mat_tab f = mat_tab g.
Proof. intros H. unfold mat_tab. now rewrite !H. Qed.

Lemma mat_tab_get (a : mat3) : mat_tab (get33 a) = a.
Proof. destruct a as [[a00 a01 a02] [a10 a11 a12] [a20 a21 a22]]. reflexivity. Qed.

(** The nine iterations over [i] and [j] for one adjacent node. *)
Lemma velocity_gradient_node (p : Particle) (n id : Z) (node_v : list vec3)
    (g vel : vec3) (gv : mat3) :
  vec_at (basis_gradients p) n = ret g ->
  vec_at node_v id = ret vel ->
  for_each dims
    (fun i gv =>
       for_each dims
         (fun j gv =>
            g <- vec_at (basis_gradients p) n ;;
            vel <- vec_at node_v id ;;
            ret (set33 gv i j (get33 gv i j + get3 g i * get3 vel j)))
         gv)
    gv
  = ret (mat_tab (fun i j => get33 gv i j + get3 g i * get3 vel j)).
Proof.
  intros Hg Hv. unfold dims. cbn [for_each].
  repeat (rewrite ?Hg, ?Hv; bind_ret).
  destruct gv as [[g00 g01 g02] [g10 g11 g12] [g20 g21 g22]]. reflexivity.
Qed.
Lemma nth_error_combine {A B} (l1 : list A) (l2 : list B) (k : nat)
    (a : A) (b : B) :
  nth_error l1 k = Some a -> nth_error l2 k = Some b ->
  nth_error (combine l1 l2) k = Some (a, b).
Proof.
  revert l2 k. induction l1 as [|x l1 IH]; intros [|y l2] [|k] H1 H2;
    simpl in *; try discriminate.
  - congruence.
  - now apply IH.
Qed.

(** The loop over the adjacent nodes computes the velocity gradient of the
    spec. *)
Lemma velocity_gradient_loop (npc : Z) (p : Particle) (node_v : list vec3) :
  located npc (List.length node_v) p ->
  result
    (for_each (range npc)
       (fun n gv =>
          node_id <- vec_at (node_ids p) n ;;
          for_each dims
            (fun i gv =>
               for_each dims
                 (fun j gv =>
                    g <- vec_at (basis_gradients p) n ;;
                    vel <- vec_at node_v node_id ;;
                    ret (set33 gv i j (get33 gv i j + get3 g i * get3 vel j)))
                 gv)
            gv)
       zero33)
  = Ok (velocity_gradient p node_v).
Proof.
  intros Hloc.
  pose (contribution := fun (i j : dim) (idg : Z * vec3) =>
          get3 (snd idg) i * get3 (nth (Z.to_nat (fst idg)) node_v zero3) j).
  pose (I := fun (k : nat) (gv : mat3) =>
     gv = mat_tab (fun i j =>
            sum_real (map (contribution i j)
                          (firstn k (combine (node_ids p) (basis_gradients p)))))).
  match goal with |- result (for_each _ ?body _) = _ =>
    destruct (for_each_inv I (range npc) body zero33) as [gv [Hr HI]]
  end.
  - reflexivity.
  - intros k x gv Hx ->. apply nth_error_range in Hx. destruct Hx as [-> Hk].
    destruct (located_lookup _ _ _ k Hloc Hk)
      as (id & b & g & E1 & E2 & E3 & Hid).
    destruct (vec_at_in_range node_v id Hid) as [vel [Hvel Hat]].
    eexists. split.
    + rewrite (vec_at_nth _ _ _ E1), bind_ret_l.
      rewrite (velocity_gradient_node p _ id node_v g vel);
        [reflexivity| now apply vec_at_nth | exact Hat].
    + unfold I. apply mat_tab_ext. intros i j.
      rewrite (sum_map_firstn_S (contribution i j) _ _ _
                 (nth_error_combine _ _ _ _ _ E1 E3)).
      unfold contribution at 3. cbn [fst snd].
      rewrite (nth_error_nth _ _ zero3 Hvel).
      destruct i, j; reflexivity.
  - rewrite Hr, HI. f_equal. unfold velocity_gradient.
    apply mat_tab_ext. intros i j. rewrite length_range.
    rewrite firstn_all2; [reflexivity|].
    rewrite length_combine. destruct Hloc as (H1 & _ & H3 & _). lia.
Qed.

(** One iteration of the loop over the particles in
    [updateParticleGradients]. *)
Lemma updateParticleGradients_body_spec (npc : Z) (node_v : list vec3)
    (dt : real) (p : Particle) :
  located npc (List.length node_v) p ->
  result (updateParticleGradients_body npc node_v dt p)
  = Ok (with_volume
          (with_F (with_grad_v p (velocity_gradient p node_v))
                  (deformed dt (velocity_gradient p node_v) (F p)))
          (volume p
           * TensorTools.determinant
               (identity_plus dt (velocity_gradient p node_v)))).
Proof.
  intros Hloc. unfold updateParticleGradients_body.
  rewrite (result_bind_ok _ _ _ (velocity_gradient_loop npc p node_v Hloc)).
  generalize (velocity_gradient p node_v). intros gv.
  cbn [result ret snd]. f_equal. unfold with_volume, with_F, with_grad_v.
  cbn [r v m volume F grad_v stress strain matid node_ids basis_values
       basis_gradients].
  f_equal.
  - f_equal. f_equal.
    destruct gv as [[g00 g01 g02] [g10 g11 g12] [g20 g21 g22]].
    unfold identity_plus, mat_tab, loop3, dims, get33, set33, fill3, zero33.
    cbn [fold_left get3 set3 c0 c1 c2 dim_eqb].
    f_equal; f_equal; ring.
  - destruct gv as [[g00 g01 g02] [g10 g11 g12] [g20 g21 g22]].
    destruct (F p) as [[f00 f01 f02] [f10 f11 f12] [f20 f21 f22]].
    unfold deformed, mat_tab, loop3, dims, get33, set33, fill3, zero33.
    cbn [fold_left get3 set3 c0 c1 c2].
    f_equal; f_equal; ring.
Qed.
(** C4: [updateParticleGradients] returns on located particles, and for
    every particle the velocity gradient it stores is the one of the spec
    and the new volume is the old volume times [det (I + delta_t * grad_v)];
    the ratio of the two volumes is that determinant when the old volume is
    not zero. *)
Theorem volume_determinant_consistency (pm : ProblemManager)
    (node_v : list vec3) (delta_t : real) :
  Forall (located (nodesPerCell (d_mesh pm)) (List.length node_v))
         (d_particles pm) ->
  exists pm',
    result (updateParticleGradients pm node_v delta_t) = Ok pm'
    /\ Forall2
         (fun p p' =>
            grad_v p' = velocity_gradient p node_v
            /\ volume p'
               = volume p
                 * TensorTools.determinant (identity_plus delta_t (grad_v p'))
            /\ (volume p <> 0 ->
                volume p' / volume p
                = TensorTools.determinant (identity_plus delta_t (grad_v p'))))
         (d_particles pm) (d_particles pm').
Proof.
  intros Hloc. unfold updateParticleGradients.
  match goal with |- exists _, result (bind (for_each_mut ?body _) _) = _ /\ _ =>
    destruct (for_each_mut_Forall2
                (fun p p' =>
                   grad_v p' = velocity_gradient p node_v
                   /\ volume p'
                      = volume p
                        * TensorTools.determinant
                            (identity_plus delta_t (grad_v p'))
                   /\ (volume p <> 0 ->
                       volume p' / volume p
                       = TensorTools.determinant
                           (identity_plus delta_t (grad_v p'))))
                body (d_particles pm)) as [ps' [Hr HF]]
  end.
  - intros p Hp. rewrite Forall_forall in Hloc.
    eexists. split.
    + apply updateParticleGradients_body_spec. now apply Hloc.
    + cbn [grad_v volume with_volume with_F with_grad_v].
      split; [reflexivity|]. split; [reflexivity|].
      intros Hv. field. exact Hv.
  - exists (with_particles pm ps'). split.
    + now rewrite (result_bind_ok _ _ _ Hr).
    + exact HF.
Qed.

Lemma volume_determinant_consistency_witness :
  exists pm',
    result (updateParticleGradients (bar_located false)
              [zero3; mk3 1 0 0; mk3 (Q2Qc 2) 0 0] half) = Ok pm'
    /\ Forall2
         (fun p p' =>
            grad_v p' = velocity_gradient p [zero3; mk3 1 0 0; mk3 (Q2Qc 2) 0 0]
            /\ volume p'
               = volume p
                 * TensorTools.determinant (identity_plus half (grad_v p'))
            /\ (volume p <> 0 ->
                volume p' / volume p
                = TensorTools.determinant (identity_plus half (grad_v p'))))
         (d_particles (bar_located false)) (d_particles pm').
Proof.
  exact (volume_determinant_consistency (bar_located false)
           [zero3; mk3 1 0 0; mk3 (Q2Qc 2) 0 0] half
           (bar_located_located false)).
Defined.

(** ** The guard on the nodal mass (steps 6 and 7) *)

Lemma events_bind_Forall_ok {A B} (P : Event -> Prop) (c : M A)
    (k : A -> M B) :
  Forall P (events c) ->
  (forall a, result c = Ok a -> Forall P (events (k a))) ->
  Forall P (events (bind c k)).
Proof.
  intros Hc Hk. rewrite events_bind. apply Forall_app. split; auto.
  destruct (result c) eqn:E; auto.
Qed.

Lemma vec_at_ok_inv {A} (l : list A) (i : Z) (a : A) :
  result (vec_at l i) = Ok a ->
  (0 <= i)%Z /\ nth_error l (Z.to_nat i) = Some a.
Proof.
  unfold vec_at. destruct (Z.leb_spec 0 i); [|discriminate].
  destruct (nth_error l (Z.to_nat i)); [|discriminate].
  intros E. injection E as <-. auto.
Qed.

Lemma events_divide_positive (a b : real) :
  0 < b -> Forall positive_division (events (divide a b)).
Proof.
  intros Hb. unfold divide. apply events_bind_Forall.
  - repeat constructor. exact Hb.
  - intros _. destruct (Qc_eq_bool b 0); constructor.
Qed.

(** Step 6 divides by the mass of a node only under the guard. *)
Lemma events_updateFromNode (node_imp node_p : list vec3)
    (node_m : list real) (dt : real) (n : Z) (p : Particle) :
  Forall positive_division
         (events (updateFromNode node_imp node_p node_m dt n p)).
Proof.
  unfold updateFromNode.
  apply events_bind_Forall; [apply events_vec_at|]. intros id.
  apply events_bind_Forall_ok; [apply events_vec_at|]. intros mass Hmass.
  destruct (gt_real mass 0) eqn:G; [|apply events_ret].
  apply gt_real_spec in G.
  apply for_each_events. intros d q _.
  apply events_bind_Forall; [apply events_vec_at|]. intros mom.
  apply events_bind_Forall; [apply events_vec_at|]. intros imp.
  apply events_bind_Forall; [apply events_vec_at|]. intros b.
  apply events_bind_Forall_ok; [apply events_vec_at|]. intros mass' Hmass'.
  assert (mass' = mass) as -> by congruence.
  apply events_bind_Forall; [now apply events_divide_positive|]. intros dr.
  apply events_bind_Forall; [now apply events_divide_positive|]. intros dv.
  apply events_ret.
Qed.

Lemma events_updateParticlePositionAndVelocity (pm : ProblemManager)
    (node_imp node_p : list vec3) (node_m : list real) (dt : real) :
  Forall positive_division
    (events (updateParticlePositionAndVelocity pm node_imp node_p node_m dt)).
Proof.
  unfold updateParticlePositionAndVelocity.
  apply events_bind_Forall; [|intros; apply events_ret].
  apply for_each_mut_events. intros p _.
  apply for_each_events. intros n q _. apply events_updateFromNode.
Qed.

(** Step 7 divides by the mass of a node only under the guard. *)
Lemma events_nodalVelocityBeforeBC (pm : ProblemManager)
    (node_p node_imp : list vec3) (node_m : list real) (node_v : list vec3) :
  Forall positive_division
    (events (nodalVelocityBeforeBC pm node_p node_imp node_m node_v)).
Proof.
  unfold nodalVelocityBeforeBC.
  apply events_bind_Forall.
  { unfold scatter_momentum. events_tac. }
  intros s. unfold divideByNodalMass.
  apply for_each_events. intros n t _.
  apply events_bind_Forall_ok; [apply events_vec_at|]. intros mass Hmass.
  destruct (gt_real mass 0) eqn:G.
  - apply gt_real_spec in G. apply for_each_events. intros d u _.
    apply events_bind_Forall; [apply events_vec_at|]. intros vel.
    apply events_bind_Forall_ok; [apply events_vec_at|]. intros mass' Hmass'.
    assert (mass' = mass) as -> by congruence.
    apply events_bind_Forall; [now apply events_divide_positive|]. intros q.
    apply events_ret.
  - events_tac.
Qed.

Lemma divisors_positive {A} (c : M A) :
  Forall positive_division (events c) -> Forall (fun b => 0 < b) (divisors c).
Proof.
  unfold divisors. induction (events c) as [|e l IH]; intros H; simpl.
  - constructor.
  - inversion H; subst. destruct e; simpl; auto.
Qed.
Lemma bind_fail {A B} (e : Error) (k : A -> M B) : bind (fail e) k = fail e.
Proof. reflexivity. Qed.

Lemma vec_at_cases {A} (l : list A) (i : Z) :
  (exists a, vec_at l i = ret a
             /\ (0 <= i)%Z /\ nth_error l (Z.to_nat i) = Some a)
  \/ vec_at l i = fail UndefinedBehaviour.
Proof.
  unfold vec_at. destruct (Z.leb_spec 0 i); [|now right].
  destruct (nth_error l (Z.to_nat i)) as [a|]; [|now right].
  left. now exists a.
Qed.

Lemma vec_at_ext {A} (l l' : list A) (i : Z) :
  nth_error l' (Z.to_nat i) = nth_error l (Z.to_nat i) ->
  vec_at l' i = vec_at l i.
Proof. unfold vec_at. now intros ->. Qed.

Lemma for_each_ext {X S} (xs : list X) (body body' : X -> S -> M S) (s : S) :
  (forall x s, body x s = body' x s) ->
  for_each xs body s = for_each xs body' s.
Proof.
  intros H. revert s. induction xs as [|x xs IH]; intros s; simpl; auto.
  rewrite H. unfold bind. destruct (body' x s) as [t [a|e]]; auto.
  now rewrite IH.
Qed.

Lemma for_each_mut_ext {A} (body body' : A -> M A) (ps : list A) :
  (forall p, body p = body' p) ->
  for_each_mut body ps = for_each_mut body' ps.
Proof.
  intros H. induction ps as [|p ps IH]; simpl; auto.
  now rewrite H, IH.
Qed.

(** Step 6 does not read the momentum and the impulse of a node that has no
    mass. *)
Lemma updateFromNode_agree (node_imp node_imp' node_p node_p' : list vec3)
    (node_m : list real) (dt : real) (n : Z) (p : Particle) :
  agree_on_massive node_m node_imp node_imp' ->
  agree_on_massive node_m node_p node_p' ->
  updateFromNode node_imp' node_p' node_m dt n p
  = updateFromNode node_imp node_p node_m dt n p.
Proof.
  intros Himp Hp. unfold updateFromNode.
  destruct (vec_at_cases (node_ids p) n) as [(id & -> & _)| ->];
    [|reflexivity].
  rewrite !bind_ret_l.
  destruct (vec_at_cases node_m id) as [(mass & -> & Hid & Hmass)| ->];
    [|reflexivity].
  rewrite !bind_ret_l.
  destruct (gt_real mass 0) eqn:G; [|reflexivity].
  apply gt_real_spec in G.
  apply for_each_ext. intros d q.
  rewrite (vec_at_ext node_p node_p' id (Hp _ _ Hmass G)).
  rewrite (vec_at_ext node_imp node_imp' id (Himp _ _ Hmass G)).
  reflexivity.
Qed.

Lemma updateParticlePositionAndVelocity_agree (pm : ProblemManager)
    (node_imp node_imp' node_p node_p' : list vec3) (node_m : list real)
    (dt : real) :
  agree_on_massive node_m node_imp node_imp' ->
  agree_on_massive node_m node_p node_p' ->
  updateParticlePositionAndVelocity pm node_imp' node_p' node_m dt
  = updateParticlePositionAndVelocity pm node_imp node_p node_m dt.
Proof.
  intros Himp Hp. unfold updateParticlePositionAndVelocity.
  f_equal. apply for_each_mut_ext. intros p.
  apply for_each_ext. intros n q. now apply updateFromNode_agree.
Qed.
Lemma result_divide (a b : real) : b <> 0 -> result (divide a b) = Ok (a / b).
Proof.
  intros Hb. unfold divide, emit.
  destruct (Qc_eq_bool b 0) eqn:E.
  - apply Qc_eq_bool_correct in E. contradiction.
  - reflexivity.
Qed.

Lemma Qclt_not_zero (b : real) : 0 < b -> b <> 0.
Proof. intros H E. subst b. exact (Qclt_not_eq _ _ H eq_refl). Qed.

(** The body of the loop over the adjacent nodes in step 6, on a located
    particle. *)
Lemma updateFromNode_result (node_imp node_p : list vec3) (node_m : list real)
    (dt : real) (k : nat) (p : Particle) (id : Z) (b mass : real)
    (mom imp : vec3) :
  nth_error (node_ids p) k = Some id ->
  nth_error (basis_values p) k = Some b ->
  vec_at node_m id = ret mass ->
  vec_at node_p id = ret mom ->
  vec_at node_imp id = ret imp ->
  result (updateFromNode node_imp node_p node_m dt (Z.of_nat k) p)
  = Ok (if gt_real mass 0 then
          flip_update dt mom imp b mass d2
            (flip_update dt mom imp b mass d1
               (flip_update dt mom imp b mass d0 p))
        else p).
Proof.
  intros Hid Hb Hm Hp Hi. unfold updateFromNode.
  rewrite (vec_at_nth _ _ _ Hid), bind_ret_l.
  etransitivity; [apply result_bind_ok; rewrite Hm; reflexivity|]. cbv beta.
  destruct (gt_real mass 0) eqn:G; [|reflexivity].
  apply gt_real_spec, Qclt_not_zero in G.
  assert (Hbody : forall d q,
    basis_values q = basis_values p ->
    result
      (mom <- vec_at node_p id ;;
       imp <- vec_at node_imp id ;;
       b <- vec_at (basis_values q) (Z.of_nat k) ;;
       mass <- vec_at node_m id ;;
       dr <- divide (dt * (get3 mom d + get3 imp d) * b) mass ;;
       (let q0 := with_r q (set3 (r q) d (get3 (r q) d + dr)) in
        dv <- divide (get3 imp d * b) mass ;;
        ret (with_v q0 (set3 (v q0) d (get3 (v q0) d + dv)))))
    = Ok (flip_update dt mom imp b mass d q)).
  { intros d q Hq. rewrite Hp, bind_ret_l, Hi, bind_ret_l, Hq.
    rewrite (vec_at_nth _ _ _ Hb), bind_ret_l, Hm, bind_ret_l.
    rewrite (result_bind_ok _ _ _ (result_divide _ _ G)).
    cbv zeta.
    rewrite (result_bind_ok _ _ _ (result_divide _ _ G)).
    reflexivity. }
  unfold dims. cbn [for_each].
  etransitivity; [apply result_bind_ok, (Hbody d0 p eq_refl)|]. cbv beta.
  etransitivity;
    [apply result_bind_ok,
       (Hbody d1 (flip_update dt mom imp b mass d0 p) eq_refl)|]. cbv beta.
  etransitivity;
    [apply result_bind_ok,
       (Hbody d2 (flip_update dt mom imp b mass d1
                    (flip_update dt mom imp b mass d0 p)) eq_refl)|].
  reflexivity.
Qed.

Lemma flip_update_frame (dt : real) (mom imp : vec3) (b mass : real) (d : dim)
    (p : Particle) :
  node_ids (flip_update dt mom imp b mass d p) = node_ids p
  /\ basis_values (flip_update dt mom imp b mass d p) = basis_values p
  /\ basis_gradients (flip_update dt mom imp b mass d p) = basis_gradients p
  /\ F (flip_update dt mom imp b mass d p) = F p
  /\ stress (flip_update dt mom imp b mass d p) = stress p
  /\ matid (flip_update dt mom imp b mass d p) = matid p
  /\ m (flip_update dt mom imp b mass d p) = m p
  /\ volume (flip_update dt mom imp b mass d p) = volume p.
Proof. repeat split. Qed.

(** Step 6 on one particle: the loop over the adjacent nodes returns, and
    leaves the node ids and the basis of the particle alone. *)
Lemma updateParticle_total (npc : Z) (node_imp node_p : list vec3)
    (node_m : list real) (dt : real) (p : Particle) :
  located npc (List.length node_m) p ->
  List.length node_p = List.length node_m ->
  List.length node_imp = List.length node_m ->
  exists p',
    result (for_each (range npc)
              (updateFromNode node_imp node_p node_m dt) p) = Ok p'
    /\ node_ids p' = node_ids p /\ basis_values p' = basis_values p
    /\ basis_gradients p' = basis_gradients p /\ m p' = m p.
Proof.
  intros Hloc Hlp Hli.
  pose (I := fun (_ : nat) (q : Particle) =>
     node_ids q = node_ids p /\ basis_values q = basis_values p
     /\ basis_gradients q = basis_gradients p /\ m q = m p).
  destruct (for_each_inv I (range npc)
              (updateFromNode node_imp node_p node_m dt) p)
    as [p' [Hr HI]].
  - repeat split.
  - intros k x q Hx (Q1 & Q2 & Q3 & Q4). apply nth_error_range in Hx.
    destruct Hx as [-> Hk].
    destruct (located_lookup _ _ _ k Hloc Hk)
      as (id & b & g & E1 & E2 & E3 & Hid).
    rewrite <- Q1 in E1. rewrite <- Q2 in E2.
    destruct (vec_at_in_range node_m id Hid) as [mass [_ Hm]].
    destruct (vec_at_in_range node_p id ltac:(lia)) as [mom [_ Hp]].
    destruct (vec_at_in_range node_imp id ltac:(lia)) as [imp [_ Hi]].
    eexists. split.
    + apply (updateFromNode_result _ _ _ dt k q id b mass mom imp); auto.
    + unfold I. destruct (gt_real mass 0); auto.
  - exists p'. split; auto.
Qed.

Lemma updateParticlePositionAndVelocity_total (pm : ProblemManager)
    (node_imp node_p : list vec3) (node_m : list real) (dt : real) :
  Forall (located (nodesPerCell (d_mesh pm)) (List.length node_m))
         (d_particles pm) ->
  List.length node_p = List.length node_m ->
  List.length node_imp = List.length node_m ->
  exists pm',
    result (updateParticlePositionAndVelocity pm node_imp node_p node_m dt)
    = Ok pm'
    /\ Forall2 (fun p p' => node_ids p' = node_ids p
                            /\ basis_values p' = basis_values p
                            /\ basis_gradients p' = basis_gradients p
                            /\ m p' = m p)
               (d_particles pm) (d_particles pm')
    /\ d_mesh pm' = d_mesh pm.
Proof.
  intros Hloc Hlp Hli. unfold updateParticlePositionAndVelocity.
  match goal with |- exists _, result (bind (for_each_mut ?body _) _) = _ /\ _ =>
    destruct (for_each_mut_Forall2
                (fun p p' => node_ids p' = node_ids p
                             /\ basis_values p' = basis_values p
                             /\ basis_gradients p' = basis_gradients p
                             /\ m p' = m p)
                body (d_particles pm)) as [ps' [Hr HF]]
  end.
  - intros p Hp. rewrite Forall_forall in Hloc.
    apply updateParticle_total; auto.
  - exists (with_particles pm ps'). split; [|split; [exact HF|reflexivity]].
    now rewrite (result_bind_ok _ _ _ Hr).
Qed.
Lemma mapi_from_app {A B} (g : nat -> A -> B) (j : nat) (l1 l2 : list A) :
  mapi_from g j (l1 ++ l2)
  = mapi_from g j l1 ++ mapi_from g (j + List.length l1) l2.
Proof.
  revert j. induction l1 as [|a l1 IH]; intros j; simpl.
  - now rewrite Nat.add_0_r.
  - rewrite IH. do 3 f_equal. lia.
Qed.

Lemma nth_error_mapi_from {A B} (g : nat -> A -> B) (j k : nat) (l : list A) :
  nth_error (mapi_from g j l) k = option_map (g (j + k)%nat) (nth_error l k).
Proof.
  revert j k. induction l as [|a l IH]; intros j [|k]; simpl; auto.
  - now rewrite Nat.add_0_r.
  - rewrite IH. now replace (S j + k)%nat with (j + S k)%nat by lia.
Qed.

Lemma firstn_S_nth {A} (l : list A) (k : nat) (a : A) :
  nth_error l k = Some a -> firstn (S k) l = firstn k l ++ [a].
Proof.
  revert k. induction l as [|x l IH]; intros [|k] H; simpl in *;
    try discriminate.
  - congruence.
  - now rewrite (IH _ H).
Qed.

Lemma skipn_nth {A} (l : list A) (k : nat) (a : A) :
  nth_error l k = Some a -> skipn k l = a :: skipn (S k) l.
Proof.
  revert k. induction l as [|x l IH]; intros [|k] H; simpl in *;
    try discriminate.
  - congruence.
  - now apply IH.
Qed.

(** A loop [for n < l.size()] whose iteration [n] replaces [l[n]] by
    [g n l[n]] and reads no other element it has written. *)
Lemma for_each_range_pointwise {A} (g : nat -> A -> A)
    (body : Z -> list A -> M (list A)) (l : list A) :
  (forall k s a,
     List.length s = List.length l ->
     nth_error l k = Some a -> nth_error s k = Some a ->
     result (body (Z.of_nat k) s) = Ok (list_set s k (g k a))) ->
  result (for_each (range (Z.of_nat (List.length l))) body l)
  = Ok (mapi_from g 0 l).
Proof.
  intros Hbody.
  pose (I := fun (k : nat) (s : list A) =>
     s = mapi_from g 0 (firstn k l) ++ skipn k l).
  destruct (for_each_inv I (range (Z.of_nat (List.length l))) body l)
    as [s' [Hr HI]].
  - reflexivity.
  - intros k x s Hx ->. apply nth_error_range in Hx. destruct Hx as [-> Hk].
    rewrite Nat2Z.id in Hk.
    destruct (nth_error l k) as [a|] eqn:Ha;
      [|apply nth_error_None in Ha; lia].
    assert (Hlen : List.length (mapi_from g 0 (firstn k l)) = k).
    { rewrite length_mapi_from, length_firstn. lia. }
    eexists. split.
    + apply (Hbody k _ a); auto.
      * rewrite length_app, Hlen, length_skipn. lia.
      * rewrite nth_error_app2 by lia.
        rewrite Hlen, Nat.sub_diag, (skipn_nth _ _ _ Ha). reflexivity.
    + unfold I. rewrite (firstn_S_nth _ _ _ Ha), mapi_from_app.
      rewrite length_firstn. replace (0 + Nat.min k (List.length l))%nat with k
        by lia.
      cbn [mapi_from]. rewrite (skipn_nth _ _ _ Ha).
      generalize (list_set_app_r (mapi_from g 0 (firstn k l))
                    (skipn (S k) l) a (g k a)).
      rewrite Hlen. intros ->. now rewrite <- app_assoc.
  - rewrite length_range, Nat2Z.id in HI. unfold I in HI.
    rewrite firstn_all, skipn_all, app_nil_r in HI. now rewrite Hr, HI.
Qed.
Lemma vec_at_set_nat {A} (l : list A) (k : nat) (x : A) :
  (k < List.length l)%nat -> vec_at (list_set l k x) (Z.of_nat k) = ret x.
Proof.
  intros H. apply vec_at_nth. now apply nth_error_list_set_eq.
Qed.

(** The loop of step 7 that divides by the nodal mass. *)
Lemma divideByNodalMass_result (pm : ProblemManager) (node_m : list real)
    (node_v : list vec3) :
  totalNumNodes (d_mesh pm) = Z.of_nat (List.length node_v) ->
  List.length node_m = List.length node_v ->
  result (divideByNodalMass pm node_m node_v)
  = Ok (mapi_from (nodal_velocity node_m) 0 node_v).
Proof.
  intros Hn Hm. unfold divideByNodalMass. rewrite Hn.
  apply for_each_range_pointwise. intros k s a Hs Hl Ha.
  assert (Hk : (k < List.length s)%nat) by (apply nth_error_Some; congruence).
  destruct (nth_error node_m k) as [mass|] eqn:Hmass;
    [|apply nth_error_None in Hmass; lia].
  unfold nodal_velocity. rewrite (nth_error_nth _ _ 0 Hmass).
  etransitivity;
    [apply result_bind_ok; rewrite (vec_at_nth _ _ _ Hmass); reflexivity|].
  cbv beta.
  destruct (gt_real mass 0) eqn:G.
  - apply gt_real_spec, Qclt_not_zero in G.
    assert (Hbody : forall d t b,
      (k < List.length t)%nat -> nth_error t k = Some b ->
      result
        (vel <- vec_at t (Z.of_nat k) ;;
         mass <- vec_at node_m (Z.of_nat k) ;;
         q <- divide (get3 vel d) mass ;;
         ret (list_set t (Z.to_nat (Z.of_nat k)) (set3 vel d q)))
      = Ok (list_set t k (set3 b d (get3 b d / mass)))).
    { intros d t b Ht Hb.
      rewrite (vec_at_nth _ _ _ Hb), bind_ret_l.
      rewrite (vec_at_nth _ _ _ Hmass), bind_ret_l.
      rewrite (result_bind_ok _ _ _ (result_divide _ _ G)).
      now rewrite Nat2Z.id. }
    set (a1 := set3 a d0 (get3 a d0 / mass)).
    set (a2 := set3 a1 d1 (get3 a1 d1 / mass)).
    assert (Hk1 : (k < List.length (list_set s k a1))%nat)
      by now rewrite length_list_set.
    assert (Hk2 : (k < List.length (list_set (list_set s k a1) k a2))%nat)
      by now rewrite !length_list_set.
    unfold dims. cbn [for_each].
    etransitivity; [apply result_bind_ok, (Hbody d0 s a Hk Ha)|]. cbv beta.
    etransitivity;
      [apply result_bind_ok,
         (Hbody d1 (list_set s k a1) a1 Hk1
                (nth_error_list_set_eq _ _ _ Hk))|]. cbv beta.
    etransitivity;
      [apply result_bind_ok,
         (Hbody d2 (list_set (list_set s k a1) k a2) a2 Hk2
                (nth_error_list_set_eq _ _ _ Hk1))|].
    cbn [result ret snd]. now rewrite !list_set_list_set.
  - set (a1 := set3 a d0 0).
    set (a2 := set3 a1 d1 0).
    assert (Hk1 : (k < List.length (list_set s k a1))%nat)
      by now rewrite length_list_set.
    unfold dims. cbn [for_each].
    rewrite (vec_modify_nth _ _ _ _ Ha), bind_ret_l.
    rewrite (vec_modify_nth (list_set s k a1) k a1 _
               (nth_error_list_set_eq _ _ _ Hk)), bind_ret_l.
    rewrite (vec_modify_nth (list_set (list_set s k a1) k a2) k a2 _
               (nth_error_list_set_eq _ _ _ Hk1)), bind_ret_l.
    cbn [result ret snd]. now rewrite !list_set_list_set.
Qed.

(** The scatter of momentum returns on located particles and keeps the
    size of the nodal array. *)
Lemma scatter_momentum_total (pm : ProblemManager) (node_p : list vec3) :
  Forall (located (nodesPerCell (d_mesh pm)) (List.length node_p))
         (d_particles pm) ->
  exists node_p',
    result (scatter_momentum pm node_p) = Ok node_p'
    /\ List.length node_p' = List.length node_p.
Proof.
  intros Hloc. unfold scatter_momentum.
  pose (I := fun (_ : nat) (s : list vec3) =>
                List.length s = List.length node_p).
  match goal with |- exists _, result (for_each _ ?body _) = _ /\ _ =>
    destruct (for_each_inv I (d_particles pm) body node_p) as [s' [Hr HL]]
  end.
  - reflexivity.
  - intros k p s Hp HL. rewrite Forall_forall in Hloc.
    assert (Hlp := Hloc _ (nth_error_In _ _ Hp)). rewrite <- HL in Hlp.
    match goal with |- exists _, result (for_each _ ?body _) = _ /\ _ =>
      destruct (for_each_inv (fun _ t => List.length t = List.length s)
                  (range (nodesPerCell (d_mesh pm))) body s)
        as [s' [Hr HL']]
    end.
    + reflexivity.
    + intros j x t Hx Ht. apply nth_error_range in Hx. destruct Hx as [-> Hj].
      rewrite <- Ht in Hlp.
      destruct (scatter_momentum_node _ p j t Hlp Hj)
        as (id & b & a & _ & _ & _ & ->).
      eexists. split; [reflexivity|]. now rewrite length_list_set.
    + exists s'. split; [exact Hr|]. unfold I. congruence.
  - exists s'. split; auto.
Qed.
(** C3: in step 6 the pass of the loop over the adjacent nodes for a node
    whose mass is not strictly positive leaves the particle as it is, and
    the position and the velocity of the particles do not depend on the
    momentum and the impulse of such a node; step 7 leaves the velocity of
    such a node at exactly zero before its boundary conditions are applied;
    both kernels return, and every division they perform has a strictly
    positive divisor. *)
Theorem zero_mass_guard (pm : ProblemManager)
    (node_imp node_p : list vec3) (node_m : list real) (node_v : list vec3)
    (delta_t : real) :
  Forall (located (nodesPerCell (d_mesh pm)) (List.length node_m))
         (d_particles pm) ->
  List.length node_p = List.length node_m ->
  List.length node_imp = List.length node_m ->
  List.length node_v = List.length node_m ->
  totalNumNodes (d_mesh pm) = Z.of_nat (List.length node_m) ->
  (exists pm',
     result (updateParticlePositionAndVelocity pm node_imp node_p node_m
                                               delta_t) = Ok pm')
  /\ Forall (fun b => 0 < b)
       (divisors (updateParticlePositionAndVelocity pm node_imp node_p node_m
                                                    delta_t))
  /\ (forall p k id mass,
        nth_error (node_ids p) k = Some id ->
        (0 <= id)%Z -> nth_error node_m (Z.to_nat id) = Some mass ->
        ~ 0 < mass ->
        updateFromNode node_imp node_p node_m delta_t (Z.of_nat k) p = ret p)
  /\ (forall node_imp' node_p',
        agree_on_massive node_m node_imp node_imp' ->
        agree_on_massive node_m node_p node_p' ->
        updateParticlePositionAndVelocity pm node_imp' node_p' node_m delta_t
        = updateParticlePositionAndVelocity pm node_imp node_p node_m delta_t)
  /\ (exists node_v',
        result (nodalVelocityBeforeBC pm node_p node_imp node_m node_v)
        = Ok node_v'
        /\ List.length node_v' = List.length node_m
        /\ forall n mass,
             nth_error node_m n = Some mass -> ~ 0 < mass ->
             nth_error node_v' n = Some zero3)
  /\ Forall (fun b => 0 < b)
       (divisors (nodalVelocityBeforeBC pm node_p node_imp node_m node_v))
  /\ calculateNodalVelocity pm node_p node_imp node_m node_v
     = (node_v' <- nodalVelocityBeforeBC pm node_p node_imp node_m node_v ;;
        momentumBoundaryConditions pm node_m node_v').
Proof.
  intros Hloc Hlp Hli Hlv Hn. repeat split.
  - destruct (updateParticlePositionAndVelocity_total pm node_imp node_p
                node_m delta_t Hloc Hlp Hli) as [pm' [Hr _]].
    now exists pm'.
  - apply divisors_positive, events_updateParticlePositionAndVelocity.
  - intros p k id mass Hid Hpos Hmass Hm. unfold updateFromNode.
    rewrite (vec_at_nth _ _ _ Hid), bind_ret_l.
    rewrite <- (Z2Nat.id id) by exact Hpos.
    rewrite (vec_at_nth _ _ _ Hmass), bind_ret_l.
    destruct (gt_real mass 0) eqn:G; [|reflexivity].
    apply gt_real_spec in G. contradiction.
  - intros node_imp' node_p'.
    apply updateParticlePositionAndVelocity_agree.
  - unfold nodalVelocityBeforeBC.
    destruct (scatter_momentum_total pm (map (fun _ => fill3 0) node_v))
      as [s [Hs HL]].
    { now rewrite length_map, Hlv. }
    rewrite length_map in HL.
    exists (mapi_from (nodal_velocity node_m) 0 s). split; [|split].
    + rewrite (result_bind_ok _ _ _ Hs).
      apply divideByNodalMass_result; congruence.
    + rewrite length_mapi_from. congruence.
    + intros n mass Hmass Hpos.
      rewrite nth_error_mapi_from. cbn [Nat.add].
      destruct (nth_error s n) as [mom|] eqn:E.
      * cbn [option_map]. unfold nodal_velocity.
        rewrite (nth_error_nth _ _ 0 Hmass).
        destruct (gt_real mass 0) eqn:G; [|reflexivity].
        apply gt_real_spec in G. contradiction.
      * apply nth_error_None in E.
        assert (n < List.length node_m)%nat
          by (apply nth_error_Some; congruence).
        lia.
  - apply divisors_positive, events_nodalVelocityBeforeBC.
Qed.

Lemma bar_located_lookup :
  Forall (located (nodesPerCell (d_mesh (bar_located true)))
                  (List.length [0; 0; 1]))
         (d_particles (bar_located true)).
Proof. apply bar_located_located. Qed.

Lemma zero_mass_guard_witness :
  Forall (fun b => 0 < b)
    (divisors (updateParticlePositionAndVelocity (bar_located true)
                 [zero3; zero3; zero3] [zero3; zero3; zero3] [0; 0; 1] half)).
Proof.
  exact (proj1 (proj2
           (zero_mass_guard (bar_located true)
              [zero3; zero3; zero3] [zero3; zero3; zero3] [0; 0; 1]
              [zero3; zero3; zero3] half
              bar_located_lookup eq_refl eq_refl eq_refl eq_refl))).
Defined.

(** ** Identity at rest *)


Lemma length_zero_field (n : nat) : List.length (zero_field n) = n.
Proof. apply repeat_length. Qed.

Lemma nth_error_zero_field (n k : nat) (a : vec3) :
  nth_error (zero_field n) k = Some a -> a = zero3.
Proof.
  intros H. apply nth_error_In in H. now apply repeat_spec in H.
Qed.


(** A loop whose iterations all return and keep an invariant. *)
Lemma for_each_keep {X S} (I : S -> Prop) (xs : list X)
    (body : X -> S -> M S) (s : S) :
  I s ->
  (forall x s, In x xs -> I s -> exists s', result (body x s) = Ok s' /\ I s') ->
  exists s', result (for_each xs body s) = Ok s' /\ I s'.
Proof.
  intros H0 Hstep.
  destruct (for_each_inv (fun _ => I) xs body s H0) as [s' [Hr HI]].
  - intros k x t Hx Ht. apply Hstep; auto. now apply nth_error_In in Hx.
  - now exists s'.
Qed.

(** A loop whose iterations all return the state they are given. *)
Lemma for_each_fixed {X S} (xs : list X) (body : X -> S -> M S) (s : S) :
  (forall x, In x xs -> result (body x s) = Ok s) ->
  result (for_each xs body s) = Ok s.
Proof.
  intros H.
  destruct (for_each_keep (fun t => t = s) xs body s eq_refl)
    as [s' [Hr ->]]; auto.
  intros x t Hx ->. exists s. auto.
Qed.

Lemma calculateNodalMass_total (pm : ProblemManager) (node_m : list real) :
  Forall (located (nodesPerCell (d_mesh pm)) (List.length node_m))
         (d_particles pm) ->
  exists node_m',
    result (calculateNodalMass pm node_m) = Ok node_m'
    /\ List.length node_m' = List.length node_m.
Proof.
  intros Hloc. unfold calculateNodalMass.
  match goal with |- exists _, result (for_each _ ?body ?s0) = _ /\ _ =>
    destruct (for_each_keep
                (fun s => List.length s = List.length node_m)
                (d_particles pm) body s0) as [s' [Hr HL]]
  end.
  - now rewrite length_map.
  - intros p s Hp HL. rewrite Forall_forall in Hloc.
    destruct (calculateNodalMass_particle (nodesPerCell (d_mesh pm)) p s)
      as [s' [Hr [HL' _]]].
    { rewrite HL. now apply Hloc. }
    exists s'. split; [exact Hr|congruence].
  - now exists s'.
Qed.











Lemma deformed_zero (dt : real) (f : mat3) : deformed dt zero33 f = f.
Proof.
  destruct f as [[f00 f01 f02] [f10 f11 f12] [f20 f21 f22]].
  unfold deformed, mat_tab, get33, zero33, zero3, fill3.
  cbn [get3 c0 c1 c2]. f_equal; f_equal; ring.
Qed.


Lemma for_each_mut_ret {A} (f : A -> A) (ps : list A) :
  for_each_mut (fun p => ret (f p)) ps = ret (map f ps).
Proof.
  induction ps as [|p ps IH]; [reflexivity|].
  cbn [for_each_mut map]. now rewrite bind_ret_l, IH, bind_ret_l.
Qed.

Lemma locateParticles_result (pm : ProblemManager) :
  locateParticles pm
  = ret (with_particles pm (map (locate (d_mesh pm)) (d_particles pm))).
Proof.
  unfold locateParticles.
  change (ps <- for_each_mut (fun p => ret (locate (d_mesh pm) p))
                             (d_particles pm) ;;
          ret (with_particles pm ps)
          = ret (with_particles pm
                   (map (locate (d_mesh pm)) (d_particles pm)))).
  now rewrite for_each_mut_ret, bind_ret_l.
Qed.


Lemma Forall2_trans_rel {A} (R : A -> A -> Prop) (l1 l2 l3 : list A) :
  (forall a b c, R a b -> R b c -> R a c) ->
  Forall2 R l1 l2 -> Forall2 R l2 l3 -> Forall2 R l1 l3.
Proof.
  intros HR H12. revert l3.
  induction H12 as [|x y xs ys Hxy H IH]; intros l3 H23.
  - inversion H23. constructor.
  - inversion H23; subst. constructor; eauto.
Qed.

Lemma Forall2_weaken {A B} (R R' : A -> B -> Prop) (l : list A) (l' : list B) :
  (forall a b, R a b -> R' a b) -> Forall2 R l l' -> Forall2 R' l l'.
Proof. intros H HF. induction HF; constructor; auto. Qed.









(** ** Step 7 against the momentum of step 3 *)

Lemma bind_assoc {A B C} (c : M A) (k : A -> M B) (h : B -> M C) :
  bind (bind c k) h = bind c (fun a => bind (k a) h).
Proof.
  destruct c as [t [a|e]]; [|reflexivity]. unfold bind at 2 3.
  destruct (k a) as [t' [b|e']]; cbn [bind].
  - destruct (h b) as [t'' r'']. now rewrite app_assoc.
  - reflexivity.
Qed.

Lemma bind_ext {A B} (c : M A) (k k' : A -> M B) :
  (forall a, k a = k' a) -> bind c k = bind c k'.
Proof.
  intros H. destruct c as [t [a|e]]; [|reflexivity].
  unfold bind. now rewrite H.
Qed.

(** A time step is its kernels 1 to 6 followed by its kernels 7 to 9. *)
Lemma timestep_split (dt : real) (st : ProblemManager * NodalFields) :
  timestep dt st = (st6 <- steps_1_to_6 dt st ;; steps_7_to_9 dt st6).
Proof.
  destruct st as [pm nf]. unfold timestep, steps_1_to_6.
  repeat (rewrite bind_assoc; apply bind_ext; intros ?).
  now rewrite bind_ret_l.
Qed.




(** ** What [solve] does with an invalid configuration *)








(** ** Two scenarios of the spec, run on the bar *)

(** Free fall: after 10 steps of size 0.01 the velocity is [-0.981] and the
    particle has dropped by [0.053955]. *)
Example free_fall_ten_steps :
  exists pm,
    result (solve free_fall 10 (Q2Qc (1 # 100)) "out" 5) = Ok pm
    /\ map (fun p => c2 (v p)) (d_particles pm) = [Q2Qc (-981 # 1000)]
    /\ map (fun p => c2 (r p)) (d_particles pm) = [Q2Qc (-53955 # 1000000)].
Proof.
  destruct (result (solve free_fall 10 (Q2Qc (1 # 100)) "out" 5))
    as [pm|e] eqn:E; vm_compute in E; [|discriminate E].
  exists pm. split; [reflexivity|]. injection E as <-.
  split; cbn [map d_particles]; f_equal; apply Qc_is_canon; reflexivity.
Qed.

(** Rigid translation: after 3 steps of size 0.1 every particle has advanced
    by 0.3, with its deformation gradient and its volume unchanged. *)
Example rigid_translation_three_steps :
  exists pm,
    result (solve rigid_translation 3 (Q2Qc (1 # 10)) "out" 1) = Ok pm
    /\ map (fun p => c0 (r p)) (d_particles pm)
       = [Q2Qc (8 # 10); Q2Qc (18 # 10)]
    /\ map F (d_particles pm) = [identity33; identity33]
    /\ map volume (d_particles pm) = [1; 1].
Proof.
  destruct (result (solve rigid_translation 3 (Q2Qc (1 # 10)) "out" 1))
    as [pm|e] eqn:E; vm_compute in E; [|discriminate E].
  exists pm. split; [reflexivity|]. injection E as <-.
  split; [|split]; cbn [map d_particles];
    repeat (f_equal; try (apply Qc_is_canon; reflexivity)).
Qed.

(** * Further properties of the kernels *)

(** ** Internal forces *)

(** The nine updates of one adjacent node. *)
Lemma internal_force_dims (p : Particle) (n id : Z) (g : vec3)
    (node_f : list vec3) (a : vec3) :
  vec_at (basis_gradients p) n = ret g ->
  (0 <= id < Z.of_nat (List.length node_f))%Z ->
  nth_error node_f (Z.to_nat id) = Some a ->
  exists a',
    for_each dims
      (fun i node_f_int =>
         for_each dims
           (fun j node_f_int =>
              g <- vec_at (basis_gradients p) n ;;
              vec_modify node_f_int id
                (fun f => set3 f i
                   (get3 f i - volume p * get3 g j * get33 (stress p) j i)))
           node_f_int)
      node_f
    = ret (list_set node_f (Z.to_nat id) a')
    /\ forall i, get3 a' i = get3 a i - node_force p g i.
Proof.
  intros Hg Hid Ha. unfold dims. cbn [for_each].
  rewrite Hg, bind_ret_l.
  match goal with |- context [vec_modify node_f id ?f] =>
    destruct (vec_modify_in_range node_f id f Hid) as [a0 [Ha0 ->]]
  end.
  assert (a0 = a) as -> by congruence.
  rewrite !bind_ret_l.
  repeat (rewrite vec_modify_set by exact Hid; rewrite !bind_ret_l).
  eexists. split; [reflexivity|].
  intros [| |]; unfold node_force; simpl; ring.
Qed.

Lemma internal_force_particle_sum (npc : Z) (p : Particle)
    (node_f : list vec3) :
  located npc (List.length node_f) p ->
  exists node_f',
    result (for_each (range npc)
         (fun n node_f_int =>
            node_id <- vec_at (node_ids p) n ;;
            for_each dims
              (fun i node_f_int =>
                 for_each dims
                   (fun j node_f_int =>
                      g <- vec_at (basis_gradients p) n ;;
                      vec_modify node_f_int node_id
                        (fun f => set3 f i
                           (get3 f i
                            - volume p * get3 g j * get33 (stress p) j i)))
                   node_f_int)
              node_f_int)
         node_f) = Ok node_f'
    /\ List.length node_f' = List.length node_f
    /\ forall i, sum_component i node_f'
                 = sum_component i node_f - particle_net_force p i.
Proof.
  intros Hloc.
  pose (I := fun (k : nat) (s : list vec3) =>
     List.length s = List.length node_f
     /\ forall i, sum_component i s
        = sum_component i node_f
          - volume p
            * (sum_component d0 (firstn k (basis_gradients p))
                 * get33 (stress p) d0 i
               + sum_component d1 (firstn k (basis_gradients p))
                 * get33 (stress p) d1 i
               + sum_component d2 (firstn k (basis_gradients p))
                 * get33 (stress p) d2 i)).
  match goal with |- exists _, result (for_each _ ?body _) = _ /\ _ =>
    destruct (for_each_inv I (range npc) body node_f) as [s' [Hr [HL HS]]]
  end.
  - split; auto. intros i. unfold sum_component. simpl. ring.
  - intros k x s Hx [HL HS]. apply nth_error_range in Hx. destruct Hx as [-> Hk].
    rewrite <- HL in Hloc.
    destruct (located_lookup _ _ _ k Hloc Hk) as (id & b & g & E1 & E2 & E3 & Hid).
    destruct (vec_at_in_range s id Hid) as [a [Ha _]].
    destruct (internal_force_dims p (Z.of_nat k) id g s a
                (vec_at_nth _ _ _ E3) Hid Ha) as (a' & Hrun & Ha').
    eexists. split.
    { rewrite (vec_at_nth _ _ _ E1), bind_ret_l, Hrun. reflexivity. }
    split.
    + now rewrite length_list_set.
    + intros i. rewrite (sum_component_list_set _ _ _ _ _ Ha), HS, Ha'.
      unfold sum_component.
      rewrite (sum_map_firstn_S (fun a => get3 a d0) _ _ _ E3),
        (sum_map_firstn_S (fun a => get3 a d1) _ _ _ E3),
        (sum_map_firstn_S (fun a => get3 a d2) _ _ _ E3).
      unfold node_force. ring.
  - exists s'. split; auto. split; auto. intros i. rewrite HS.
    rewrite length_range. destruct Hloc as (_ & _ & H3 & _).
    rewrite <- H3, firstn_all. reflexivity.
Qed.

Lemma internal_forces_sum (pm : ProblemManager) (node_f_int : list vec3) :
  Forall (located (nodesPerCell (d_mesh pm)) (List.length node_f_int))
         (d_particles pm) ->
  Forall (valid_matid pm) (d_particles pm) ->
  exists f,
    result (calculateInternalNodalForces pm node_f_int) = Ok f
    /\ List.length f = List.length node_f_int
    /\ forall i, sum_component i f
                 = - sum_real (map (fun p => particle_net_force p i)
                                   (d_particles pm)).
Proof.
  intros Hloc Hmat. unfold calculateInternalNodalForces.
  pose (I := fun (k : nat) (s : list vec3) =>
     List.length s = List.length node_f_int
     /\ forall i, sum_component i s
          = - sum_real (map (fun p => particle_net_force p i)
                            (firstn k (d_particles pm)))).
  match goal with |- exists _, result (for_each _ ?body ?s0) = _ /\ _ =>
    destruct (for_each_inv I (d_particles pm) body s0) as [s' [Hr [HL HS]]]
  end.
  - split; [now rewrite length_map|]. intros i.
    rewrite sum_component_zeros. simpl. ring.
  - intros k p s Hp [HL HS].
    assert (Hin := nth_error_In _ _ Hp).
    rewrite Forall_forall in Hloc, Hmat.
    destruct (internal_force_particle_sum (nodesPerCell (d_mesh pm)) p s)
      as [s' [Hr [HL' HS']]].
    { rewrite HL. now apply Hloc. }
    exists s'. split.
    { destruct (Hmat _ Hin) as [H0 H1].
      destruct (Z.leb_spec 0 (matid p)); [|lia].
      destruct (Z.ltb_spec (matid p) (Z.of_nat (List.length (d_materials pm))));
        [|lia].
      simpl andb. unfold assert. rewrite bind_ret_l. exact Hr. }
    split; [congruence|]. intros i.
    rewrite HS', HS,
      (sum_map_firstn_S (fun p => particle_net_force p i) _ _ _ Hp). ring.
  - exists s'. split; [exact Hr|]. split; auto. intros i.
    now rewrite HS, firstn_all.
Qed.

(** X1: [calculateInternalNodalForces] returns when the particles are located
    and their material ids are valid; the component [i] of the nodal forces
    then sums, over the nodes, to minus the sum over the particles of
    [volume * sum over j of (sum over the adjacent nodes of the basis
    gradient's component j) * stress[j][i]], whatever [node_f_int] held
    before.  When the basis gradients of every particle sum to zero, the
    internal forces sum to zero: they exchange momentum between the nodes and
    create none. *)
Theorem internal_forces_balance (pm : ProblemManager)
    (node_f_int : list vec3) :
  Forall (located (nodesPerCell (d_mesh pm)) (List.length node_f_int))
         (d_particles pm) ->
  Forall (valid_matid pm) (d_particles pm) ->
  exists f,
    result (calculateInternalNodalForces pm node_f_int) = Ok f
    /\ List.length f = List.length node_f_int
    /\ (forall i, sum_component i f
                  = - sum_real (map (fun p => particle_net_force p i)
                                    (d_particles pm)))
    /\ (Forall (fun p => forall j, sum_component j (basis_gradients p) = 0)
               (d_particles pm) ->
        forall i, sum_component i f = 0).
Proof.
  intros Hloc Hmat.
  destruct (internal_forces_sum pm node_f_int Hloc Hmat) as (f & Hr & HL & HS).
  exists f. repeat split; auto.
  intros Hg i. rewrite HS.
  assert (E : map (fun p => particle_net_force p i) (d_particles pm)
              = map (fun _ => 0) (d_particles pm)).
  { apply map_ext_in. intros p Hin. rewrite Forall_forall in Hg.
    unfold particle_net_force. rewrite !(Hg p Hin). ring. }
  rewrite E, sum_real_zeros. ring.
Qed.

Lemma internal_forces_assertion_loop (pm : ProblemManager)
    (ps : list Particle) (s : list vec3) :
  Forall (located (nodesPerCell (d_mesh pm)) (List.length s)) ps ->
  Exists (fun p => ~ valid_matid pm p) ps ->
  result
    (for_each ps
       (fun p node_f_int =>
          assert ((0 <=? matid p)%Z
                  && (matid p <? Z.of_nat (List.length (d_materials pm)))%Z) ;;;
          for_each (range (nodesPerCell (d_mesh pm)))
            (fun n node_f_int =>
               node_id <- vec_at (node_ids p) n ;;
               for_each dims
                 (fun i node_f_int =>
                    for_each dims
                      (fun j node_f_int =>
                         g <- vec_at (basis_gradients p) n ;;
                         vec_modify node_f_int node_id
                           (fun f => set3 f i
                              (get3 f i
                               - volume p * get3 g j * get33 (stress p) j i)))
                      node_f_int)
                 node_f_int)
            node_f_int)
       s)
  = Fail AssertionFailure.
Proof.
  revert s. induction ps as [|p ps IH]; intros s Hloc Hex.
  - inversion Hex.
  - cbn [for_each]. inversion Hloc as [|? ? Hp Hps]; subst.
    destruct (Z.leb_spec 0 (matid p)) as [H0|H0];
      [destruct (Z.ltb_spec (matid p) (Z.of_nat (List.length (d_materials pm))))
         as [H1|H1]|]; simpl andb; unfold assert.
    + rewrite bind_ret_l.
      destruct (internal_force_particle_sum (nodesPerCell (d_mesh pm)) p s Hp)
        as [s' [Hr [HL' _]]].
      rewrite (result_bind_ok _ _ _ Hr). apply IH.
      * now rewrite HL'.
      * inversion Hex as [? ? Hbad|]; subst; auto.
        exfalso. apply Hbad. split; assumption.
    + reflexivity.
    + reflexivity.
Qed.

Lemma internal_forces_balance_witness :
  exists f,
    result (calculateInternalNodalForces (bar_located false)
              [mk3 1 1 1; zero3; zero3]) = Ok f
    /\ List.length f = 3%nat
    /\ forall i, sum_component i f
                 = - sum_real (map (fun p => particle_net_force p i)
                                   (d_particles (bar_located false))).
Proof.
  destruct (internal_forces_balance (bar_located false)
              [mk3 1 1 1; zero3; zero3]) as (f & Hr & HL & HS & _).
  - apply bar_located_located.
  - repeat constructor; cbv; congruence.
  - exists f. auto.
Defined.

(** X2: [calculateInternalNodalForces] stops on its assertion when a particle
    has a material id outside the table of the materials: with located
    particles the kernel fails with the assertion failure and with no other
    error, and it has neither divided nor written a file by then. *)
Theorem internal_forces_assertion (pm : ProblemManager)
    (node_f_int : list vec3) :
  Forall (located (nodesPerCell (d_mesh pm)) (List.length node_f_int))
         (d_particles pm) ->
  Exists (fun p => ~ valid_matid pm p) (d_particles pm) ->
  result (calculateInternalNodalForces pm node_f_int) = Fail AssertionFailure
  /\ events (calculateInternalNodalForces pm node_f_int) = [].
Proof.
  intros Hloc Hex. split.
  - unfold calculateInternalNodalForces.
    apply internal_forces_assertion_loop; [now rewrite length_map|exact Hex].
  - assert (H : Forall (fun _ => False)
                  (events (calculateInternalNodalForces pm node_f_int))).
    { unfold calculateInternalNodalForces. events_tac. }
    destruct (events (calculateInternalNodalForces pm node_f_int)) as [|e l];
      [reflexivity|]. inversion H; contradiction.
Qed.

Lemma internal_forces_assertion_witness :
  result (calculateInternalNodalForces bar_without_material
            [zero3; zero3; zero3]) = Fail AssertionFailure
  /\ events (calculateInternalNodalForces bar_without_material
               [zero3; zero3; zero3]) = [].
Proof.
  apply (internal_forces_assertion bar_without_material [zero3; zero3; zero3]).
  - apply (bar_located_located false).
  - apply Exists_cons_hd. cbv. intros [_ H]. discriminate H.
Defined.
(** ** The nodal impulse *)

Lemma nth_error_lt {A} (l : list A) (k : nat) (a : A) :
  nth_error l k = Some a -> (k < List.length l)%nat.
Proof. intros H. apply nth_error_Some. congruence. Qed.

Lemma impulse_loop_result (num_nodes : Z) (dt : real)
    (node_f_int node_imp : list vec3) :
  num_nodes = Z.of_nat (List.length node_imp) ->
  List.length node_f_int = List.length node_imp ->
  result
    (for_each (range num_nodes)
       (fun n node_imp =>
          for_each dims
            (fun d node_imp =>
               f <- vec_at node_f_int n ;;
               vec_modify node_imp n
                 (fun imp => set3 imp d (dt * get3 f d)))
            node_imp)
       node_imp)
  = Ok (mapi_from
          (fun k _ => let f := nth k node_f_int zero3 in
                      mk3 (dt * c0 f) (dt * c1 f) (dt * c2 f))
          0 node_imp).
Proof.
  intros -> Hl.
  apply (for_each_range_pointwise
           (fun k (_ : vec3) => let f := nth k node_f_int zero3 in
                      mk3 (dt * c0 f) (dt * c1 f) (dt * c2 f))).
  intros k s a Hs Hk Ha.
  assert (Hks : (k < List.length s)%nat)
    by (apply nth_error_Some; congruence).
  destruct (nth_error node_f_int k) as [f|] eqn:Hf;
    [|apply nth_error_None in Hf; lia].
  rewrite (nth_error_nth _ _ zero3 Hf).
  unfold dims. cbn [for_each].
  rewrite (vec_at_nth _ _ _ Hf). repeat bind_ret.
  rewrite (vec_modify_nth _ _ _ _ Ha). repeat bind_ret.
  rewrite (vec_modify_nth (list_set s k _) k _ _
             (nth_error_list_set_eq _ _ _ Hks)). repeat bind_ret.
  rewrite list_set_list_set.
  rewrite (vec_modify_nth (list_set s k _) k _ _
             (nth_error_list_set_eq _ _ _ Hks)). repeat bind_ret.
  cbn [result ret snd]. rewrite !list_set_list_set. do 2 f_equal.
Qed.

Lemma gravity_loop_result (num_nodes : Z) (dt : real) (node_m : list real)
    (node_imp : list vec3) :
  num_nodes = Z.of_nat (List.length node_imp) ->
  List.length node_m = List.length node_imp ->
  result
    (for_each (range num_nodes)
       (fun n node_imp =>
          mass <- vec_at node_m n ;;
          vec_modify node_imp n
            (fun imp => set3 imp d2 (get3 imp d2 - dt * mass * gravity)))
       node_imp)
  = Ok (mapi_from
          (fun k imp => set3 imp d2 (get3 imp d2 - dt * nth k node_m 0 * gravity))
          0 node_imp).
Proof.
  intros -> Hl.
  apply (for_each_range_pointwise
           (fun k imp => set3 imp d2 (get3 imp d2 - dt * nth k node_m 0 * gravity))).
  intros k s a Hs Hk Ha.
  destruct (nth_error node_m k) as [mass|] eqn:Hm;
    [|apply nth_error_None in Hm; apply nth_error_lt in Hk; lia].
  rewrite (nth_error_nth _ _ 0 Hm).
  rewrite (vec_at_nth _ _ _ Hm). repeat bind_ret.
  rewrite (vec_modify_nth _ _ _ _ Ha). reflexivity.
Qed.

Lemma calculateNodalImpulse_before_bc (pm : ProblemManager)
    (node_f_int : list vec3) (node_m : list real) (dt : real)
    (node_imp : list vec3) :
  totalNumNodes (d_mesh pm) = Z.of_nat (List.length node_imp) ->
  List.length node_f_int = List.length node_imp ->
  List.length node_m = List.length node_imp ->
  result (calculateNodalImpulse pm node_f_int node_m dt node_imp)
  = result (impulseBoundaryConditions pm node_m
              (mapi_from (impulse_before_bc (d_has_gravity pm) dt node_m) 0
                         node_f_int)).
Proof.
  intros Hn Hf Hm. unfold calculateNodalImpulse.
  etransitivity;
    [apply result_bind_ok, (impulse_loop_result _ dt _ _ Hn Hf)|]. cbv beta.
  set (l1 := mapi_from _ 0 node_imp).
  assert (Hl1 : List.length l1 = List.length node_imp)
    by apply length_mapi_from.
  assert (E : result (if d_has_gravity pm
       then
        for_each (range (totalNumNodes (d_mesh pm)))
          (fun (n : Z) (node_imp0 : list vec3) =>
           mass <- vec_at node_m n;;
           vec_modify node_imp0 n
             (fun imp : vec3 =>
              set3 imp d2 (get3 imp d2 - dt * mass * gravity)))
          l1
       else ret l1)
     = Ok (mapi_from (impulse_before_bc (d_has_gravity pm) dt node_m) 0
                     node_f_int)).
  { destruct (d_has_gravity pm).
    - rewrite (gravity_loop_result _ dt node_m l1) by congruence.
      f_equal. apply nth_error_ext. intros k. unfold l1.
      rewrite !nth_error_mapi_from. simpl.
      destruct (nth_error node_imp k) as [a|] eqn:Ha;
        destruct (nth_error node_f_int k) as [f|] eqn:Hfk; simpl.
      + rewrite (nth_error_nth _ _ zero3 Hfk). reflexivity.
      + apply nth_error_None in Hfk. apply nth_error_lt in Ha. lia.
      + apply nth_error_None in Ha. apply nth_error_lt in Hfk. lia.
      + reflexivity.
    - cbn [result ret snd]. f_equal. apply nth_error_ext. intros k. unfold l1.
      rewrite !nth_error_mapi_from. simpl.
      destruct (nth_error node_imp k) as [a|] eqn:Ha;
        destruct (nth_error node_f_int k) as [f|] eqn:Hfk; simpl.
      + rewrite (nth_error_nth _ _ zero3 Hfk). reflexivity.
      + apply nth_error_None in Hfk. apply nth_error_lt in Ha. lia.
      + apply nth_error_None in Ha. apply nth_error_lt in Hfk. lia.
      + reflexivity. }
  apply (result_bind_ok _ _ _ E).
Qed.

Lemma sum_real_cons (a : real) (l : list real) :
  sum_real (a :: l) = a + sum_real l.
Proof. reflexivity. Qed.

Lemma impulse_before_bc_sum (g : bool) (dt : real) (node_m : list real)
    (node_f_int : list vec3) (o : nat) :
  (List.length node_f_int + o = List.length node_m)%nat ->
  sum_component d0 (mapi_from (impulse_before_bc g dt node_m) o node_f_int)
  = dt * sum_component d0 node_f_int
  /\ sum_component d1 (mapi_from (impulse_before_bc g dt node_m) o node_f_int)
     = dt * sum_component d1 node_f_int
  /\ sum_component d2 (mapi_from (impulse_before_bc g dt node_m) o node_f_int)
     = dt * sum_component d2 node_f_int
       - (if g then dt * sum_real (skipn o node_m) * gravity else 0).
Proof.
  revert o. induction node_f_int as [|f l IH]; intros o Hl.
  - simpl in Hl. subst o. rewrite skipn_all. unfold sum_component. simpl.
    destruct g; repeat split; ring.
  - simpl in Hl.
    destruct (nth_error node_m o) as [mass|] eqn:Hm;
      [|apply nth_error_None in Hm; lia].
    destruct (IH (S o)) as (I0 & I1 & I2); [lia|].
    unfold sum_component in *. cbn [mapi_from map].
    rewrite !sum_real_cons, I0, I1, I2, (skipn_nth _ _ _ Hm), sum_real_cons.
    unfold impulse_before_bc. rewrite (nth_error_nth _ _ 0 Hm).
    destruct g; cbn [get3 c0 c1 c2]; repeat split; ring.
Qed.

(** X3: [calculateNodalImpulse] overwrites [node_imp]: with one entry per
    node in the three fields, the kernel is its loop over the boundary
    conditions run on the field that holds [delta_t * node_f_int[n]] at each
    node [n], less [delta_t * node_m[n] * 9.81] in the component z when the
    gravity is on.  What [node_imp] held before is not read. *)
Theorem calculateNodalImpulse_overwrites (pm : ProblemManager)
    (node_f_int : list vec3) (node_m : list real) (delta_t : real)
    (node_imp : list vec3) :
  totalNumNodes (d_mesh pm) = Z.of_nat (List.length node_imp) ->
  List.length node_f_int = List.length node_imp ->
  List.length node_m = List.length node_imp ->
  result (calculateNodalImpulse pm node_f_int node_m delta_t node_imp)
  = result (impulseBoundaryConditions pm node_m
              (mapi_from (impulse_before_bc (d_has_gravity pm) delta_t node_m)
                         0 node_f_int))
  /\ forall node_imp',
       List.length node_imp' = List.length node_imp ->
       result (calculateNodalImpulse pm node_f_int node_m delta_t node_imp')
       = result (calculateNodalImpulse pm node_f_int node_m delta_t node_imp).
Proof.
  intros Hn Hf Hm. split.
  - now apply calculateNodalImpulse_before_bc.
  - intros node_imp' Hl.
    rewrite !calculateNodalImpulse_before_bc by congruence. reflexivity.
Qed.

Lemma calculateNodalImpulse_overwrites_witness :
  result (calculateNodalImpulse (bar_located true)
            [mk3 1 0 0; zero3; mk3 0 0 1] [1; half; 0] half
            [zero3; zero3; zero3])
  = result (impulseBoundaryConditions (bar_located true) [1; half; 0]
              (mapi_from (impulse_before_bc true half [1; half; 0]) 0
                         [mk3 1 0 0; zero3; mk3 0 0 1]))
  /\ forall node_imp',
       List.length node_imp' = 3%nat ->
       result (calculateNodalImpulse (bar_located true)
                 [mk3 1 0 0; zero3; mk3 0 0 1] [1; half; 0] half node_imp')
       = result (calculateNodalImpulse (bar_located true)
                   [mk3 1 0 0; zero3; mk3 0 0 1] [1; half; 0] half
                   [zero3; zero3; zero3]).
Proof.
  apply (calculateNodalImpulse_overwrites (bar_located true)
           [mk3 1 0 0; zero3; mk3 0 0 1] [1; half; 0] half
           [zero3; zero3; zero3]); reflexivity.
Defined.

(** X4: the impulse that [calculateNodalImpulse] hands to the boundary
    conditions sums, over the nodes, to [delta_t] times the sum of the
    internal forces, less in the component z the weight
    [delta_t * 9.81 * (sum of the nodal masses)] when the gravity is on. *)
Theorem impulse_sum_before_bc (pm : ProblemManager)
    (node_f_int : list vec3) (node_m : list real) (delta_t : real)
    (node_imp : list vec3) :
  totalNumNodes (d_mesh pm) = Z.of_nat (List.length node_imp) ->
  List.length node_f_int = List.length node_imp ->
  List.length node_m = List.length node_imp ->
  let imp := mapi_from (impulse_before_bc (d_has_gravity pm) delta_t node_m) 0
                       node_f_int in
  result (calculateNodalImpulse pm node_f_int node_m delta_t node_imp)
  = result (impulseBoundaryConditions pm node_m imp)
  /\ List.length imp = List.length node_imp
  /\ sum_component d0 imp = delta_t * sum_component d0 node_f_int
  /\ sum_component d1 imp = delta_t * sum_component d1 node_f_int
  /\ sum_component d2 imp
     = delta_t * sum_component d2 node_f_int
       - (if d_has_gravity pm then delta_t * sum_real node_m * gravity
          else 0).
Proof.
  intros Hn Hf Hm imp.
  split; [now apply calculateNodalImpulse_before_bc|].
  split; [unfold imp; now rewrite length_mapi_from|].
  apply (impulse_before_bc_sum (d_has_gravity pm) delta_t node_m node_f_int 0).
  lia.
Qed.

Lemma impulse_sum_before_bc_witness :
  let imp := mapi_from (impulse_before_bc true half [1; half; 0]) 0
                       [mk3 1 0 0; zero3; mk3 0 0 1] in
  result (calculateNodalImpulse (bar_located true)
            [mk3 1 0 0; zero3; mk3 0 0 1] [1; half; 0] half
            [zero3; zero3; zero3])
  = result (impulseBoundaryConditions (bar_located true) [1; half; 0] imp)
  /\ List.length imp = 3%nat
  /\ sum_component d0 imp
     = half * sum_component d0 [mk3 1 0 0; zero3; mk3 0 0 1]
  /\ sum_component d1 imp
     = half * sum_component d1 [mk3 1 0 0; zero3; mk3 0 0 1]
  /\ sum_component d2 imp
     = half * sum_component d2 [mk3 1 0 0; zero3; mk3 0 0 1]
       - half * sum_real [1; half; 0] * gravity.
Proof.
  apply (impulse_sum_before_bc (bar_located true)
           [mk3 1 0 0; zero3; mk3 0 0 1] [1; half; 0] half
           [zero3; zero3; zero3]); reflexivity.
Defined.

(** ** The stress update *)

Lemma for_each_mut_map {A} (body : A -> M A) (f : A -> A) (ps : list A) :
  (forall p, In p ps -> result (body p) = Ok (f p)) ->
  result (for_each_mut body ps) = Ok (map f ps).
Proof.
  induction ps as [|p ps IH]; intros H; [reflexivity|].
  cbn [for_each_mut map].
  rewrite (result_bind_ok _ _ _ (H p (or_introl eq_refl))).
  rewrite (result_bind_ok _ _ _ (IH (fun q Hq => H q (or_intror Hq)))).
  reflexivity.
Qed.

Lemma for_each_mut_fails {A} (body : A -> M A) (e : Error) (ps : list A) :
  Forall (fun p => (exists p', result (body p) = Ok p')
                   \/ result (body p) = Fail e) ps ->
  Exists (fun p => result (body p) = Fail e) ps ->
  result (for_each_mut body ps) = Fail e.
Proof.
  induction ps as [|p ps IH]; intros Hall Hex; [inversion Hex|].
  cbn [for_each_mut]. rewrite result_bind.
  inversion Hall as [|? ? Hp Hps]; subst.
  destruct Hp as [[p' Hp]|Hp]; rewrite Hp; [|reflexivity].
  rewrite result_bind, IH; auto.
  inversion Hex as [? ? Hbad|]; subst; auto. congruence.
Qed.

Lemma stress_lookup (pm : ProblemManager) (p : Particle) :
  (valid_matid pm p ->
   result (material <- vec_at (d_materials pm) (matid p) ;;
           ret (calculateStress material p))
   = Ok (stressed (d_materials pm) p))
  /\ (~ valid_matid pm p ->
      result (material <- vec_at (d_materials pm) (matid p) ;;
              ret (calculateStress material p))
      = Fail UndefinedBehaviour).
Proof.
  unfold valid_matid, stressed. split; intros H.
  - destruct (vec_at_in_range (d_materials pm) (matid p) H) as [a [Ha ->]].
    now rewrite bind_ret_l, Ha.
  - destruct (vec_at_cases (d_materials pm) (matid p))
      as [(a & _ & H0 & Ha)| ->]; [|reflexivity].
    exfalso. apply H. split; [exact H0|].
    apply nth_error_lt in Ha. lia.
Qed.

(** X5: [updateParticleStressStrain] hands each particle to the material its
    own [matid] selects, in the order of the particles and without reading
    another particle; it has no check of [matid], and a particle whose
    [matid] is not an index of the table of the materials is undefined
    behaviour. *)
Theorem updateParticleStressStrain_dispatch (pm : ProblemManager) :
  (Forall (valid_matid pm) (d_particles pm) ->
   result (updateParticleStressStrain pm)
   = Ok (with_particles pm (map (stressed (d_materials pm)) (d_particles pm))))
  /\ (Exists (fun p => ~ valid_matid pm p) (d_particles pm) ->
      result (updateParticleStressStrain pm) = Fail UndefinedBehaviour).
Proof.
  unfold updateParticleStressStrain. split; intros H.
  - rewrite (result_bind_ok _ _ (map (stressed (d_materials pm)) (d_particles pm)));
      [reflexivity|].
    apply for_each_mut_map. intros p Hp. rewrite Forall_forall in H.
    now apply (proj1 (stress_lookup pm p)), H.
  - rewrite result_bind, (for_each_mut_fails _ UndefinedBehaviour); auto.
    + apply Forall_forall. intros p _.
      destruct (Z_le_dec 0 (matid p));
        [destruct (Z_lt_dec (matid p) (Z.of_nat (List.length (d_materials pm))))|].
      * left. eexists. apply (proj1 (stress_lookup pm p)). split; assumption.
      * right. apply (proj2 (stress_lookup pm p)). unfold valid_matid. lia.
      * right. apply (proj2 (stress_lookup pm p)). unfold valid_matid. lia.
    + apply Exists_exists. apply Exists_exists in H.
      destruct H as (p & Hin & Hp). exists p. split; auto.
      now apply (proj2 (stress_lookup pm p)).
Qed.

Lemma updateParticleStressStrain_dispatch_witness :
  result (updateParticleStressStrain (bar_located false))
  = Ok (with_particles (bar_located false)
          (map (stressed [no_stress]) (d_particles (bar_located false))))
  /\ result (updateParticleStressStrain bar_without_material)
     = Fail UndefinedBehaviour.
Proof.
  split.
  - apply (proj1 (updateParticleStressStrain_dispatch (bar_located false))).
    repeat constructor; cbv; congruence.
  - apply (proj2 (updateParticleStressStrain_dispatch bar_without_material)).
    apply Exists_cons_hd. cbv. intros [_ H]. discriminate H.
Defined.

(** ** What a run keeps *)

Lemma for_each_mut_inv {A} (R : A -> A -> Prop) (body : A -> M A)
    (ps ps' : list A) :
  (forall p p', In p ps -> result (body p) = Ok p' -> R p p') ->
  result (for_each_mut body ps) = Ok ps' -> Forall2 R ps ps'.
Proof.
  revert ps'. induction ps as [|p ps IH]; intros ps' HR H.
  - cbn in H. injection H as <-. constructor.
  - cbn [for_each_mut] in H.
    apply result_bind_inv in H. destruct H as [p' [Hp H]].
    apply result_bind_inv in H. destruct H as [ps'' [Hps H]].
    cbn in H. injection H as <-. constructor.
    + apply HR; [now left|exact Hp].
    + apply IH; [|exact Hps]. intros q q' Hq. apply HR. now right.
Qed.

Lemma for_each_ok_inv {X S} (I : S -> Prop) (xs : list X)
    (body : X -> S -> M S) (s s' : S) :
  I s ->
  (forall x s s', In x xs -> I s -> result (body x s) = Ok s' -> I s') ->
  result (for_each xs body s) = Ok s' -> I s'.
Proof.
  revert s. induction xs as [|x xs IH]; intros s Hs HI H.
  - cbn in H. now injection H as <-.
  - cbn [for_each] in H.
    apply result_bind_inv in H. destruct H as [s1 [H1 H]].
    apply (IH s1); auto.
    + apply (HI x s); [now left|exact Hs|exact H1].
    + intros y t t' Hy. apply HI. now right.
Qed.

Lemma divide_inv (a b q : real) : result (divide a b) = Ok q -> q = a / b.
Proof.
  unfold divide. rewrite result_bind. cbn [emit result snd].
  destruct (Qc_eq_bool b 0); cbn; congruence.
Qed.

Lemma updateFromNode_keeps (node_imp node_p : list vec3) (node_m : list real)
    (dt : real) (n : Z) (p p' : Particle) :
  result (updateFromNode node_imp node_p node_m dt n p) = Ok p' ->
  same_identity p p'.
Proof.
  unfold updateFromNode. intros H.
  apply result_bind_inv in H. destruct H as [id [_ H]].
  apply result_bind_inv in H. destruct H as [mass [_ H]].
  destruct (gt_real mass 0).
  - revert H.
    apply (for_each_ok_inv (fun q => same_identity p q)); [split; reflexivity|].
    intros d q q' _ Hq H.
    apply result_bind_inv in H. destruct H as [mom [_ H]].
    apply result_bind_inv in H. destruct H as [imp [_ H]].
    apply result_bind_inv in H. destruct H as [b [_ H]].
    apply result_bind_inv in H. destruct H as [mass' [_ H]].
    apply result_bind_inv in H. destruct H as [dr [_ H]].
    apply result_bind_inv in H. destruct H as [dv [_ H]].
    cbn in H. injection H as <-. exact Hq.
  - cbn in H. injection H as <-. split; reflexivity.
Qed.

Lemma same_identity_trans (p q s : Particle) :
  same_identity p q -> same_identity q s -> same_identity p s.
Proof. unfold same_identity. intros [? ?] [? ?]. split; congruence. Qed.

Lemma updateParticlePositionAndVelocity_keeps (pm pm' : ProblemManager)
    (node_imp node_p : list vec3) (node_m : list real) (dt : real) :
  result (updateParticlePositionAndVelocity pm node_imp node_p node_m dt)
  = Ok pm' ->
  same_setup pm pm'
  /\ Forall2 same_identity (d_particles pm) (d_particles pm').
Proof.
  unfold updateParticlePositionAndVelocity. intros H.
  apply result_bind_inv in H. destruct H as [ps [Hps H]].
  cbn in H. injection H as <-. split; [repeat split|].
  revert Hps. apply for_each_mut_inv. intros p p' _.
  apply (for_each_ok_inv (fun q => same_identity p q)); [split; reflexivity|].
  intros n q q' _ Hq H.
  apply (same_identity_trans _ _ _ Hq), (updateFromNode_keeps _ _ _ _ _ _ _ H).
Qed.

Lemma updateParticleGradients_keeps (pm pm' : ProblemManager)
    (node_v : list vec3) (dt : real) :
  result (updateParticleGradients pm node_v dt) = Ok pm' ->
  same_setup pm pm'
  /\ Forall2 same_identity (d_particles pm) (d_particles pm').
Proof.
  unfold updateParticleGradients. intros H.
  apply result_bind_inv in H. destruct H as [ps [Hps H]].
  cbn in H. injection H as <-. split; [repeat split|].
  revert Hps. apply for_each_mut_inv. intros p p' _ H.
  unfold updateParticleGradients_body in H.
  apply result_bind_inv in H. destruct H as [gv [_ H]].
  cbn in H. injection H as <-. split; reflexivity.
Qed.

Lemma updateParticleStressStrain_keeps (pm pm' : ProblemManager) :
  result (updateParticleStressStrain pm) = Ok pm' ->
  same_setup pm pm'
  /\ List.length (d_particles pm') = List.length (d_particles pm)
  /\ (Forall writes_stress_only (d_materials pm) ->
      Forall2 same_identity (d_particles pm) (d_particles pm')).
Proof.
  unfold updateParticleStressStrain. intros H.
  apply result_bind_inv in H. destruct H as [ps [Hps H]].
  cbn in H. injection H as <-. split; [repeat split|]. split.
  - symmetry. apply (Forall2_length (R := fun _ _ => True)).
    revert Hps. apply for_each_mut_inv. auto.
  - intros Hw. revert Hps. apply for_each_mut_inv. intros p p' _ H.
    apply result_bind_inv in H. destruct H as [material [Hm H]].
    cbn in H. injection H as <-.
    apply vec_at_ok_inv in Hm. destruct Hm as [_ Hm].
    apply nth_error_In in Hm. rewrite Forall_forall in Hw.
    destruct (Hw _ Hm p) as (s & e & ->). split; reflexivity.
Qed.

Lemma same_identity_refl (l : list Particle) : Forall2 same_identity l l.
Proof. induction l; constructor; auto. split; reflexivity. Qed.

Lemma run_keeps_refl (pm : ProblemManager) : run_keeps pm pm.
Proof.
  split; [repeat split|]. split; [reflexivity|].
  intros _. apply same_identity_refl.
Qed.

Lemma run_keeps_trans (pm pm1 pm2 : ProblemManager) :
  run_keeps pm pm1 -> run_keeps pm1 pm2 -> run_keeps pm pm2.
Proof.
  intros ((A1 & A2 & A3 & A4) & AL & AF) ((B1 & B2 & B3 & B4) & BL & BF).
  split; [repeat split; congruence|]. split; [congruence|].
  intros Hw.
  apply (Forall2_trans_rel _ _ (d_particles pm1));
    [apply same_identity_trans|now apply AF|].
  apply BF. now rewrite A4.
Qed.

Lemma run_keeps_identity (pm pm' : ProblemManager) :
  same_setup pm pm' ->
  Forall2 same_identity (d_particles pm) (d_particles pm') ->
  run_keeps pm pm'.
Proof.
  intros HS HF. split; [exact HS|]. split; [|auto].
  symmetry. apply (Forall2_length HF).
Qed.

Lemma locateParticles_keeps (pm pm' : ProblemManager) :
  result (locateParticles pm) = Ok pm' -> run_keeps pm pm'.
Proof.
  rewrite locateParticles_result. cbn. intros H. injection H as <-.
  apply run_keeps_identity; [repeat split|]. cbn [d_particles with_particles].
  induction (d_particles pm); constructor; auto. split; reflexivity.
Qed.

Lemma timestep_keeps (dt : real) (pm pm' : ProblemManager)
    (nf nf' : NodalFields) :
  result (timestep dt (pm, nf)) = Ok (pm', nf') -> run_keeps pm pm'.
Proof.
  unfold timestep. intros H.
  apply result_bind_inv in H. destruct H as [pm1 [H1 H]].
  apply result_bind_inv in H. destruct H as [node_m [_ H]].
  apply result_bind_inv in H. destruct H as [node_p [_ H]].
  apply result_bind_inv in H. destruct H as [node_f [_ H]].
  apply result_bind_inv in H. destruct H as [node_imp [_ H]].
  apply result_bind_inv in H. destruct H as [pm2 [H2 H]].
  apply result_bind_inv in H. destruct H as [node_v [_ H]].
  apply result_bind_inv in H. destruct H as [pm3 [H3 H]].
  apply result_bind_inv in H. destruct H as [pm4 [H4 H]].
  cbn in H. injection H as <- _.
  apply locateParticles_keeps in H1.
  apply updateParticlePositionAndVelocity_keeps in H2.
  apply updateParticleGradients_keeps in H3.
  apply updateParticleStressStrain_keeps in H4.
  apply (run_keeps_trans _ _ _ H1).
  apply (run_keeps_trans _ pm2); [now apply run_keeps_identity|].
  apply (run_keeps_trans _ pm3); [now apply run_keeps_identity|].
  exact H4.
Qed.

Lemma for_each_events_inv {X S} (I : S -> Prop) (P : Event -> Prop)
    (xs : list X) (body : X -> S -> M S) (s : S) :
  I s ->
  (forall x s, In x xs -> I s ->
     Forall P (events (body x s))
     /\ forall s', result (body x s) = Ok s' -> I s') ->
  Forall P (events (for_each xs body s))
  /\ forall s', result (for_each xs body s) = Ok s' -> I s'.
Proof.
  revert s. induction xs as [|x xs IH]; intros s Hs HI.
  - split; [constructor|]. cbn. intros s' H. now injection H as <-.
  - cbn [for_each].
    destruct (HI x s (or_introl eq_refl) Hs) as [HP HN].
    assert (Hrest : forall s1, result (body x s) = Ok s1 ->
              Forall P (events (for_each xs body s1))
              /\ forall s', result (for_each xs body s1) = Ok s' -> I s').
    { intros s1 H1. apply IH; [now apply HN|].
      intros y t Hy. apply HI. now right. }
    split.
    + apply events_bind_Forall_ok; [exact HP|].
      intros s1 H1. apply (Hrest s1 H1).
    + intros s' H. apply result_bind_inv in H. destruct H as [s1 [H1 H]].
      now apply (Hrest s1 H1).
Qed.

Lemma snapshot_well_formed (pm pm' : ProblemManager) (out : string) (i : Z) :
  run_keeps pm pm' ->
  writes_well_formed pm (EvWrite (snapshot pm' out i)).
Proof.
  intros (_ & HL & _). split; [reflexivity|].
  cbn [snapshot file_rows]. now rewrite length_map.
Qed.

Lemma solve_step_keeps (pm : ProblemManager) (dt : real) (out : string)
    (W step : Z) (st : SolveState) :
  run_keeps pm (fst (fst st)) ->
  Forall (writes_well_formed pm) (events (solve_step dt out W step st))
  /\ forall st', result (solve_step dt out W step st) = Ok st' ->
                 run_keeps pm (fst (fst st')).
Proof.
  destruct st as [[pm1 nf] ws]. cbn [fst]. intros HK.
  assert (Hstep : forall pm2 nf2,
            result (timestep dt (pm1, nf)) = Ok (pm2, nf2) -> run_keeps pm pm2).
  { intros pm2 nf2 H. apply (run_keeps_trans _ _ _ HK).
    apply (timestep_keeps _ _ _ _ _ H). }
  split.
  - unfold solve_step, rem_int.
    apply events_bind_Forall_ok; [destruct (W =? 0)%Z; constructor|].
    intros _ _.
    apply events_bind_Forall_ok.
    { eapply Forall_impl; [|apply events_timestep].
      intros [b|f]; cbn; [auto|contradiction]. }
    intros [pm2 nf2] H2.
    apply events_bind_Forall_ok; [destruct (W =? 0)%Z; constructor|].
    intros k _. destruct (k =? 0)%Z; [|constructor].
    apply events_bind_Forall_ok; [|intros; constructor].
    constructor; [|constructor].
    apply snapshot_well_formed, (Hstep _ _ H2).
  - intros [[pm2 nf2] ws2] H. apply solve_step_inv in H.
    destruct H as (_ & pm3 & nf3 & Ht & H).
    destruct (Z.rem (step + 1) W =? 0)%Z; destruct H as [H _];
      injection H as -> _ _; apply (Hstep _ _ Ht).
Qed.

Lemma solve_keeps (pm : ProblemManager) (N : Z) (dt : real) (out : string)
    (W : Z) :
  Forall (writes_well_formed pm) (events (solve pm N dt out W))
  /\ forall pm', result (solve pm N dt out W) = Ok pm' -> run_keeps pm pm'.
Proof.
  unfold solve.
  destruct (Z.ltb_spec (totalNumNodes (d_mesh pm)) 0) as [Hn|Hn].
  { unfold vec_make. destruct (Z.ltb_spec (totalNumNodes (d_mesh pm)) 0); [|lia].
    split; [constructor|]. cbn. discriminate. }
  unfold vec_make. destruct (Z.ltb_spec (totalNumNodes (d_mesh pm)) 0); [lia|].
  do 5 bind_ret.
  match goal with |- context [for_each ?xs ?body ?s] =>
    destruct (for_each_events_inv (fun st => run_keeps pm (fst (fst st)))
                (writes_well_formed pm) xs body s) as [HE HR]
  end.
  { apply run_keeps_refl. }
  { intros x st _ Hst. now apply solve_step_keeps. }
  split.
  - apply events_bind_Forall_ok.
    { constructor; [|constructor].
      apply (snapshot_well_formed pm pm), run_keeps_refl. }
    intros _ _. apply events_bind_Forall_ok; [exact HE|].
    intros [[pm1 nf1] ws1] H1. apply HR in H1. cbn [fst] in H1.
    apply events_bind_Forall_ok; [|intros; constructor].
    constructor; [|constructor]. now apply snapshot_well_formed.
  - intros pm' Hs.
    apply result_bind_inv in Hs. destruct Hs as [u [_ Hs]].
    apply result_bind_inv in Hs. destruct Hs as [[[pm1 nf1] ws1] [H1 Hs]].
    apply HR in H1. cbn [fst] in H1.
    apply result_bind_inv in Hs. destruct Hs as [u' [_ Hs]].
    cbn in Hs. now injection Hs as <-.
Qed.

Lemma files_written_well_formed {A} (pm : ProblemManager) (c : M A) :
  Forall (writes_well_formed pm) (events c) ->
  Forall (well_formed_snapshot pm) (files_written c).
Proof.
  unfold files_written. induction (events c) as [|e l IH]; intros H;
    [constructor|].
  inversion H as [|? ? He Hl]; subst. cbn [flat_map].
  destruct e as [b|f]; cbn [app]; [now apply IH|].
  constructor; [exact He|now apply IH].
Qed.

Lemma same_identity_mass (l l' : list Particle) :
  Forall2 same_identity l l' -> map m l' = map m l.
Proof.
  induction 1 as [|p p' l l' [Hm _] _ IH]; [reflexivity|].
  cbn [map]. now rewrite Hm, IH.
Qed.

(** X6: every file a run of [solve] writes has the header of the format and
    one row per particle the problem manager held when [solve] was called,
    whatever the arguments and whether the run returns or fails on the
    way. *)
Theorem solve_snapshots_well_formed (pm : ProblemManager)
    (num_time_steps : Z) (time_step_size : real) (output_file : string)
    (write_frequency : Z) :
  Forall (well_formed_snapshot pm)
         (files_written (solve pm num_time_steps time_step_size output_file
                               write_frequency)).
Proof.
  apply files_written_well_formed, solve_keeps.
Qed.

(** X7: a run of [solve] that returns has changed the particles only: the
    mesh, the gravity flag, the boundary conditions and the materials are
    the ones it started with, and no particle was added, removed or
    reordered.  When the materials write the stress and the strain only,
    every particle has kept its mass and its material id, so that the total
    mass of the particles is the same at the end. *)
Theorem solve_keeps_particles (pm : ProblemManager) (num_time_steps : Z)
    (time_step_size : real) (output_file : string) (write_frequency : Z)
    (pm' : ProblemManager) :
  result (solve pm num_time_steps time_step_size output_file write_frequency)
  = Ok pm' ->
  same_setup pm pm'
  /\ List.length (d_particles pm') = List.length (d_particles pm)
  /\ (Forall writes_stress_only (d_materials pm) ->
      Forall2 same_identity (d_particles pm) (d_particles pm')
      /\ sum_real (map m (d_particles pm')) = sum_real (map m (d_particles pm))).
Proof.
  intros H.
  destruct (proj2 (solve_keeps pm num_time_steps time_step_size output_file
                               write_frequency) pm' H) as (HS & HL & HF).
  split; [exact HS|]. split; [exact HL|].
  intros Hw. split; [now apply HF|].
  now rewrite (same_identity_mass _ _ (HF Hw)).
Qed.

Lemma solve_keeps_particles_witness :
  exists pm',
    result (solve free_fall 2 (Q2Qc (1 # 100)) "out" 1) = Ok pm'
    /\ same_setup free_fall pm'
    /\ List.length (d_particles pm') = List.length (d_particles free_fall)
    /\ (Forall writes_stress_only (d_materials free_fall) ->
        Forall2 same_identity (d_particles free_fall) (d_particles pm')
        /\ sum_real (map m (d_particles pm'))
           = sum_real (map m (d_particles free_fall))).
Proof.
  destruct (result (solve free_fall 2 (Q2Qc (1 # 100)) "out" 1))
    as [pm'|e] eqn:E.
  - exists pm'. split; [reflexivity|].
    apply (solve_keeps_particles free_fall 2 (Q2Qc (1 # 100)) "out" 1 pm' E).
  - vm_compute in E. discriminate E.
Defined.

(** ** Edge cases of [solve] *)

(** X8: a write frequency of zero is undefined behaviour as soon as there is
    a time step to take: [solve] writes the snapshot 0, reaches
    [(step+1) % 0] in the first iteration and stops there, before any kernel
    has run. *)
Theorem solve_zero_write_frequency (pm : ProblemManager)
    (num_time_steps : Z) (time_step_size : real) (output_file : string) :
  (0 <= totalNumNodes (d_mesh pm))%Z -> (0 < num_time_steps)%Z ->
  solve pm num_time_steps time_step_size output_file 0
  = ([EvWrite (snapshot pm output_file 0)], Fail UndefinedBehaviour).
Proof.
  intros Hn HN. unfold solve, vec_make.
  destruct (Z.ltb_spec (totalNumNodes (d_mesh pm)) 0); [lia|].
  do 5 bind_ret.
  unfold range. destruct (Z.to_nat num_time_steps) as [|k] eqn:E; [lia|].
  cbn [seq map for_each]. reflexivity.
Qed.

Lemma solve_zero_write_frequency_witness :
  solve free_fall 3 1 "out" 0
  = ([EvWrite (snapshot free_fall "out" 0)], Fail UndefinedBehaviour).
Proof.
  apply (solve_zero_write_frequency free_fall 3 1 "out"); cbn; lia.
Defined.

(** X9: the sign of the write frequency is not read: [(step+1) % w] is zero
    for the same steps with [w] and with [-w], and the run with [-w] is the
    run with [w], event for event. *)
Theorem solve_write_frequency_sign (pm : ProblemManager)
    (num_time_steps : Z) (time_step_size : real) (output_file : string)
    (write_frequency : Z) :
  solve pm num_time_steps time_step_size output_file (- write_frequency)
  = solve pm num_time_steps time_step_size output_file write_frequency.
Proof.
  unfold solve.
  repeat (apply bind_ext; intros ?).
  f_equal. apply for_each_ext. intros step [[pm1 nf] ws].
  unfold solve_step, rem_int.
  replace (- write_frequency =? 0)%Z with (write_frequency =? 0)%Z
    by (destruct (Z.eqb_spec write_frequency 0);
        destruct (Z.eqb_spec (- write_frequency) 0); auto; lia).
  destruct (Z.eqb_spec write_frequency 0) as [->|HW]; [reflexivity|].
  now rewrite Z.rem_opp_r by exact HW.
Qed.

(** ** The names of the snapshots *)















(** ** The sphere *)







(** ** The number of particles [initialize] creates *)

Lemma admitted_particles_length (geometry : list Geometry)
    (l : list Particle) :
  (List.length (admitted_particles geometry l) <= List.length l)%nat.
Proof.
  unfold admitted_particles. induction l as [|c l IH]; cbn [flat_map];
    [apply Nat.le_refl|].
  rewrite length_app. destruct (admitted geometry c); cbn [List.length]; lia.
Qed.

Lemma admitted_particles_none (l : list Particle) :
  admitted_particles [] l = [].
Proof. unfold admitted_particles. induction l; cbn; auto. Qed.

Lemma admitted_particles_all (g : Geometry) (rest : list Geometry)
    (l : list Particle) :
  (forall q, particleInGeometry g q = true) ->
  admitted_particles (g :: rest) l = map (initializeParticle g) l.
Proof.
  intros H. unfold admitted_particles.
  induction l as [|c l IH]; cbn [flat_map map]; [reflexivity|].
  rewrite IH. unfold admitted, first_geometry. cbn [find]. now rewrite H.
Qed.

(** X13: [initialize] appends to the particles the problem manager holds
    already, and at most one particle per candidate, that is at most
    [particlesPerCell * totalNumCells] particles; it appends none when the
    list of the geometries is empty, and one per candidate, each initialized
    by the first geometry, when the first geometry contains every point. *)
Theorem initialize_count (pm : ProblemManager) (geometry : list Geometry)
    (order : Z) :
  (0 <= particlesPerCell (d_mesh pm) order)%Z ->
  keeps_buffer_size (d_mesh pm) order ->
  exists pm' new,
    result (initialize pm geometry order) = Ok pm'
    /\ d_particles pm' = d_particles pm ++ new
    /\ (List.length new
        <= Z.to_nat (totalNumCells (d_mesh pm))
           * Z.to_nat (particlesPerCell (d_mesh pm) order))%nat
    /\ (geometry = [] -> new = [])
    /\ (forall g rest,
          geometry = g :: rest ->
          (forall q, particleInGeometry g q = true) ->
          List.length new
          = (Z.to_nat (totalNumCells (d_mesh pm))
             * Z.to_nat (particlesPerCell (d_mesh pm) order))%nat
          /\ Forall (fun p => exists c, p = initializeParticle g c) new).
Proof.
  intros Hpp Hmesh. unfold initialize.
  set (mesh := d_mesh pm) in *. set (ppc := particlesPerCell mesh order) in *.
  unfold vec_make. destruct (Z.ltb_spec ppc 0); [lia|]. bind_ret.
  pose (I := fun (c : nat) (st : list Particle * list Particle) =>
     List.length (fst st) = Z.to_nat ppc
     /\ exists new,
          snd st = d_particles pm ++ new
          /\ (List.length new <= c * Z.to_nat ppc)%nat
          /\ (geometry = [] -> new = [])
          /\ (forall g rest,
                geometry = g :: rest ->
                (forall q, particleInGeometry g q = true) ->
                List.length new = (c * Z.to_nat ppc)%nat
                /\ Forall (fun p => exists c, p = initializeParticle g c) new)).
  destruct (for_each_inv I (range (totalNumCells mesh))
              (initialize_cell mesh geometry order ppc)
              (repeat default_particle (Z.to_nat ppc), d_particles pm))
    as [[buf ps] [Hr [_ (new & Hps & Hle & Hnil & Hall)]]].
  - split; [apply repeat_length|]. exists []. rewrite app_nil_r.
    repeat split; auto.
  - intros k x [buf ps] Hx [Hbuf (new & Hps & Hle & Hnil & Hall)].
    cbn [fst snd] in *.
    apply nth_error_range in Hx. destruct Hx as [-> Hk].
    set (cands := initializeParticles mesh (Z.of_nat k) order buf).
    assert (Hc : List.length cands = Z.to_nat ppc) by now apply Hmesh.
    exists (buffer_after geometry cands,
            ps ++ admitted_particles geometry cands).
    split.
    { unfold initialize_cell. fold cands.
      replace ppc with (Z.of_nat (List.length cands)) by lia.
      apply initialize_cell_candidates. }
    split; [cbn [fst]; now rewrite length_buffer_after|].
    exists (new ++ admitted_particles geometry cands). cbn [snd].
    split; [now rewrite Hps, app_assoc|].
    assert (Hadm := admitted_particles_length geometry cands).
    split; [rewrite length_app; lia|]. split.
    + intros ->. now rewrite (Hnil eq_refl), admitted_particles_none.
    + intros g rest -> Hg. destruct (Hall g rest eq_refl Hg) as [HL HF].
      rewrite (admitted_particles_all g rest cands Hg). split.
      * rewrite length_app, length_map. lia.
      * apply Forall_app. split; [exact HF|].
        apply Forall_forall. intros p Hp. apply in_map_iff in Hp.
        destruct Hp as (c & <- & _). now exists c.
  - rewrite length_range in Hle, Hall. cbn [snd] in Hps.
    exists (with_particles pm ps), new.
    split; [rewrite (result_bind_ok _ _ _ Hr); reflexivity|].
    split; [exact Hps|]. split; [exact Hle|]. split; [exact Hnil|exact Hall].
Qed.

Lemma initialize_count_witness :
  exists pm' new,
    result (initialize (bar_problem false)
              [sphere_geometry (Sphere.mkSphere (mk3 1 0 0) half) 7 1 zero3]
              2) = Ok pm'
    /\ d_particles pm' = d_particles (bar_problem false) ++ new
    /\ (List.length new <= 2 * 2)%nat.
Proof.
  destruct (initialize_count (bar_problem false)
              [sphere_geometry (Sphere.mkSphere (mk3 1 0 0) half) 7 1 zero3] 2)
    as (pm' & new & Hr & Hp & Hle & _).
  - simpl. lia.
  - intros c buffer H. simpl. now rewrite length_mapi_from.
  - exists pm', new. auto.
Defined.

(** ** The deformation gradient *)

Lemma determinant_deformed (dt : real) (gv f : mat3) :
  TensorTools.determinant (deformed dt gv f)
  = TensorTools.determinant (identity_plus dt gv) * TensorTools.determinant f.
Proof.
  destruct gv as [[g00 g01 g02] [g10 g11 g12] [g20 g21 g22]].
  destruct f as [[f00 f01 f02] [f10 f11 f12] [f20 f21 f22]].
  unfold TensorTools.determinant, deformed, identity_plus, mat_tab.
  cbn [get33 get3 c0 c1 c2 dim_eqb]. ring.
Qed.

(** X14: [updateParticleGradients] multiplies the deformation gradient of
    each particle on the left by [I + delta_t * grad_v], with the velocity
    gradient of the same call: [F' = F + (delta_t * grad_v) . F].  The volume
    and the determinant of [F] are scaled by the same factor,
    [det(I + delta_t * grad_v)], so that [volume' * det F = volume * det F']:
    the ratio of the volume to [det F] is kept.  The position, the velocity,
    the mass, the stress, the strain, the material and the basis of the
    particle are not written. *)
Theorem deformation_gradient_update (pm : ProblemManager)
    (node_v : list vec3) (delta_t : real) :
  Forall (located (nodesPerCell (d_mesh pm)) (List.length node_v))
         (d_particles pm) ->
  exists pm',
    result (updateParticleGradients pm node_v delta_t) = Ok pm'
    /\ same_setup pm pm'
    /\ Forall2
         (fun p p' =>
            F p' = deformed delta_t (grad_v p') (F p)
            /\ TensorTools.determinant (F p')
               = TensorTools.determinant (identity_plus delta_t (grad_v p'))
                 * TensorTools.determinant (F p)
            /\ volume p' * TensorTools.determinant (F p)
               = volume p * TensorTools.determinant (F p')
            /\ r p' = r p /\ v p' = v p /\ m p' = m p
            /\ stress p' = stress p /\ strain p' = strain p
            /\ matid p' = matid p /\ node_ids p' = node_ids p
            /\ basis_values p' = basis_values p
            /\ basis_gradients p' = basis_gradients p)
         (d_particles pm) (d_particles pm').
Proof.
  intros Hloc. unfold updateParticleGradients.
  match goal with |- context [for_each_mut ?body ?ps] =>
    destruct (for_each_mut_Forall2
      (fun p p' =>
         F p' = deformed delta_t (grad_v p') (F p)
         /\ TensorTools.determinant (F p')
            = TensorTools.determinant (identity_plus delta_t (grad_v p'))
              * TensorTools.determinant (F p)
         /\ volume p' * TensorTools.determinant (F p)
            = volume p * TensorTools.determinant (F p')
         /\ r p' = r p /\ v p' = v p /\ m p' = m p
         /\ stress p' = stress p /\ strain p' = strain p
         /\ matid p' = matid p /\ node_ids p' = node_ids p
         /\ basis_values p' = basis_values p
         /\ basis_gradients p' = basis_gradients p)
      body ps) as [ps' [Hr HF]]
  end.
  - intros p Hp. rewrite Forall_forall in Hloc.
    eexists. split; [apply updateParticleGradients_body_spec, Hloc, Hp|].
    cbn [F grad_v volume r v m stress strain matid node_ids basis_values
         basis_gradients with_volume with_F with_grad_v].
    split; [reflexivity|]. split; [apply determinant_deformed|].
    split; [rewrite determinant_deformed; ring|].
    repeat split.
  - exists (with_particles pm ps'). split.
    + rewrite (result_bind_ok _ _ _ Hr). reflexivity.
    + split; [repeat split|exact HF].
Qed.

Lemma deformation_gradient_update_witness :
  exists pm',
    result (updateParticleGradients (bar_located false)
              [zero3; mk3 1 0 0; mk3 (Q2Qc 2) 0 0] half) = Ok pm'
    /\ Forall2
         (fun p p' =>
            F p' = deformed half (grad_v p') (F p)
            /\ volume p' * TensorTools.determinant (F p)
               = volume p * TensorTools.determinant (F p'))
         (d_particles (bar_located false)) (d_particles pm').
Proof.
  destruct (deformation_gradient_update (bar_located false)
              [zero3; mk3 1 0 0; mk3 (Q2Qc 2) 0 0] half
              (bar_located_located false)) as (pm' & Hr & _ & HF).
  exists pm'. split; [exact Hr|].
  apply (Forall2_weaken _ _ _ _ (fun p p' H =>
           conj (proj1 H) (proj1 (proj2 (proj2 H)))) HF).
Defined.

(** ** The momentum of the particles through step 6 *)

Lemma mapi_from_list_set {A B} (g : nat -> A -> B) (o k : nat) (l : list A)
    (x : A) :
  mapi_from g o (list_set l k x) = list_set (mapi_from g o l) k (g (o + k)%nat x).
Proof.
  revert o k. induction l as [|a l IH]; intros o [|k]; cbn; auto.
  - now rewrite Nat.add_0_r.
  - rewrite IH. now replace (S o + k)%nat with (o + S k)%nat by lia.
Qed.

Lemma weighted_sum_list_set (w : nat -> real) (s : list real) (k : nat)
    (a x : real) :
  nth_error s k = Some a ->
  weighted_sum w 0 (list_set s k x) = weighted_sum w 0 s - w k * a + w k * x.
Proof.
  intros H. unfold weighted_sum. rewrite mapi_from_list_set.
  apply sum_real_list_set. now rewrite nth_error_mapi_from, H.
Qed.

Lemma weighted_sum_zeros {A} (w : nat -> real) (l : list A) (o : nat) :
  weighted_sum w o (map (fun _ => 0) l) = 0.
Proof.
  unfold weighted_sum. revert o. induction l as [|a l IH]; intros o;
    [reflexivity|].
  cbn [map mapi_from]. rewrite sum_real_cons, IH. ring.
Qed.

(** The scatter of the mass of one particle, seen through the weights. *)
Lemma calculateNodalMass_particle_weighted (w : nat -> real) (npc : Z)
    (p : Particle) (node_m : list real) :
  located npc (List.length node_m) p ->
  exists node_m',
    result (for_each (range npc)
         (fun n node_m =>
            node_id <- vec_at (node_ids p) n ;;
            b <- vec_at (basis_values p) n ;;
            vec_modify node_m node_id (fun x => x + b * m p))
         node_m) = Ok node_m'
    /\ List.length node_m' = List.length node_m
    /\ weighted_sum w 0 node_m' = weighted_sum w 0 node_m + m p * gathered w p.
Proof.
  intros Hloc.
  pose (I := fun (k : nat) (s : list real) =>
     List.length s = List.length node_m
     /\ weighted_sum w 0 s
        = weighted_sum w 0 node_m
          + m p * sum_real
                    (map (fun idb : Z * real =>
                            snd idb * w (Z.to_nat (fst idb)))
                         (firstn k (combine (node_ids p) (basis_values p))))).
  match goal with |- exists _, result (for_each _ ?body _) = _ /\ _ =>
    destruct (for_each_inv I (range npc) body node_m) as [s' [Hr [HL HS]]]
  end.
  - split; auto. simpl. ring.
  - intros k x s Hx [HL HS]. apply nth_error_range in Hx. destruct Hx as [-> Hk].
    destruct (located_lookup _ _ _ k Hloc Hk) as (id & b & g & E1 & E2 & E3 & Hid).
    destruct (vec_modify_in_range s id (fun x => x + b * m p)) as [a [Ha Hm]].
    { now rewrite HL. }
    exists (list_set s (Z.to_nat id) (a + b * m p)). split.
    + rewrite (vec_at_nth _ _ _ E1), bind_ret_l.
      rewrite (vec_at_nth _ _ _ E2), bind_ret_l. rewrite Hm. reflexivity.
    + split; [now rewrite length_list_set|].
      rewrite (weighted_sum_list_set _ _ _ _ _ Ha), HS,
        (sum_map_firstn_S _ _ _ _ (nth_error_combine _ _ _ _ _ E1 E2)).
      cbn [fst snd]. ring.
  - exists s'. split; auto. split; auto. rewrite HS. unfold gathered.
    rewrite firstn_all2; [reflexivity|].
    rewrite length_combine, length_range.
    destruct Hloc as (H1 & H2 & _). lia.
Qed.

Lemma calculateNodalMass_weighted (w : nat -> real) (pm : ProblemManager)
    (node_m0 : list real) :
  Forall (located (nodesPerCell (d_mesh pm)) (List.length node_m0))
         (d_particles pm) ->
  exists node_m,
    result (calculateNodalMass pm node_m0) = Ok node_m
    /\ List.length node_m = List.length node_m0
    /\ weighted_sum w 0 node_m
       = sum_real (map (fun p => m p * gathered w p) (d_particles pm)).
Proof.
  intros Hloc. unfold calculateNodalMass.
  pose (I := fun (k : nat) (s : list real) =>
     List.length s = List.length node_m0
     /\ weighted_sum w 0 s
        = sum_real (map (fun p => m p * gathered w p)
                        (firstn k (d_particles pm)))).
  match goal with |- exists _, result (for_each _ ?body ?s0) = _ /\ _ =>
    destruct (for_each_inv I (d_particles pm) body s0) as [s' [Hr [HL HS]]]
  end.
  - split; [now rewrite length_map|]. apply weighted_sum_zeros.
  - intros k p s Hp [HL HS].
    assert (Hin := nth_error_In _ _ Hp). rewrite Forall_forall in Hloc.
    destruct (calculateNodalMass_particle_weighted w
                (nodesPerCell (d_mesh pm)) p s) as [s' [Hr [HL' HS']]].
    { rewrite HL. now apply Hloc. }
    exists s'. split; [exact Hr|]. split; [congruence|].
    rewrite HS', HS, (sum_map_firstn_S (fun p => m p * gathered w p) _ _ _ Hp).
    ring.
  - exists s'. split; [exact Hr|]. split; auto. now rewrite HS, firstn_all.
Qed.

(** Step 6 on one particle, in closed form: each component of the velocity
    and of the position gains the gathered weights of the adjacent nodes. *)
Lemma updateParticle_gathered (npc : Z) (node_imp node_p : list vec3)
    (node_m : list real) (dt : real) (p : Particle) :
  located npc (List.length node_m) p ->
  List.length node_p = List.length node_m ->
  List.length node_imp = List.length node_m ->
  exists p',
    result (for_each (range npc)
              (updateFromNode node_imp node_p node_m dt) p) = Ok p'
    /\ m p' = m p
    /\ forall d,
         get3 (v p') d
         = get3 (v p) d + gathered (velocity_weight node_m node_imp d) p
         /\ get3 (r p') d
            = get3 (r p) d
              + gathered (position_weight node_m node_p node_imp dt d) p.
Proof.
  intros Hloc Hlp Hli.
  pose (part := fun (w : nat -> real) (k : nat) =>
     sum_real (map (fun idb : Z * real => snd idb * w (Z.to_nat (fst idb)))
                   (firstn k (combine (node_ids p) (basis_values p))))).
  pose (I := fun (k : nat) (q : Particle) =>
     node_ids q = node_ids p /\ basis_values q = basis_values p /\ m q = m p
     /\ forall d,
          get3 (v q) d
          = get3 (v p) d + part (velocity_weight node_m node_imp d) k
          /\ get3 (r q) d
             = get3 (r p) d
               + part (position_weight node_m node_p node_imp dt d) k).
  destruct (for_each_inv I (range npc)
              (updateFromNode node_imp node_p node_m dt) p)
    as [p' [Hr (_ & _ & Hm & HI)]].
  - repeat split; unfold part; simpl; ring.
  - intros k x q Hx (Q1 & Q2 & Q3 & Q4). apply nth_error_range in Hx.
    destruct Hx as [-> Hk].
    destruct (located_lookup _ _ _ k Hloc Hk)
      as (id & b & g & E1 & E2 & E3 & Hid).
    assert (Ec := nth_error_combine _ _ _ _ _ E1 E2).
    rewrite <- Q1 in E1. rewrite <- Q2 in E2.
    destruct (vec_at_in_range node_m id Hid) as [mass [Nm Hmass]].
    destruct (vec_at_in_range node_p id ltac:(lia)) as [mom [Np Hp]].
    destruct (vec_at_in_range node_imp id ltac:(lia)) as [imp [Ni Hi]].
    eexists. split.
    + apply (updateFromNode_result _ _ _ dt k q id b mass mom imp); auto.
    + unfold I, part.
      assert (W : forall d,
                velocity_weight node_m node_imp d (Z.to_nat id)
                = (if gt_real mass 0 then get3 imp d / mass else 0)
                /\ position_weight node_m node_p node_imp dt d (Z.to_nat id)
                   = (if gt_real mass 0
                      then dt * (get3 mom d + get3 imp d) / mass else 0)).
      { intros d. unfold velocity_weight, position_weight.
        now rewrite (nth_error_nth _ _ 0 Nm), (nth_error_nth _ _ zero3 Np),
          (nth_error_nth _ _ zero3 Ni). }
      destruct (gt_real mass 0) eqn:G.
      * assert (G' : mass <> 0) by now apply Qclt_not_zero, gt_real_spec.
        split; [exact Q1|]. split; [exact Q2|]. split; [exact Q3|].
        intros d. destruct (Q4 d) as [Qv Qr]. destruct (W d) as [Wv Wr].
        rewrite !(sum_map_firstn_S _ _ _ _ Ec). cbn [fst snd].
        rewrite Wv, Wr.
        unfold part in Qv, Qr.
        destruct d; cbn [get3] in Qv, Qr |- *;
          cbn [flip_update with_r with_v r v set3 get3 c0 c1 c2];
          rewrite Qv, Qr; split; field; exact G'.
      * split; [exact Q1|]. split; [exact Q2|]. split; [exact Q3|].
        intros d. destruct (Q4 d) as [Qv Qr]. destruct (W d) as [Wv Wr].
        rewrite !(sum_map_firstn_S _ _ _ _ Ec). cbn [fst snd].
        unfold part in Qv, Qr. rewrite Wv, Wr, Qv, Qr. split; ring.
  - exists p'. split; [exact Hr|]. split; [exact Hm|].
    intros d. destruct (HI d) as [Hv Hx]. unfold part in Hv, Hx.
    rewrite firstn_all2 in Hv, Hx.
    + split; assumption.
    + rewrite length_combine, length_range. destruct Hloc as (H1 & H2 & _). lia.
    + rewrite length_combine, length_range. destruct Hloc as (H1 & H2 & _). lia.
Qed.

Lemma sum_mapi_from_ext {A B} (f : nat -> A -> real) (g : nat -> B -> real)
    (o : nat) (l : list A) (l' : list B) :
  List.length l = List.length l' ->
  (forall k a b, nth_error l k = Some a -> nth_error l' k = Some b ->
                 f (o + k)%nat a = g (o + k)%nat b) ->
  sum_real (mapi_from f o l) = sum_real (mapi_from g o l').
Proof.
  revert o l'. induction l as [|a l IH]; intros o [|b l'] HL H;
    try discriminate; [reflexivity|].
  cbn [mapi_from]. rewrite !sum_real_cons. f_equal.
  - specialize (H O a b eq_refl eq_refl). now rewrite Nat.add_0_r in H.
  - apply IH; [now injection HL|].
    intros k x y Hx Hy. replace (S o + k)%nat with (o + S k)%nat by lia.
    now apply H.
Qed.

Lemma sum_mapi_from_plus {A} (f g : nat -> A -> real) (c : real) (o : nat)
    (l : list A) :
  sum_real (mapi_from (fun n a => c * (f n a + g n a)) o l)
  = c * (sum_real (mapi_from f o l) + sum_real (mapi_from g o l)).
Proof.
  revert o. induction l as [|a l IH]; intros o; cbn [mapi_from].
  - cbn. ring.
  - rewrite !sum_real_cons, IH. ring.
Qed.

Lemma weighted_velocity_sum (node_m : list real) (node_imp : list vec3)
    (d : dim) :
  List.length node_imp = List.length node_m ->
  weighted_sum (velocity_weight node_m node_imp d) 0 node_m
  = massive_sum node_m d node_imp.
Proof.
  intros HL. unfold weighted_sum, massive_sum.
  apply sum_mapi_from_ext; [now symmetry|].
  intros k mass imp Hm Hi. cbn [Nat.add]. unfold velocity_weight.
  rewrite (nth_error_nth _ _ 0 Hm), (nth_error_nth _ _ zero3 Hi).
  destruct (gt_real mass 0) eqn:G; [|ring].
  apply gt_real_spec, Qclt_not_zero in G. now field.
Qed.

Lemma weighted_position_sum (node_m : list real) (node_p node_imp : list vec3)
    (dt : real) (d : dim) :
  List.length node_p = List.length node_m ->
  List.length node_imp = List.length node_m ->
  weighted_sum (position_weight node_m node_p node_imp dt d) 0 node_m
  = dt * (massive_sum node_m d node_p + massive_sum node_m d node_imp).
Proof.
  intros HP HL. unfold weighted_sum, massive_sum.
  rewrite (sum_mapi_from_ext
             (fun n (a : vec3) =>
                if gt_real (nth n node_m 0) 0 then get3 a d else 0)
             (fun n (_ : real) =>
                if gt_real (nth n node_m 0) 0
                then get3 (nth n node_p zero3) d else 0)
             0 node_p node_m HP).
  2:{ intros k a b Ha Hb. cbn [Nat.add].
      now rewrite (nth_error_nth _ _ zero3 Ha). }
  rewrite (sum_mapi_from_ext
             (fun n (a : vec3) =>
                if gt_real (nth n node_m 0) 0 then get3 a d else 0)
             (fun n (_ : real) =>
                if gt_real (nth n node_m 0) 0
                then get3 (nth n node_imp zero3) d else 0)
             0 node_imp node_m HL).
  2:{ intros k a b Ha Hb. cbn [Nat.add].
      now rewrite (nth_error_nth _ _ zero3 Ha). }
  rewrite <- sum_mapi_from_plus.
  apply sum_mapi_from_ext; [reflexivity|].
  intros k mass mass' Hm Hm'. cbn [Nat.add]. unfold position_weight.
  rewrite (nth_error_nth _ _ 0 Hm).
  destruct (gt_real mass 0) eqn:G; [|ring].
  apply gt_real_spec, Qclt_not_zero in G. now field.
Qed.

Lemma sum_gain (f g h : Particle -> real) (l l' : list Particle) :
  Forall2 (fun p p' => g p' = f p + h p) l l' ->
  sum_real (map g l') = sum_real (map f l) + sum_real (map h l).
Proof.
  induction 1 as [|p p' l l' Hp _ IH]; cbn [map].
  - cbn. ring.
  - rewrite !sum_real_cons, IH, Hp. ring.
Qed.

(** X15: step 6 hands the particles the impulse of the nodes.  When
    [node_m] is the nodal mass that [calculateNodalMass] scatters from the
    same particles, [updateParticlePositionAndVelocity] changes the momentum
    of the particles, [sum of m * v[d]], by the sum of [node_imp[n][d]] over
    the nodes with a strictly positive mass, and the first moment
    [sum of m * r[d]] by [delta_t] times the sum of
    [node_p[n][d] + node_imp[n][d]] over the same nodes.  The basis values
    need not sum to one. *)
Theorem flip_momentum_balance (pm : ProblemManager)
    (node_m0 node_m : list real) (node_imp node_p : list vec3)
    (delta_t : real) :
  Forall (located (nodesPerCell (d_mesh pm)) (List.length node_m0))
         (d_particles pm) ->
  result (calculateNodalMass pm node_m0) = Ok node_m ->
  List.length node_p = List.length node_m0 ->
  List.length node_imp = List.length node_m0 ->
  exists pm',
    result (updateParticlePositionAndVelocity pm node_imp node_p node_m
                                              delta_t) = Ok pm'
    /\ forall d,
         sum_real (map (fun p => m p * get3 (v p) d) (d_particles pm'))
         = sum_real (map (fun p => m p * get3 (v p) d) (d_particles pm))
           + massive_sum node_m d node_imp
         /\ sum_real (map (fun p => m p * get3 (r p) d) (d_particles pm'))
            = sum_real (map (fun p => m p * get3 (r p) d) (d_particles pm))
              + delta_t * (massive_sum node_m d node_p
                           + massive_sum node_m d node_imp).
Proof.
  intros Hloc Hmass Hlp Hli.
  assert (HL : List.length node_m = List.length node_m0).
  { destruct (calculateNodalMass_total pm node_m0 Hloc) as (s & Hs & HL).
    congruence. }
  assert (Hw : forall w,
            weighted_sum w 0 node_m
            = sum_real (map (fun p => m p * gathered w p) (d_particles pm))).
  { intros w.
    destruct (calculateNodalMass_weighted w pm node_m0 Hloc)
      as (s & Hs & _ & HS). congruence. }
  unfold updateParticlePositionAndVelocity.
  match goal with |- context [for_each_mut ?body ?ps] =>
    destruct (for_each_mut_Forall2
      (fun p p' =>
         m p' = m p
         /\ forall d,
              get3 (v p') d
              = get3 (v p) d + gathered (velocity_weight node_m node_imp d) p
              /\ get3 (r p') d
                 = get3 (r p) d
                   + gathered (position_weight node_m node_p node_imp
                                               delta_t d) p)
      body ps) as [ps' [Hr HF]]
  end.
  - intros p Hp. rewrite Forall_forall in Hloc.
    apply updateParticle_gathered; try congruence.
    rewrite HL. now apply Hloc.
  - exists (with_particles pm ps'). split.
    + rewrite (result_bind_ok _ _ _ Hr). reflexivity.
    + intros d. cbn [d_particles with_particles]. split.
      * rewrite <- weighted_velocity_sum by congruence. rewrite Hw.
        apply sum_gain. revert HF. apply Forall2_weaken.
        intros p p' [Hm Hd]. rewrite Hm, (proj1 (Hd d)). ring.
      * rewrite <- weighted_position_sum by congruence. rewrite Hw.
        apply sum_gain. revert HF. apply Forall2_weaken.
        intros p p' [Hm Hd]. rewrite Hm, (proj2 (Hd d)). ring.
Qed.

Lemma flip_momentum_balance_witness :
  exists node_m pm',
    result (calculateNodalMass (bar_located true) [0; 0; 0]) = Ok node_m
    /\ result (updateParticlePositionAndVelocity (bar_located true)
                 [mk3 0 0 1; zero3; zero3] [zero3; zero3; zero3] node_m half)
       = Ok pm'
    /\ forall d,
         sum_real (map (fun p => m p * get3 (v p) d) (d_particles pm'))
         = sum_real (map (fun p => m p * get3 (v p) d)
                         (d_particles (bar_located true)))
           + massive_sum node_m d [mk3 0 0 1; zero3; zero3].
Proof.
  destruct (result (calculateNodalMass (bar_located true) [0; 0; 0]))
    as [node_m|e] eqn:E.
  - exists node_m.
    destruct (flip_momentum_balance (bar_located true) [0; 0; 0] node_m
                [mk3 0 0 1; zero3; zero3] [zero3; zero3; zero3] half
                (bar_located_located true) E eq_refl eq_refl)
      as (pm' & Hr & Hd).
    exists pm'. split; [reflexivity|]. split; [exact Hr|].
    intros d. apply (proj1 (Hd d)).
  - vm_compute in E. discriminate E.
Defined.

(** ** A uniform velocity *)

Lemma weighted_component_list_set (w : nat -> real) (d : dim) (s : list vec3)
    (k : nat) (a x : vec3) :
  nth_error s k = Some a ->
  weighted_component w d (list_set s k x)
  = weighted_component w d s - w k * get3 a d + w k * get3 x d.
Proof.
  intros H. unfold weighted_component. rewrite mapi_from_list_set.
  apply sum_real_list_set. now rewrite nth_error_mapi_from, H.
Qed.

Lemma weighted_component_zeros {A} (w : nat -> real) (d : dim) (l : list A) :
  weighted_component w d (map (fun _ => fill3 0) l) = 0.
Proof.
  unfold weighted_component. generalize 0%nat.
  induction l as [|a l IH]; intros o; [reflexivity|].
  cbn [map mapi_from]. rewrite sum_real_cons, IH.
  destruct d; cbn [get3 fill3 c0 c1 c2]; ring.
Qed.

(** The scatter of the momentum, seen through the weights. *)
Lemma scatter_momentum_weighted (w : nat -> real) (pm : ProblemManager)
    (d : dim) (node_p : list vec3) :
  Forall (located (nodesPerCell (d_mesh pm)) (List.length node_p))
         (d_particles pm) ->
  exists node_p',
    result (scatter_momentum pm node_p) = Ok node_p'
    /\ List.length node_p' = List.length node_p
    /\ weighted_component w d node_p'
       = weighted_component w d node_p
         + sum_real (map (fun p => m p * get3 (v p) d * gathered w p)
                         (d_particles pm)).
Proof.
  intros Hloc. unfold scatter_momentum.
  pose (I := fun (k : nat) (s : list vec3) =>
     List.length s = List.length node_p
     /\ weighted_component w d s
        = weighted_component w d node_p
          + sum_real (map (fun p => m p * get3 (v p) d * gathered w p)
                          (firstn k (d_particles pm)))).
  match goal with |- exists _, result (for_each _ ?body _) = _ /\ _ =>
    destruct (for_each_inv I (d_particles pm) body node_p) as [s' [Hr [HL HS]]]
  end.
  - split; auto. simpl. ring.
  - intros k p s Hp [HL HS].
    assert (Hlp : located (nodesPerCell (d_mesh pm)) (List.length s) p).
    { rewrite HL. rewrite Forall_forall in Hloc.
      apply Hloc, (nth_error_In _ _ Hp). }
    pose (J := fun (j : nat) (t : list vec3) =>
       List.length t = List.length s
       /\ weighted_component w d t
          = weighted_component w d s
            + m p * get3 (v p) d
              * sum_real
                  (map (fun idb : Z * real =>
                          snd idb * w (Z.to_nat (fst idb)))
                       (firstn j (combine (node_ids p) (basis_values p))))).
    match goal with |- exists _, result (for_each _ ?body _) = _ /\ _ =>
      destruct (for_each_inv J (range (nodesPerCell (d_mesh pm))) body s)
        as [t' [Hr' [HL' HS']]]
    end.
    + split; auto. simpl. ring.
    + intros j x t Hx [Ht HSt]. apply nth_error_range in Hx.
      destruct Hx as [-> Hj].
      assert (Hlt : located (nodesPerCell (d_mesh pm)) (List.length t) p)
        by now rewrite Ht.
      destruct (scatter_momentum_node _ p j t Hlt Hj)
        as (id & b & a & E1 & E2 & Ha & ->).
      eexists. split; [reflexivity|]. split; [now rewrite length_list_set|].
      rewrite (weighted_component_list_set _ _ _ _ _ _ Ha), HSt,
        (sum_map_firstn_S _ _ _ _ (nth_error_combine _ _ _ _ _ E1 E2)).
      cbn [fst snd]. destruct d; cbn [get3 c0 c1 c2]; ring.
    + exists t'. split; [exact Hr'|]. split; [congruence|].
      rewrite length_range, firstn_all2 in HS'
        by (rewrite length_combine; destruct Hlp as (H1 & H2 & _); lia).
      rewrite HS', HS,
        (sum_map_firstn_S (fun p => m p * get3 (v p) d * gathered w p)
                          _ _ _ Hp).
      unfold gathered. ring.
  - exists s'. split; [exact Hr|]. split; auto. now rewrite HS, firstn_all.
Qed.

Lemma node_weight_sum {A} (f : A -> real) (n : nat) (l : list A) (o : nat) :
  sum_real (mapi_from (fun k a => node_weight n k * f a) o l)
  = if (o <=? n)%nat
    then match nth_error l (n - o) with Some a => f a | None => 0 end
    else 0.
Proof.
  revert o. induction l as [|a l IH]; intros o; cbn [mapi_from].
  - destruct (o <=? n)%nat; [|reflexivity].
    now destruct (n - o)%nat.
  - rewrite sum_real_cons, IH. unfold node_weight.
    destruct (Nat.eqb_spec o n) as [->|Hne].
    + rewrite Nat.leb_refl, Nat.sub_diag.
      destruct (Nat.leb_spec (S n) n); [lia|]. cbn [nth_error]. ring.
    + destruct (Nat.leb_spec o n) as [Hle|Hgt].
      * destruct (Nat.leb_spec (S o) n); [|lia].
        replace (n - o)%nat with (S (n - S o)) by lia. cbn [nth_error]. ring.
      * destruct (Nat.leb_spec (S o) n); [lia|]. ring.
Qed.

(** X16: step 7 returns a uniform velocity as it is.  When every particle
    has the velocity [u] and [node_m] is the nodal mass that
    [calculateNodalMass] scatters from the same particles, the velocity
    [calculateNodalVelocity] has before its boundary conditions is [u] at
    every node with a strictly positive mass, and zero at the others: the
    mass-weighted average of equal velocities is that velocity, whatever the
    basis values are. *)
Theorem uniform_velocity_transfer (pm : ProblemManager) (u : vec3)
    (node_m0 node_m : list real) (node_p node_imp node_v0 : list vec3) :
  Forall (located (nodesPerCell (d_mesh pm)) (List.length node_m0))
         (d_particles pm) ->
  Forall (fun p => v p = u) (d_particles pm) ->
  result (calculateNodalMass pm node_m0) = Ok node_m ->
  totalNumNodes (d_mesh pm) = Z.of_nat (List.length node_m0) ->
  List.length node_v0 = List.length node_m0 ->
  result (nodalVelocityBeforeBC pm node_p node_imp node_m node_v0)
  = Ok (map (fun mass => if gt_real mass 0 then u else zero3) node_m).
Proof.
  intros Hloc Hu Hmass Hn Hlv.
  assert (HL : List.length node_m = List.length node_m0).
  { destruct (calculateNodalMass_total pm node_m0 Hloc) as (s & Hs & HL).
    congruence. }
  assert (Hw : forall w,
            weighted_sum w 0 node_m
            = sum_real (map (fun p => m p * gathered w p) (d_particles pm))).
  { intros w.
    destruct (calculateNodalMass_weighted w pm node_m0 Hloc)
      as (s & Hs & _ & HS). congruence. }
  unfold nodalVelocityBeforeBC.
  set (z := map (fun _ => fill3 0) node_v0).
  assert (Hz : List.length z = List.length node_m0)
    by (unfold z; now rewrite length_map).
  assert (Hlocz : Forall (located (nodesPerCell (d_mesh pm)) (List.length z))
                         (d_particles pm)) by now rewrite Hz.
  destruct (scatter_momentum_total pm z Hlocz) as (sp & Hsp & Hlsp).
  assert (Hpoint : forall n d a mass,
            nth_error sp n = Some a -> nth_error node_m n = Some mass ->
            get3 a d = get3 u d * mass).
  { intros n d a mass Ha Hm.
    destruct (scatter_momentum_weighted (node_weight n) pm d z Hlocz)
      as (sp' & Hsp' & _ & HS).
    assert (sp' = sp) as -> by congruence.
    unfold z in HS. rewrite weighted_component_zeros in HS.
    unfold weighted_component in HS.
    rewrite (node_weight_sum (fun a => get3 a d) n sp 0) in HS.
    cbn [Nat.leb] in HS. rewrite Nat.sub_0_r, Ha in HS. rewrite HS.
    assert (E : map (fun p => m p * get3 (v p) d * gathered (node_weight n) p)
                    (d_particles pm)
                = map (fun p => get3 u d * (m p * gathered (node_weight n) p))
                      (d_particles pm)).
    { apply map_ext_in. intros p Hp. rewrite Forall_forall in Hu.
      rewrite (Hu p Hp). ring. }
    rewrite E.
    assert (Sc : forall (c : real) (f : Particle -> real) l,
              sum_real (map (fun p => c * f p) l) = c * sum_real (map f l)).
    { intros c f l. induction l as [|p l IH]; cbn [map].
      - cbn. ring.
      - rewrite !sum_real_cons, IH. ring. }
    rewrite Sc, <- Hw. unfold weighted_sum.
    rewrite (node_weight_sum (fun a => a) n node_m 0).
    cbn [Nat.leb]. rewrite Nat.sub_0_r, Hm. ring. }
  rewrite (result_bind_ok _ _ _ Hsp).
  rewrite divideByNodalMass_result by congruence.
  f_equal. apply nth_error_ext. intros k.
  rewrite nth_error_mapi_from, nth_error_map. cbn [Nat.add].
  destruct (nth_error sp k) as [a|] eqn:Ha;
    destruct (nth_error node_m k) as [mass|] eqn:Hm; cbn [option_map].
  - f_equal. unfold nodal_velocity. rewrite (nth_error_nth _ _ 0 Hm).
    destruct (gt_real mass 0) eqn:G; [|reflexivity].
    apply gt_real_spec, Qclt_not_zero in G.
    assert (H0 := Hpoint k d0 a mass Ha Hm).
    assert (H1 := Hpoint k d1 a mass Ha Hm).
    assert (H2 := Hpoint k d2 a mass Ha Hm).
    cbn [get3] in H0, H1, H2. rewrite H0, H1, H2.
    destruct u as [ux uy uz]. cbn [c0 c1 c2]. f_equal; now field.
  - apply nth_error_None in Hm. apply nth_error_lt in Ha. lia.
  - apply nth_error_None in Ha. apply nth_error_lt in Hm. lia.
  - reflexivity.
Qed.

Lemma rigid_located_located :
  Forall (located (nodesPerCell (d_mesh rigid_located)) 3)
         (d_particles rigid_located).
Proof. repeat constructor; cbv; intros; discriminate. Qed.

Lemma uniform_velocity_transfer_witness :
  exists node_m,
    result (calculateNodalMass rigid_located [0; 0; 0]) = Ok node_m
    /\ result (nodalVelocityBeforeBC rigid_located [] [] node_m
                 [zero3; zero3; zero3])
       = Ok (map (fun mass => if gt_real mass 0 then mk3 1 0 0 else zero3)
                 node_m).
Proof.
  destruct (result (calculateNodalMass rigid_located [0; 0; 0]))
    as [node_m|e] eqn:E.
  - exists node_m. split; [reflexivity|].
    apply (uniform_velocity_transfer rigid_located (mk3 1 0 0) [0; 0; 0]
             node_m [] [] [zero3; zero3; zero3] rigid_located_located).
    + repeat constructor.
    + exact E.
    + reflexivity.
    + reflexivity.
  - vm_compute in E. discriminate E.
Defined.

Lemma sum_combine_uniform (ids : list Z) (gs : list vec3) (node_v : list vec3)
    (u : vec3) (i j : dim) :
  List.length ids = List.length gs ->
  Forall (fun id => nth (Z.to_nat id) node_v zero3 = u) ids ->
  sum_real
    (map (fun idg : Z * vec3 =>
            get3 (snd idg) i * get3 (nth (Z.to_nat (fst idg)) node_v zero3) j)
         (combine ids gs))
  = sum_component i gs * get3 u j.
Proof.
  revert gs. induction ids as [|id ids IH]; intros [|g gs] HL HU;
    try discriminate.
  - unfold sum_component. cbn. ring.
  - inversion HU as [|? ? Hid Hids]; subst.
    unfold sum_component in *. cbn [combine map fst snd].
    rewrite !sum_real_cons, IH by (auto; now injection HL). ring.
Qed.

Lemma determinant_identity (dt : real) :
  TensorTools.determinant (identity_plus dt zero33) = 1.
Proof.
  unfold TensorTools.determinant, identity_plus, mat_tab, zero33, zero3, fill3.
  cbn [get33 get3 c0 c1 c2 dim_eqb]. ring.
Qed.

(** X17: step 8 does not deform a particle whose adjacent nodes all have the
    same velocity, when its basis gradients sum to zero: the velocity
    gradient is zero, and the deformation gradient and the volume are left
    as they are. *)
Theorem uniform_velocity_no_deformation (pm : ProblemManager)
    (node_v : list vec3) (delta_t : real) (u : vec3) :
  Forall (located (nodesPerCell (d_mesh pm)) (List.length node_v))
         (d_particles pm) ->
  Forall (fun p =>
            Forall (fun id => nth (Z.to_nat id) node_v zero3 = u) (node_ids p))
         (d_particles pm) ->
  Forall (fun p => forall j, sum_component j (basis_gradients p) = 0)
         (d_particles pm) ->
  exists pm',
    result (updateParticleGradients pm node_v delta_t) = Ok pm'
    /\ Forall2 (fun p p' => grad_v p' = zero33 /\ F p' = F p
                            /\ volume p' = volume p)
               (d_particles pm) (d_particles pm').
Proof.
  intros Hloc Hu Hg. unfold updateParticleGradients.
  match goal with |- context [for_each_mut ?body ?ps] =>
    destruct (for_each_mut_Forall2
      (fun p p' => grad_v p' = zero33 /\ F p' = F p /\ volume p' = volume p)
      body ps) as [ps' [Hr HF]]
  end.
  - intros p Hp. rewrite Forall_forall in Hloc, Hu, Hg.
    eexists. split; [apply updateParticleGradients_body_spec, Hloc, Hp|].
    cbn [F grad_v volume with_volume with_F with_grad_v].
    assert (E : velocity_gradient p node_v = zero33).
    { unfold velocity_gradient, mat_tab.
      destruct (Hloc p Hp) as (H1 & _ & H3 & _).
      assert (S : forall i j,
        sum_real
          (map (fun idg : Z * vec3 =>
                  get3 (snd idg) i
                  * get3 (nth (Z.to_nat (fst idg)) node_v zero3) j)
               (combine (node_ids p) (basis_gradients p))) = 0).
      { intros i j.
        rewrite (sum_combine_uniform _ _ _ u) by (auto; congruence).
        rewrite (Hg p Hp). ring. }
      now rewrite !S. }
    rewrite E, deformed_zero, determinant_identity.
    repeat split. ring.
  - exists (with_particles pm ps'). split; [|exact HF].
    rewrite (result_bind_ok _ _ _ Hr). reflexivity.
Qed.

Lemma uniform_velocity_no_deformation_witness :
  exists pm',
    result (updateParticleGradients rigid_located
              [mk3 1 0 0; mk3 1 0 0; mk3 1 0 0] half) = Ok pm'
    /\ Forall2 (fun p p' => grad_v p' = zero33 /\ F p' = F p
                            /\ volume p' = volume p)
               (d_particles rigid_located) (d_particles pm').
Proof.
  apply (uniform_velocity_no_deformation rigid_located
           [mk3 1 0 0; mk3 1 0 0; mk3 1 0 0] half (mk3 1 0 0)
           rigid_located_located).
  - repeat constructor.
  - repeat constructor; intros j; destruct j; apply Qc_is_canon; reflexivity.
Defined.

(** ** The nodal mass, node by node *)

Lemma sum_real_map_zero_in {A} (f : A -> real) (l : list A) :
  (forall x, In x l -> f x = 0) -> sum_real (map f l) = 0.
Proof.
  intros H. induction l as [|a l IH]; [reflexivity|].
  cbn [map]. rewrite sum_real_cons, H, IH by (try (now left); intros;
    apply H; now right). ring.
Qed.

Lemma sum_real_nonneg (l : list real) :
  Forall (fun x => 0 <= x) l -> 0 <= sum_real l.
Proof.
  induction 1 as [|x l Hx _ IH]; [apply Qcle_refl|].
  rewrite sum_real_cons. replace 0 with (0 + 0) by ring.
  now apply Qcplus_le_compat.
Qed.

Lemma Qcmult_nonneg (a b : real) : 0 <= a -> 0 <= b -> 0 <= a * b.
Proof.
  intros Ha Hb. replace 0 with (0 * b) by ring.
  now apply Qcmult_le_compat_r.
Qed.

Lemma gathered_nonneg (n : nat) (p : Particle) :
  Forall (fun b => 0 <= b) (basis_values p) ->
  0 <= gathered (node_weight n) p.
Proof.
  intros Hb. unfold gathered. apply sum_real_nonneg.
  apply Forall_forall. intros x Hx. apply in_map_iff in Hx.
  destruct Hx as ([id b] & <- & Hin). cbn [fst snd].
  apply in_combine_r in Hin. rewrite Forall_forall in Hb.
  apply Qcmult_nonneg; [now apply Hb|].
  unfold node_weight. destruct (Nat.eqb (Z.to_nat id) n);
    [|apply Qcle_refl].
  apply Qclt_le_weak. reflexivity.
Qed.

Lemma gathered_not_adjacent (n : nat) (p : Particle) :
  Forall (fun id => (0 <= id)%Z) (node_ids p) ->
  ~ In (Z.of_nat n) (node_ids p) ->
  gathered (node_weight n) p = 0.
Proof.
  intros Hpos Hn. unfold gathered. apply sum_real_map_zero_in.
  intros [id b] Hin. cbn [fst snd]. apply in_combine_l in Hin.
  unfold node_weight. destruct (Nat.eqb_spec (Z.to_nat id) n) as [E|_];
    [|ring].
  exfalso. apply Hn. rewrite Forall_forall in Hpos.
  specialize (Hpos _ Hin). now replace (Z.of_nat n) with id by lia.
Qed.

Lemma nodal_mass_sum (pm : ProblemManager) (node_m0 : list real) :
  Forall (located (nodesPerCell (d_mesh pm)) (List.length node_m0))
         (d_particles pm) ->
  exists node_m,
    result (calculateNodalMass pm node_m0) = Ok node_m
    /\ List.length node_m = List.length node_m0
    /\ forall n,
         (n < List.length node_m0)%nat ->
         nth n node_m 0
         = sum_real (map (fun p => m p * gathered (node_weight n) p)
                         (d_particles pm)).
Proof.
  intros Hloc.
  destruct (calculateNodalMass_total pm node_m0 Hloc) as (node_m & Hr & HL).
  exists node_m. split; [exact Hr|]. split; [exact HL|].
  intros n Hn.
  destruct (calculateNodalMass_weighted (node_weight n) pm node_m0 Hloc)
    as (s & Hs & _ & HS).
  assert (s = node_m) as -> by congruence.
  rewrite <- HS. unfold weighted_sum.
  rewrite (node_weight_sum (fun a => a) n node_m 0).
  cbn [Nat.leb]. rewrite Nat.sub_0_r.
  destruct (nth_error node_m n) as [a|] eqn:Ha.
  - apply (nth_error_nth _ _ 0 Ha).
  - apply nth_error_None in Ha. lia.
Qed.

(** X18: the nodal mass, node by node.  After [calculateNodalMass] the mass
    of the node [n] is the sum over the particles of [m] times the sum of
    the basis values the particle has for [n] among its adjacent nodes,
    whatever [node_m] held before.  Hence a node adjacent to no particle has
    the mass zero, and no nodal mass is negative when no particle mass and
    no basis value is: the test [node_m[n] > 0] of the steps 6 and 7 fails
    on nodes without mass only. *)
Theorem nodal_mass_pointwise (pm : ProblemManager) (node_m0 : list real) :
  Forall (located (nodesPerCell (d_mesh pm)) (List.length node_m0))
         (d_particles pm) ->
  exists node_m,
    result (calculateNodalMass pm node_m0) = Ok node_m
    /\ List.length node_m = List.length node_m0
    /\ forall n,
         (n < List.length node_m0)%nat ->
         nth n node_m 0
         = sum_real (map (fun p => m p * gathered (node_weight n) p)
                         (d_particles pm))
         /\ (Forall (fun p => ~ In (Z.of_nat n) (node_ids p)) (d_particles pm) ->
             nth n node_m 0 = 0)
         /\ (Forall (fun p => 0 <= m p
                              /\ Forall (fun b => 0 <= b) (basis_values p))
                    (d_particles pm) ->
             0 <= nth n node_m 0).
Proof.
  intros Hloc.
  destruct (nodal_mass_sum pm node_m0 Hloc) as (node_m & Hr & HL & Hpoint).
  exists node_m. split; [exact Hr|]. split; [exact HL|].
  intros n Hn. assert (E := Hpoint n Hn).
  split; [exact E|]. split.
  - intros Hnone. rewrite E. apply sum_real_map_zero_in. intros p Hp.
    rewrite Forall_forall in Hnone, Hloc.
    rewrite gathered_not_adjacent; [ring| |now apply Hnone].
    destruct (Hloc p Hp) as (_ & _ & _ & Hids).
    revert Hids. apply Forall_impl. intros id. lia.
  - intros Hpos. rewrite E. apply sum_real_nonneg.
    apply Forall_forall. intros x Hx. apply in_map_iff in Hx.
    destruct Hx as (p & <- & Hp). rewrite Forall_forall in Hpos.
    destruct (Hpos p Hp) as [Hm Hb].
    apply Qcmult_nonneg; [exact Hm|now apply gathered_nonneg].
Qed.

Lemma nodal_mass_pointwise_witness :
  exists node_m,
    result (calculateNodalMass (bar_located true) [1; 1; 1]) = Ok node_m
    /\ List.length node_m = 3%nat
    /\ nth 1 node_m 0
       = sum_real (map (fun p => m p * gathered (node_weight 1) p)
                       (d_particles (bar_located true))).
Proof.
  destruct (nodal_mass_pointwise (bar_located true) [1; 1; 1]
              (bar_located_located true)) as (node_m & Hr & HL & Hn).
  exists node_m. split; [exact Hr|]. split; [exact HL|].
  apply (proj1 (Hn 1%nat ltac:(simpl; lia))).
Defined.

(** ** The mesh fields between two time steps *)

Lemma map_const_length {A B C} (c : C) (l : list A) (l' : list B) :
  List.length l = List.length l' ->
  map (fun _ => c) l = map (fun _ => c) l'.
Proof.
  revert l'. induction l as [|a l IH]; intros [|b l'] H; try discriminate;
    [reflexivity|].
  cbn [map]. f_equal. apply IH. now injection H.
Qed.

Lemma bind_ext_ok {A B} (c : M A) (k k' : A -> M B) :
  (forall a, result c = Ok a -> k a = k' a) -> bind c k = bind c k'.
Proof.
  intros H. destruct c as [t [a|e]]; [|reflexivity].
  cbn [bind]. now rewrite (H a eq_refl).
Qed.

Lemma vec_modify_length {A} (l l' : list A) (i : Z) (f : A -> A) :
  result (vec_modify l i f) = Ok l' -> List.length l' = List.length l.
Proof.
  unfold vec_modify. intros H.
  apply result_bind_inv in H. destruct H as [a [_ H]].
  cbn in H. injection H as <-. apply length_list_set.
Qed.

Lemma calculateNodalMass_length (pm : ProblemManager)
    (node_m node_m' : list real) :
  result (calculateNodalMass pm node_m) = Ok node_m' ->
  List.length node_m' = List.length node_m.
Proof.
  unfold calculateNodalMass.
  apply (for_each_ok_inv (fun s => List.length s = List.length node_m));
    [apply length_map|].
  intros p s s' _ Hs.
  apply (for_each_ok_inv (fun t => List.length t = List.length node_m));
    [exact Hs|].
  intros n t t' _ Ht H.
  apply result_bind_inv in H. destruct H as [id [_ H]].
  apply result_bind_inv in H. destruct H as [b [_ H]].
  apply vec_modify_length in H. congruence.
Qed.

Lemma calculateInternalNodalForces_length (pm : ProblemManager)
    (node_f node_f' : list vec3) :
  result (calculateInternalNodalForces pm node_f) = Ok node_f' ->
  List.length node_f' = List.length node_f.
Proof.
  unfold calculateInternalNodalForces.
  apply (for_each_ok_inv (fun s => List.length s = List.length node_f));
    [apply length_map|].
  intros p s s' _ Hs H.
  apply result_bind_inv in H. destruct H as [u [_ H]]. revert H.
  apply (for_each_ok_inv (fun t => List.length t = List.length node_f));
    [exact Hs|].
  intros n t t' _ Ht H.
  apply result_bind_inv in H. destruct H as [id [_ H]]. revert H.
  apply (for_each_ok_inv (fun t => List.length t = List.length node_f));
    [exact Ht|].
  intros i t1 t1' _ Ht1.
  apply (for_each_ok_inv (fun t => List.length t = List.length node_f));
    [exact Ht1|].
  intros j t2 t2' _ Ht2 H.
  apply result_bind_inv in H. destruct H as [g [_ H]].
  apply vec_modify_length in H. congruence.
Qed.

Lemma events_none {A} (c : M A) :
  Forall (fun _ => False) (events c) -> events c = [].
Proof.
  destruct (events c) as [|e l]; [reflexivity|].
  intros H. inversion H; contradiction.
Qed.

Lemma M_ext {A} (c c' : M A) :
  events c = events c' -> result c = result c' -> c = c'.
Proof.
  destruct c as [t x], c' as [t' x']. cbn. now intros -> ->.
Qed.

Lemma calculateNodalImpulse_scratch (pm : ProblemManager)
    (node_f_int : list vec3) (node_m : list real) (dt : real)
    (node_imp node_imp' : list vec3) :
  totalNumNodes (d_mesh pm) = Z.of_nat (List.length node_imp) ->
  List.length node_f_int = List.length node_imp ->
  List.length node_m = List.length node_imp ->
  List.length node_imp' = List.length node_imp ->
  calculateNodalImpulse pm node_f_int node_m dt node_imp'
  = calculateNodalImpulse pm node_f_int node_m dt node_imp.
Proof.
  intros Hn Hf Hm Hl.
  assert (E : forall imp,
            events (calculateNodalImpulse pm node_f_int node_m dt imp) = []).
  { intros imp. apply events_none.
    unfold calculateNodalImpulse, impulseBoundaryConditions. events_tac. }
  apply M_ext; [now rewrite !E|].
  rewrite !calculateNodalImpulse_before_bc by congruence. reflexivity.
Qed.

(** X19: the five mesh fields carry nothing from one time step to the next.
    A time step that starts from fields with one entry per node of the mesh
    performs the same events and returns the same particles and the same
    fields whatever the entries are: [node_m], [node_p], [node_f_int] and
    [node_v] are zeroed before they are accumulated, and [node_imp] is
    overwritten at every node. *)
Theorem timestep_fields_are_scratch (time_step_size : real)
    (pm : ProblemManager) (nf nf' : NodalFields) :
  (0 <= totalNumNodes (d_mesh pm))%Z ->
  fields_sized pm nf -> fields_sized pm nf' ->
  timestep time_step_size (pm, nf') = timestep time_step_size (pm, nf).
Proof.
  intros Hn (A1 & A2 & A3 & A4 & A5) (B1 & B2 & B3 & B4 & B5).
  unfold timestep. rewrite locateParticles_result, !bind_ret_l.
  set (pm1 := with_particles pm _).
  assert (Em : calculateNodalMass pm1 (nf_m nf')
               = calculateNodalMass pm1 (nf_m nf)).
  { unfold calculateNodalMass.
    now rewrite (map_const_length 0 (nf_m nf') (nf_m nf)) by congruence. }
  rewrite Em. apply bind_ext_ok. intros node_m Hm.
  apply calculateNodalMass_length in Hm.
  assert (Ep : calculateNodalMomentum pm1 node_m (nf_p nf')
               = calculateNodalMomentum pm1 node_m (nf_p nf)).
  { unfold calculateNodalMomentum, accumulateNodalMomentum.
    now rewrite (map_const_length (fill3 0) (nf_p nf') (nf_p nf))
      by congruence. }
  rewrite Ep. apply bind_ext. intros node_p.
  assert (Ef : calculateInternalNodalForces pm1 (nf_f_int nf')
               = calculateInternalNodalForces pm1 (nf_f_int nf)).
  { unfold calculateInternalNodalForces.
    now rewrite (map_const_length (fill3 0) (nf_f_int nf') (nf_f_int nf))
      by congruence. }
  rewrite Ef. apply bind_ext_ok. intros node_f Hf.
  apply calculateInternalNodalForces_length in Hf.
  rewrite (calculateNodalImpulse_scratch pm1 node_f node_m time_step_size
             (nf_imp nf) (nf_imp nf'))
    by (try congruence; change (d_mesh pm1) with (d_mesh pm); lia).
  apply bind_ext. intros node_imp. apply bind_ext. intros pm2.
  assert (Ev : calculateNodalVelocity pm2 node_p node_imp node_m (nf_v nf')
               = calculateNodalVelocity pm2 node_p node_imp node_m (nf_v nf)).
  { unfold calculateNodalVelocity, nodalVelocityBeforeBC.
    now rewrite (map_const_length (fill3 0) (nf_v nf') (nf_v nf))
      by congruence. }
  now rewrite Ev.
Qed.

Lemma timestep_fields_are_scratch_witness :
  timestep half
    (free_fall,
     mkNodalFields [1; 1; 1] [mk3 1 1 1; zero3; zero3]
                   [zero3; mk3 1 1 1; zero3] [zero3; zero3; mk3 1 1 1]
                   [mk3 1 0 0; mk3 0 1 0; mk3 0 0 1])
  = timestep half (free_fall, initial_fields free_fall).
Proof.
  apply (timestep_fields_are_scratch half free_fall
           (initial_fields free_fall)
           (mkNodalFields [1; 1; 1] [mk3 1 1 1; zero3; zero3]
                          [zero3; mk3 1 1 1; zero3] [zero3; zero3; mk3 1 1 1]
                          [mk3 1 0 0; mk3 0 1 0; mk3 0 0 1])).
  - cbn. lia.
  - repeat split.
  - repeat split.
Defined.

(** ** Divisions during a run *)


















(** ** Nodes without mass hold no momentum *)




(** ** Edge cases of [initialize] *)

(** X22: edge cases of [initialize].  A negative number of particles per
    cell fails in the allocation of the buffer of candidates, before a cell
    is visited.  With a mesh that reports no cell (or a negative number of
    cells) the loop over the cells does not run and the particles are left
    as they are, whatever the geometries are. *)
Theorem initialize_edge_cases (pm : ProblemManager)
    (geometry : list Geometry) (order : Z) :
  ((particlesPerCell (d_mesh pm) order < 0)%Z ->
   initialize pm geometry order = fail LengthError)
  /\ ((0 <= particlesPerCell (d_mesh pm) order)%Z ->
      (totalNumCells (d_mesh pm) <= 0)%Z ->
      initialize pm geometry order = ret (with_particles pm (d_particles pm))).
Proof.
  unfold initialize, vec_make. split.
  - intros H. destruct (Z.ltb_spec (particlesPerCell (d_mesh pm) order) 0);
      [reflexivity|lia].
  - intros H Hc. destruct (Z.ltb_spec (particlesPerCell (d_mesh pm) order) 0);
      [lia|].
    unfold range. replace (Z.to_nat (totalNumCells (d_mesh pm))) with O by lia.
    reflexivity.
Qed.

Lemma initialize_edge_cases_witness :
  initialize (bar_problem false) [] (-1) = fail LengthError
  /\ initialize (mkProblemManager no_cell_mesh false (fun _ => None) [] [])
                [sphere_geometry (Sphere.mkSphere (mk3 1 0 0) half) 7 1 zero3]
                2
     = ret (mkProblemManager no_cell_mesh false (fun _ => None) [] []).
Proof.
  split.
  - apply (proj1 (initialize_edge_cases (bar_problem false) [] (-1))).
    cbn. lia.
  - apply (proj2 (initialize_edge_cases
                    (mkProblemManager no_cell_mesh false (fun _ => None) [] [])
                    [sphere_geometry (Sphere.mkSphere (mk3 1 0 0) half) 7 1
                                     zero3] 2)); cbn; lia.
Defined.

(** ** Free fall *)

Lemma impulseBoundaryConditions_free (pm : ProblemManager)
    (node_m : list real) (field : list vec3) :
  free_impulse_boundaries pm ->
  result (impulseBoundaryConditions pm node_m field) = Ok field.
Proof.
  intros Hbc. unfold impulseBoundaryConditions.
  apply for_each_fixed. intros b Hb. apply In_range in Hb.
  destruct (Hbc b Hb) as [bc [E H]]. unfold bc_at. rewrite E, bind_ret_l.
  cbn [result ret snd]. f_equal. apply H.
Qed.

Lemma gathered_uniform (w : nat -> real) (c : real) (p : Particle) :
  List.length (node_ids p) = List.length (basis_values p) ->
  Forall (fun id => w (Z.to_nat id) = c) (node_ids p) ->
  gathered w p = sum_real (basis_values p) * c.
Proof.
  unfold gathered. generalize (basis_values p).
  induction (node_ids p) as [|id ids IH]; intros [|b bs] HL Hw;
    try discriminate.
  - cbn. ring.
  - assert (Hid := Forall_inv Hw). assert (Hids := Forall_inv_tail Hw).
    cbn [combine map fst snd]. rewrite !sum_real_cons, IH, Hid
      by (auto; now injection HL). ring.
Qed.

(** X23: free fall.  With the gravity on, free boundaries and no internal
    force, the steps 5 and 6 change the velocity of a particle by
    [- delta_t * 9.81] in the component z and by nothing in the two others,
    whatever the mesh and the masses are, when the basis values of the
    particle sum to one and all its adjacent nodes have a strictly positive
    mass. *)
Theorem gravity_accelerates_uniformly (pm : ProblemManager)
    (node_m : list real) (node_p node_imp0 : list vec3) (delta_t : real) :
  d_has_gravity pm = true ->
  free_impulse_boundaries pm ->
  totalNumNodes (d_mesh pm) = Z.of_nat (List.length node_m) ->
  List.length node_p = List.length node_m ->
  List.length node_imp0 = List.length node_m ->
  Forall (located (nodesPerCell (d_mesh pm)) (List.length node_m))
         (d_particles pm) ->
  Forall (fun p => sum_real (basis_values p) = 1) (d_particles pm) ->
  Forall (fun p =>
            Forall (fun id => 0 < nth (Z.to_nat id) node_m 0) (node_ids p))
         (d_particles pm) ->
  exists node_imp pm',
    result (calculateNodalImpulse pm (zero_field (List.length node_m)) node_m
                                  delta_t node_imp0) = Ok node_imp
    /\ result (updateParticlePositionAndVelocity pm node_imp node_p node_m
                                                 delta_t) = Ok pm'
    /\ Forall2 (fun p p' =>
                  get3 (v p') d0 = get3 (v p) d0
                  /\ get3 (v p') d1 = get3 (v p) d1
                  /\ get3 (v p') d2 = get3 (v p) d2 - delta_t * gravity)
               (d_particles pm) (d_particles pm').
Proof.
  intros Hg Hbc Hn Hlp Hli Hloc Hpu Hmassive.
  set (node_imp := mapi_from (impulse_before_bc true delta_t node_m) 0
                             (zero_field (List.length node_m))).
  assert (Himp : result (calculateNodalImpulse pm
                           (zero_field (List.length node_m)) node_m delta_t
                           node_imp0) = Ok node_imp).
  { rewrite calculateNodalImpulse_before_bc, Hg;
      [now apply impulseBoundaryConditions_free| | |]; try congruence.
    rewrite length_zero_field. congruence. }
  assert (Hlen : List.length node_imp = List.length node_m).
  { unfold node_imp. now rewrite length_mapi_from, length_zero_field. }
  assert (Hw : forall d p, In p (d_particles pm) ->
            gathered (velocity_weight node_m node_imp d) p
            = match d with d2 => - (delta_t * gravity) | _ => 0 end).
  { intros d p Hp. rewrite Forall_forall in Hloc, Hpu, Hmassive.
    destruct (Hloc p Hp) as (H1 & H2 & _ & Hids).
    rewrite (gathered_uniform _
               (match d with d2 => - (delta_t * gravity) | _ => 0 end));
      [rewrite (Hpu p Hp); ring|congruence|].
    specialize (Hmassive p Hp).
    rewrite Forall_forall in Hids, Hmassive |- *.
    intros id Hid. specialize (Hids id Hid). specialize (Hmassive id Hid).
    unfold velocity_weight.
    assert (G : gt_real (nth (Z.to_nat id) node_m 0) 0 = true)
      by now apply gt_real_spec.
    rewrite G.
    assert (Hk : (Z.to_nat id < List.length node_m)%nat) by lia.
    assert (E : nth (Z.to_nat id) node_imp zero3
                = impulse_before_bc true delta_t node_m (Z.to_nat id) zero3).
    { apply nth_error_nth. unfold node_imp.
      rewrite nth_error_mapi_from. cbn [Nat.add].
      destruct (nth_error (zero_field (List.length node_m)) (Z.to_nat id))
        as [z|] eqn:Ez.
      - now rewrite (nth_error_zero_field _ _ _ Ez).
      - apply nth_error_None in Ez. rewrite length_zero_field in Ez. lia. }
    rewrite E. unfold impulse_before_bc.
    apply Qclt_not_zero in Hmassive.
    destruct d; cbn [get3 c0 c1 c2 zero3 fill3]; now field. }
  exists node_imp. unfold updateParticlePositionAndVelocity.
  match goal with |- context [for_each_mut ?body ?ps] =>
    destruct (for_each_mut_Forall2
      (fun p p' =>
         get3 (v p') d0 = get3 (v p) d0
         /\ get3 (v p') d1 = get3 (v p) d1
         /\ get3 (v p') d2 = get3 (v p) d2 - delta_t * gravity)
      body ps) as [ps' [Hr HF]]
  end.
  - intros p Hp. rewrite Forall_forall in Hloc.
    destruct (updateParticle_gathered (nodesPerCell (d_mesh pm)) node_imp
                node_p node_m delta_t p (Hloc p Hp) Hlp Hlen)
      as (p' & Hp' & _ & Hd).
    exists p'. split; [exact Hp'|].
    rewrite (proj1 (Hd d0)), (proj1 (Hd d1)), (proj1 (Hd d2)),
      !(Hw _ p Hp).
    repeat split; ring.
  - exists (with_particles pm ps'). split; [exact Himp|].
    split; [|exact HF]. now rewrite (result_bind_ok _ _ _ Hr).
Qed.

Lemma gravity_accelerates_uniformly_witness :
  exists node_imp pm',
    result (calculateNodalImpulse (bar_located true) (zero_field 3)
              [half; 1; half] half [zero3; zero3; zero3]) = Ok node_imp
    /\ result (updateParticlePositionAndVelocity (bar_located true) node_imp
                 [zero3; zero3; zero3] [half; 1; half] half) = Ok pm'
    /\ Forall2 (fun p p' =>
                  get3 (v p') d0 = get3 (v p) d0
                  /\ get3 (v p') d1 = get3 (v p) d1
                  /\ get3 (v p') d2 = get3 (v p) d2 - half * gravity)
               (d_particles (bar_located true)) (d_particles pm').
Proof.
  apply (gravity_accelerates_uniformly (bar_located true) [half; 1; half]
           [zero3; zero3; zero3] [zero3; zero3; zero3] half).
  - reflexivity.
  - intros b Hb. exists free_bc. split; [reflexivity|]. intros; reflexivity.
  - reflexivity.
  - reflexivity.
  - reflexivity.
  - apply bar_located_located.
  - apply bar_located_unity.
  - repeat constructor.
Defined.
